(** * Noteflow: the document ingestion and retrieval core

    A shallow embedding of the three backend services that make up the
    ingestion pipeline,

      - [services/documentProcessor.js]  (text extraction, chunking,
        metadata analysis, the [processDocument] orchestrator),
      - [services/aiService.js]          (Gemini calls with key rotation),
      - [services/vectorService.js]      (the in-memory fallback store and
        its cosine-similarity search),

    followed by the properties of the specification that concern them.

    Conventions.  A JavaScript string is the list of its code units, taken
    here in the 8-bit range ([list ascii]).  A JavaScript number that holds
    a size or an index is a [nat]; a number that holds a measurement is a
    binary64 [float], which is exactly the JavaScript number type.  Code
    that can throw returns an [outcome]; code that also talks to the
    network runs in the monad [M], which threads the process state and
    keeps every state change made before an exception, as JavaScript
    does. *)

From Stdlib Require Import String Ascii List Arith Bool Lia ZArith Floats.
From Stdlib Require Import DecimalString Permutation.
Import ListNotations.

Set Implicit Arguments.

(* ===================================================================== *)
(** * JavaScript strings *)
(* ===================================================================== *)

Definition jsstring := list ascii.

(** String literals of the source. *)
Definition str (s : string) : jsstring := list_ascii_of_string s.

Definition ascii_eqb (a b : ascii) : bool := Ascii.eqb a b.

Fixpoint jsstring_eqb (a b : jsstring) : bool :=
  match a, b with
  | [], [] => true
  | x :: a', y :: b' => ascii_eqb x y && jsstring_eqb a' b'
  | _, _ => false
  end.

(** White space as [String.prototype.trim] and the regular expression
    class [\s] see it, among 8-bit code units: TAB, LF, VT, FF, CR, SP and
    NBSP. *)
Definition is_space (c : ascii) : bool :=
  match nat_of_ascii c with
  | 9 | 10 | 11 | 12 | 13 | 32 | 160 => true
  | _ => false
  end.

Fixpoint dropWhile {A} (p : A -> bool) (l : list A) : list A :=
  match l with
  | [] => []
  | x :: l' => if p x then dropWhile p l' else l
  end.

(** [s.trim()] *)
Definition trim (s : jsstring) : jsstring :=
  rev (dropWhile is_space (rev (dropWhile is_space s))).

(** [s.slice(-n)] for a non-negative integer [n]: the last [n] code units;
    [-0] is [0], so [s.slice(-0)] is the whole string. *)
Definition slice_last (s : jsstring) (n : nat) : jsstring :=
  if n =? 0 then s else skipn (length s - n) s.

(** [s.indexOf(c)] for a one-character needle; [None] stands for [-1]. *)
Fixpoint indexOf (c : ascii) (s : jsstring) : option nat :=
  match s with
  | [] => None
  | x :: s' => if ascii_eqb x c then Some 0
               else option_map S (indexOf c s')
  end.

(** [s.split(re)] where [re] is [/[...]+/], a non-empty run of characters
    of the class [p]: the pieces between the maximal runs, with the empty
    pieces at both ends that JavaScript keeps. *)
Fixpoint splitRuns (p : ascii -> bool) (inRun : bool) (piece : jsstring)
    (s : jsstring) : list jsstring :=
  match s with
  | [] => [rev piece]
  | c :: s' =>
      if p c then
        if inRun then splitRuns p true piece s'
        else rev piece :: splitRuns p true [] s'
      else splitRuns p false (c :: piece) s'
  end.

Definition split (p : ascii -> bool) (s : jsstring) : list jsstring :=
  splitRuns p false [] s.

(** [s.substring(0, n)] *)
Definition substring0 (n : nat) (s : jsstring) : jsstring := firstn n s.

(** [a.join(sep)] *)
Fixpoint join (sep : jsstring) (l : list jsstring) : jsstring :=
  match l with
  | [] => []
  | [x] => x
  | x :: l' => x ++ sep ++ join sep l'
  end.

(** [s.toLowerCase()] on 8-bit code units: A-Z and the Latin-1 capitals.
    On these strings lower-casing works unit by unit and keeps the
    length; a string with code units beyond Latin-1 (where lower-casing
    can give two units for one) is outside the strings modelled here. *)
Definition lower_char (c : ascii) : ascii :=
  let n := nat_of_ascii c in
  if ((65 <=? n) && (n <=? 90))
     || ((192 <=? n) && (n <=? 222) && negb (n =? 215))
  then ascii_of_nat (n + 32) else c.

Definition toLowerCase (s : jsstring) : jsstring := map lower_char s.

(** [s.includes(t)] *)
Fixpoint startsWith (t s : jsstring) : bool :=
  match t, s with
  | [], _ => true
  | x :: t', y :: s' => ascii_eqb x y && startsWith t' s'
  | _ :: _, [] => false
  end.

Fixpoint includes (t s : jsstring) : bool :=
  startsWith t s ||
  match s with
  | [] => false
  | _ :: s' => includes t s'
  end.

(** [String(n)] for a non-negative integer. *)
Definition string_of_nat (n : nat) : jsstring :=
  str (NilZero.string_of_uint (Nat.to_uint n)).

(* ===================================================================== *)
(** * Exceptions *)
(* ===================================================================== *)

(** The values the modelled code throws: [new Error(message)], the
    engine's own [TypeError] and [SyntaxError], and the error object with
    which an axios request rejects, of which the code reads
    [error.response?.status]. *)
Inductive exn : Type :=
| Error (message : jsstring)
| TypeError
| SyntaxError
| AxiosError (status : option nat).

Inductive outcome (A : Type) : Type :=
| Ok (value : A)
| Throw (e : exn).
Arguments Ok {A} value.
Arguments Throw {A} e.

Definition is_ok {A} (o : outcome A) : bool :=
  match o with Ok _ => true | Throw _ => false end.

(* ===================================================================== *)
(** * Data model *)
(* ===================================================================== *)

(** Embedding vectors: arrays of numbers. *)
Definition vector := list float.

(** A chunk as [chunkText] returns it. *)
Record chunk : Type := {
  chunk_content : jsstring;
  chunk_start : nat;
  chunk_end : nat;
  chunk_length : nat;
  chunk_sentences : nat
}.

(** ['gemini'] and ['free'], the two values of [processingMethod]. *)
Inductive method : Type := Gemini | Free.

Definition method_name (m : method) : jsstring :=
  match m with Gemini => str "gemini" | Free => str "free" end.

(** [{ word, count }], with [source: 'gemini'] on the provider's path. *)
Record keyword : Type := {
  word : jsstring;
  count : nat;
  source : option method
}.

(** The [metadata] object of a processed chunk. *)
Record chunk_metadata : Type := {
  chunkIndex : nat;
  start : nat;
  end_ : nat;
  length_ : nat;
  sentences : nat;
  processingMethod : method
}.

(** An element of [processedChunks]; [embedding] is [null] when no vector
    was obtained. *)
Record processed_chunk : Type := {
  content : jsstring;
  embedding : option vector;
  keywords : list keyword;
  summary : jsstring;
  metadata : chunk_metadata
}.

(** A record of the fallback store: the chunk's own metadata spread
    after [document_id] and [chunk_index]. *)
Record stored_chunk : Type := {
  stored_content : jsstring;
  stored_embedding : option vector;
  document_id : jsstring;
  chunk_index : nat;
  stored_metadata : chunk_metadata
}.

(** A search hit.  Its metadata is
    [{ documentId, chunkIndex, ...chunk.metadata }]: the spread comes last,
    so [chunkIndex] is the one the chunk's metadata carries. *)
Record search_result : Type := {
  hit_content : jsstring;
  score : float;
  hit_documentId : jsstring;
  hit_chunkIndex : nat;
  hit_document_id : jsstring;
  hit_chunk_index : nat;
  hit_metadata : chunk_metadata
}.

(* ===================================================================== *)
(** * The collaborators outside the repository *)
(* ===================================================================== *)

(** What an axios POST comes back with: a response body, or a rejection
    whose [response.status] may be missing (network failure). *)
Inductive http (A : Type) : Type :=
| Response (data : A)
| Rejected (status : option nat).
Arguments Response {A} data.
Arguments Rejected {A} status.

(** The part of a [generateContent] response body that [generateText]
    inspects. *)
Inductive candidates : Type :=
| FirstPart (text : option jsstring)
    (** [candidates[0].content.parts[0]] exists; its [text] may be
        undefined *)
| MaxTokens      (** no parts, [finishReason === 'MAX_TOKENS'] *)
| OtherCandidate (** a first candidate of any other shape *)
| NoCandidates.

(** Libraries and services the pipeline calls and does not own: the
    [natural] sentence tokenizer, the file parsers, the OCR engine, the
    image library, the HTTP client, the JSON parser and the clock.  A
    request's answer may depend on the moment it is made ([tick] counts
    the requests made so far), on the key and on the body. *)
Record Collaborators : Type := {
  (** [new natural.SentenceTokenizer().tokenize(text)] *)
  tokenize : jsstring -> list jsstring;
  (** [fs.readFile] then [pdfParse]: [data.text], possibly undefined *)
  pdfText : jsstring -> outcome (option jsstring);
  (** [fs.readFile(filePath, 'utf8')] *)
  readFileUtf8 : jsstring -> outcome jsstring;
  (** [mammoth.extractRawText({path})]: [result.value] *)
  docxText : jsstring -> outcome (option jsstring);
  (** the [sharp(...)...toFile(processedPath)] pipeline *)
  sharpToFile : jsstring -> jsstring -> outcome unit;
  (** [Tesseract.recognize(path, 'eng', ...)]: [data.text] *)
  recognize : jsstring -> outcome (option jsstring);
  (** the body of [extractKeywords]: [natural.WordTokenizer], the stop-word
      filter, the frequency count and the sort, as one outcome *)
  keywordCounts : jsstring -> nat -> outcome (list (jsstring * nat));
  (** [JSON.parse(response)] followed by [.map] over the parsed array:
      the string elements, or nothing when either step throws *)
  parseKeywordArray : jsstring -> option (list jsstring);
  (** POST [embedding-001:embedContent]:
      [data.embedding && data.embedding.values] *)
  postEmbedContent :
    nat -> option jsstring -> jsstring -> http (option vector);
  (** POST [gemini-2.5-flash:generateContent] *)
  postGenerateContent :
    nat -> option jsstring -> jsstring -> http candidates;
  (** [new Date().toISOString()] *)
  isoTime : nat -> jsstring;
  (** [client.search(searchParams)], its hits already reshaped; the
      optional string is the [document_id] filter *)
  milvusSearch :
    vector -> option jsstring -> nat -> outcome (list search_result);
  (** [client.delete({ filter })] *)
  milvusDelete : jsstring -> outcome unit
}.

(* ===================================================================== *)
(** * documentProcessor.js: the chunker *)
(* ===================================================================== *)

Definition is_terminator (c : ascii) : bool :=
  match nat_of_ascii c with
  | 46 | 33 | 63 => true   (* . ! ? *)
  | _ => false
  end.

(** [s.split(/[.!?]+/).filter(s => s.trim().length > 0).length] *)
Definition countSentences (s : jsstring) : nat :=
  length (filter (fun p => 0 <? length (trim p)) (split is_terminator s)).

(** [getOverlapText(text, overlapSize)] *)
Definition getOverlapText (text : jsstring) (overlapSize : nat) : jsstring :=
  if length text <=? overlapSize then text
  else
    let overlapText := slice_last text overlapSize in
    match indexOf " "%char overlapText with
    | Some firstSpace =>
        if 0 <? firstSpace then skipn (firstSpace + 1) overlapText
        else overlapText
    | None => overlapText
    end.

(** The object literal pushed onto [chunks]. *)
Definition closeChunk (currentChunk : jsstring) (chunkStart : nat) : chunk :=
  {| chunk_content := trim currentChunk;
     chunk_start := chunkStart;
     chunk_end := chunkStart + length currentChunk;
     chunk_length := length currentChunk;
     chunk_sentences := countSentences currentChunk |}.

(** The variables of the loop of [chunkText]. *)
Record chunker : Type := {
  chunks : list chunk;
  currentChunk : jsstring;
  chunkStart : nat
}.

(** One iteration of the [for] loop over the sentences.  The update of
    [chunkStart] reads [currentChunk] after it was reassigned, as the
    source does. *)
Definition chunkStep (chunkSize overlap : nat) (st : chunker)
    (sentence : jsstring) : chunker :=
  if (chunkSize <? length (currentChunk st) + length sentence)
     && (0 <? length (currentChunk st))
  then
    let pushed := chunks st ++ [closeChunk (currentChunk st) (chunkStart st)] in
    let overlapText := getOverlapText (currentChunk st) overlap in
    let currentChunk' := overlapText ++ sentence in
    {| chunks := pushed;
       currentChunk := currentChunk';
       chunkStart := chunkStart st + length currentChunk'
                     - length overlapText - length sentence |}
  else
    {| chunks := chunks st;
       currentChunk := currentChunk st ++ sentence;
       chunkStart := chunkStart st |}.

Definition chunkLoop (chunkSize overlap : nat) (sentences : list jsstring)
    (st : chunker) : chunker :=
  fold_left (chunkStep chunkSize overlap) sentences st.

(** "Add the last chunk". *)
Definition chunkFinish (st : chunker) : list chunk :=
  if 0 <? length (trim (currentChunk st))
  then chunks st ++ [closeChunk (currentChunk st) (chunkStart st)]
  else chunks st.

Definition chunkInit : chunker :=
  {| chunks := []; currentChunk := []; chunkStart := 0 |}.

(** [chunkText(text, chunkSize, overlap)]; [splitIntoSentences] is the
    tokenizer. *)
Definition chunkText (env : Collaborators) (text : jsstring)
    (chunkSize overlap : nat) : list chunk :=
  chunkFinish (chunkLoop chunkSize overlap (tokenize env text) chunkInit).

Definition defaultChunkSize : nat := 1000.
Definition defaultOverlap : nat := 200.

(* ===================================================================== *)
(** * Process state and the monad of effectful code *)
(* ===================================================================== *)

Inductive endpoint : Type := EmbedContent | GenerateContent.

(** The state of the [AIService] singleton, with a clock that counts the
    requests made and a log of them: the endpoint and the index of the key
    each request was sent with. *)
Record World : Type := {
  geminiApiKeys : list jsstring;
  currentKeyIndex : nat;
  tick : nat;
  requests : list (endpoint * nat)
}.

(** A computation reads and updates the world and returns or throws; the
    world it leaves behind is kept in both cases. *)
Definition M (A : Type) : Type := World -> outcome A * World.

Definition ret {A} (a : A) : M A := fun w => (Ok a, w).

Definition throw {A} (e : exn) : M A := fun w => (Throw e, w).

Definition bind {A B} (m : M A) (k : A -> M B) : M B :=
  fun w =>
    match m w with
    | (Ok a, w') => k a w'
    | (Throw e, w') => (Throw e, w')
    end.

(** [try { m } catch (e) { h e }] *)
Definition tryCatch {A} (m : M A) (h : exn -> M A) : M A :=
  fun w =>
    match m w with
    | (Ok a, w') => (Ok a, w')
    | (Throw e, w') => h e w'
    end.

(** Runs [m] and hands its outcome to the continuation: for a [try] block
    whose handler reads variables the block assigned before it threw. *)
Definition attempt {A} (m : M A) : M (outcome A) :=
  fun w => let (r, w') := m w in (Ok r, w').

Definition liftOutcome {A} (o : outcome A) : M A := fun w => (o, w).

Declare Scope js_scope.
Delimit Scope js_scope with js.
Notation "x <- m ;; k" := (bind m (fun x => k))
  (at level 61, m at next level, right associativity) : js_scope.
Open Scope js_scope.

(** The same [try]/[catch] for code that touches no state. *)
Definition tryCatchPure {A} (o : outcome A) (h : exn -> A) : A :=
  match o with
  | Ok a => a
  | Throw e => h e
  end.

(* ===================================================================== *)
(** * aiService.js *)
(* ===================================================================== *)

(** [getCurrentApiKey()]: [undefined] when the index is out of range. *)
Definition getCurrentApiKey (w : World) : option jsstring :=
  nth_error (geminiApiKeys w) (currentKeyIndex w).

(** [switchToNextKey()] *)
Definition switchToNextKey (w : World) : World :=
  {| geminiApiKeys := geminiApiKeys w;
     currentKeyIndex :=
       (currentKeyIndex w + 1) mod length (geminiApiKeys w);
     tick := tick w;
     requests := requests w |}.

(** The world after a request was sent to [ep] with the current key. *)
Definition sent (ep : endpoint) (w : World) : World :=
  {| geminiApiKeys := geminiApiKeys w;
     currentKeyIndex := currentKeyIndex w;
     tick := S (tick w);
     requests := requests w ++ [(ep, currentKeyIndex w)] |}.

Definition fromHttp {A} (r : http A) : outcome A :=
  match r with
  | Response d => Ok d
  | Rejected status => Throw (AxiosError status)
  end.

(** [await axios.post(embedContent, ...)] with the current key. *)
Definition axiosPostEmbed (env : Collaborators) (text : jsstring)
    : M (option vector) :=
  fun w =>
    (fromHttp (postEmbedContent env (tick w) (getCurrentApiKey w) text),
     sent EmbedContent w).

(** [await axios.post(generateContent, ...)] with the current key. *)
Definition axiosPostGenerate (env : Collaborators) (prompt : jsstring)
    : M candidates :=
  fun w =>
    (fromHttp (postGenerateContent env (tick w) (getCurrentApiKey w) prompt),
     sent GenerateContent w).

(** [error.response?.status] *)
Definition responseStatus (e : exn) : option nat :=
  match e with
  | AxiosError status => status
  | _ => None
  end.

(** [error.response?.status === 429] *)
Definition rateLimited (e : exn) : bool :=
  match responseStatus e with
  | Some 429 => true
  | _ => false
  end.

(** [retryCount < this.geminiApiKeys.length - 1]; with no key at all the
    right-hand side is negative and the test fails, as it does on the
    truncated difference. *)
Definition moreKeys (w : World) (retryCount : nat) : bool :=
  retryCount <? length (geminiApiKeys w) - 1.

Definition embeddingsFailed : exn :=
  Error (str "Failed to generate embeddings").

Definition textFailed : exn := Error (str "Failed to generate text").

(** [generateEmbeddings(text, retryCount)].  The function calls itself
    with [retryCount + 1]; [fuel] bounds the depth of these calls, and
    [generateEmbeddings] below starts it with enough (lemma
    [generateEmbeddings_fuel]). *)
Fixpoint generateEmbeddingsFrom (fuel : nat) (env : Collaborators)
    (text : jsstring) (retryCount : nat) : M vector :=
  match fuel with
  | 0 => throw embeddingsFailed
  | S fuel' =>
      tryCatch
        (data <- axiosPostEmbed env text ;;
         match data with
         | Some values => ret values
         | None =>
             throw (Error
               (str "Unexpected response format from Gemini embeddings API"))
         end)
        (fun error w =>
           if rateLimited error && moreKeys w retryCount
           then generateEmbeddingsFrom fuel' env text (retryCount + 1)
                  (switchToNextKey w)
           else throw embeddingsFailed w)
  end.

Definition generateEmbeddings (env : Collaborators) (text : jsstring)
    (retryCount : nat) : M vector :=
  fun w =>
    generateEmbeddingsFrom
      (S (length (geminiApiKeys w) - 1 - retryCount)) env text retryCount w.

(** [generateText(prompt, retryCount)]; the text of the first part may be
    undefined. *)
Fixpoint generateTextFrom (fuel : nat) (env : Collaborators)
    (prompt : jsstring) (retryCount : nat) : M (option jsstring) :=
  match fuel with
  | 0 => throw textFailed
  | S fuel' =>
      tryCatch
        (data <- axiosPostGenerate env prompt ;;
         match data with
         | FirstPart text => ret text
         | MaxTokens => throw (Error (str "Token limit exceeded"))
         | OtherCandidate =>
             throw (Error (str "Unexpected response format from Gemini API"))
         | NoCandidates =>
             throw (Error (str "No candidates in Gemini API response"))
         end)
        (fun error w =>
           if rateLimited error && moreKeys w retryCount
           then generateTextFrom fuel' env prompt (retryCount + 1)
                  (switchToNextKey w)
           else throw textFailed w)
  end.

Definition generateText (env : Collaborators) (prompt : jsstring)
    (retryCount : nat) : M (option jsstring) :=
  fun w =>
    generateTextFrom
      (S (length (geminiApiKeys w) - 1 - retryCount)) env prompt retryCount w.

(* ===================================================================== *)
(** * documentProcessor.js: text extraction *)
(* ===================================================================== *)

Definition obind {A B} (o : outcome A) (k : A -> outcome B) : outcome B :=
  match o with
  | Ok a => k a
  | Throw e => Throw e
  end.

(** [try { o } catch (error) { throw h error }] without state. *)
Definition rethrowAs {A} (o : outcome A) (h : exn -> exn) : outcome A :=
  match o with
  | Ok a => Ok a
  | Throw e => Throw (h e)
  end.

(** [if (!text || text.trim().length === 0) throw new Error(message);
    return text.trim()], where [text] may be undefined. *)
Definition nonEmptyTrimmed (text : option jsstring) (message : jsstring)
    : outcome jsstring :=
  match text with
  | None => Throw (Error message)
  | Some t =>
      if length (trim t) =? 0 then Throw (Error message) else Ok (trim t)
  end.

Definition extractFromPDF (env : Collaborators) (filePath : jsstring)
    : outcome jsstring :=
  rethrowAs
    (obind (pdfText env filePath) (fun text =>
     nonEmptyTrimmed text (str "No text content found in PDF")))
    (fun _ => Error (str "Failed to extract text from PDF")).

Definition extractFromTXT (env : Collaborators) (filePath : jsstring)
    : outcome jsstring :=
  rethrowAs
    (obind (readFileUtf8 env filePath) (fun content =>
     nonEmptyTrimmed (Some content)
       (str "No text content found in TXT file")))
    (fun _ => Error (str "Failed to extract text from TXT file")).

Definition extractFromDOCX (env : Collaborators) (filePath : jsstring)
    : outcome jsstring :=
  rethrowAs
    (obind (docxText env filePath) (fun value =>
     nonEmptyTrimmed value (str "No text content found in DOCX file")))
    (fun _ => Error (str "Failed to extract text from DOCX file")).

Fixpoint takeWhile {A} (p : A -> bool) (l : list A) : list A :=
  match l with
  | [] => []
  | x :: l' => if p x then x :: takeWhile p l' else []
  end.

(** [filePath.replace(/\.[^/.]+$/, '_processed.png')]: the last dot and
    what follows it, when that is non-empty and holds no slash. *)
Definition replaceExtension (filePath : jsstring) : jsstring :=
  let notSep c := negb (ascii_eqb c "."%char || ascii_eqb c "/"%char) in
  let ext := takeWhile notSep (rev filePath) in
  match ext, dropWhile notSep (rev filePath) with
  | _ :: _, dot :: stem =>
      if ascii_eqb dot "."%char then rev stem ++ str "_processed.png"
      else filePath
  | _, _ => filePath
  end.

(** [preprocessImageForOCR(filePath)]: the original path when the image
    pipeline fails. *)
Definition preprocessImageForOCR (env : Collaborators) (filePath : jsstring)
    : jsstring :=
  let processedPath := replaceExtension filePath in
  tryCatchPure
    (obind (sharpToFile env filePath processedPath) (fun _ =>
     Ok processedPath))
    (fun _ => filePath).

Definition extractFromImage (env : Collaborators) (filePath : jsstring)
    : outcome jsstring :=
  rethrowAs
    (let processedImagePath := preprocessImageForOCR env filePath in
     obind (recognize env processedImagePath) (fun text =>
     nonEmptyTrimmed text (str "No text content found in image")))
    (fun _ => Error (str "Failed to extract text from image")).

(** The message of the error that leaves [extractText]. *)
Definition extractionFailed (fileType : jsstring) : exn :=
  Error (str "Failed to extract text from " ++ fileType ++ str " file").

Definition unsupportedFileType (fileType : jsstring) : exn :=
  Error (str "Unsupported file type: " ++ fileType).

(** [extractText(filePath, fileType)]: the [switch] sits inside the
    [try], its [default] branch included. *)
Definition extractText (env : Collaborators) (filePath fileType : jsstring)
    : outcome jsstring :=
  rethrowAs
    (if jsstring_eqb fileType (str "pdf") then extractFromPDF env filePath
     else if jsstring_eqb fileType (str "txt")
       then extractFromTXT env filePath
     else if jsstring_eqb fileType (str "docx")
       then extractFromDOCX env filePath
     else if jsstring_eqb fileType (str "image")
       then extractFromImage env filePath
     else Throw (unsupportedFileType fileType))
    (fun _ => extractionFailed fileType).

(** The file types [extractText] has a case for. *)
Definition supportedFileType (fileType : jsstring) : bool :=
  jsstring_eqb fileType (str "pdf")
  || jsstring_eqb fileType (str "txt")
  || jsstring_eqb fileType (str "docx")
  || jsstring_eqb fileType (str "image").

(* ===================================================================== *)
(** * documentProcessor.js: the metadata analyzers *)
(* ===================================================================== *)

Definition newline : jsstring := [ascii_of_nat 10].
Definition doubleQuote : ascii := ascii_of_nat 34.
Definition singleQuote : ascii := ascii_of_nat 39.

(** [extractKeywords(text, maxKeywords)]: whatever its body throws is
    caught and an empty list returned. *)
Definition extractKeywords (env : Collaborators) (text : jsstring)
    (maxKeywords : nat) : list keyword :=
  tryCatchPure
    (obind (keywordCounts env text maxKeywords) (fun counted =>
     Ok (map (fun wc => {| word := fst wc; count := snd wc;
                           source := None |}) counted)))
    (fun _ => []).

(** [generateSummary(text, maxSentences)].  Its [try] block calls the
    tokenizer, [slice] and [join], none of which throws on a string, so
    the handler (the first 200 characters and an ellipsis) is not
    reached. *)
Definition generateSummary (env : Collaborators) (text : jsstring)
    (maxSentences : nat) : jsstring :=
  let sentences := tokenize env text in
  if length sentences <=? maxSentences then text
  else join (str " ") (firstn maxSentences sentences).

Definition subjectKeywords : list (jsstring * list jsstring) :=
  [ (str "mathematics",
      map str ["math"; "algebra"; "calculus"; "geometry"; "equation";
               "formula"; "number"; "solve"]%string);
    (str "science",
      map str ["science"; "biology"; "chemistry"; "physics"; "experiment";
               "research"; "theory"; "hypothesis"]%string);
    (str "history",
      map str ["history"; "historical"; "ancient"; "century"; "war";
               "battle"; "empire"; "civilization"]%string);
    (str "literature",
      map str ["literature"; "novel"; "poetry"; "author"; "character";
               "plot"; "theme"; "writing"]%string);
    (str "technology",
      map str ["technology"; "computer"; "software"; "programming";
               "digital"; "internet"; "data"; "system"]%string);
    (str "business",
      map str ["business"; "management"; "marketing"; "finance"; "economy";
               "company"; "strategy"; "profit"]%string) ].

(** [c.toUpperCase()] for a lower-case letter of a subject name. *)
Definition upper_char (c : ascii) : ascii :=
  let n := nat_of_ascii c in
  if (97 <=? n) && (n <=? 122) then ascii_of_nat (n - 32) else c.

(** [subject.charAt(0).toUpperCase() + subject.slice(1)] *)
Definition capitalize (s : jsstring) : jsstring :=
  match s with
  | [] => []
  | c :: s' => upper_char c :: s'
  end.

(** [extractSubject(text)]: the first subject with the strictly highest
    number of its keywords present, ['General'] when none is.  The call
    to [extractKeywords] at its head has no effect on the result, and
    nothing in the [try] block throws. *)
Definition extractSubject (env : Collaborators) (text : jsstring)
    : jsstring :=
  let textLower := toLowerCase text in
  fst (fold_left
    (fun (best : jsstring * nat) (entry : jsstring * list jsstring) =>
       let score :=
         fold_left (fun acc kw => acc + (if includes kw textLower then 1 else 0))
                   (snd entry) 0 in
       if snd best <? score then (capitalize (fst entry), score) else best)
    subjectKeywords (str "General", 0)).

(** [extractKeywordsWithGemini(text, maxKeywords)] *)
Definition extractKeywordsWithGemini (env : Collaborators) (text : jsstring)
    (maxKeywords : nat) : M (list keyword) :=
  tryCatch
    (let prompt :=
       str "Extract the top " ++ string_of_nat maxKeywords ++
       str " most important keywords from this text. Return only a JSON array of strings, no other text."
       ++ newline ++ newline ++ str "Text: " ++ substring0 2000 text in
     response <- generateText env prompt 0 ;;
     match response with
     | Some json =>
         match parseKeywordArray env json with
         | Some parsed =>
             ret (map (fun k => {| word := k; count := 1;
                                   source := Some Gemini |}) parsed)
         | None => ret (extractKeywords env text maxKeywords)
         end
     | None => ret (extractKeywords env text maxKeywords)
     end)
    (fun _ => ret (extractKeywords env text maxKeywords)).

(** [generateSummaryWithGemini(text, maxSentences)]; reading [.length] of
    an undefined answer throws inside the [try]. *)
Definition generateSummaryWithGemini (env : Collaborators) (text : jsstring)
    (maxSentences : nat) : M jsstring :=
  tryCatch
    (let prompt :=
       str "Summarize this text in " ++ string_of_nat maxSentences ++
       str " sentences. Focus on the main points and key information."
       ++ newline ++ newline ++ str "Text: " ++ substring0 3000 text in
     response <- generateText env prompt 0 ;;
     match response with
     | Some summary => ret (trim summary)
     | None => throw TypeError
     end)
    (fun _ => ret (generateSummary env text maxSentences)).

Definition quoted (s : string) : jsstring :=
  doubleQuote :: str s ++ [doubleQuote].

(** [extractSubjectWithGemini(text)] *)
Definition extractSubjectWithGemini (env : Collaborators) (text : jsstring)
    : M jsstring :=
  tryCatch
    (let prompt :=
       str "What is the main subject or topic of this text? Respond with only the subject name (e.g., "
       ++ quoted "Mathematics" ++ str ", " ++ quoted "Science" ++ str ", "
       ++ quoted "History" ++ str ", " ++ quoted "Technology" ++ str ", "
       ++ quoted "Business" ++ str ", " ++ quoted "Literature" ++ str ")."
       ++ newline ++ newline ++ str "Text: " ++ substring0 2000 text in
     response <- generateText env prompt 0 ;;
     match response with
     | Some subject =>
         ret (filter (fun c => negb (ascii_eqb c singleQuote
                                     || ascii_eqb c doubleQuote))
                     (trim subject))
     | None => throw TypeError
     end)
    (fun _ => ret (extractSubject env text)).

(* ===================================================================== *)
(** * documentProcessor.js: readability and language *)
(* ===================================================================== *)

(** The decimal constants of the source denote the nearest binary64
    values, in JavaScript as here. *)
#[local] Set Warnings "-inexact-float".

(** A length or a count as a JavaScript number (rounded to nearest, which
    is exact below 2^53). *)
Definition float_of_Z (z : Z) : float :=
  SF2Prim (binary_normalize prec emax z 0 false).

Definition float_of_nat (n : nat) : float := float_of_Z (Z.of_nat n).

(** [Math.round(x)]: the integer nearest to [x], ties towards positive
    infinity; NaN, the infinities and the zeros are returned as they
    are, and a negative [x] that rounds to zero gives [-0]. *)
Definition Math_round (x : float) : float :=
  match Prim2SF x with
  | S754_finite s m e =>
      if (0 <=? e)%Z then x
      else
        let d := (2 ^ (- e))%Z in
        let v := if s then Z.neg m else Z.pos m in
        let q := ((2 * v + d) / (2 * d))%Z in
        if (q =? 0)%Z then (if s then (-0)%float else 0%float)
        else float_of_Z q
  | _ => x
  end.

Definition isVowel (c : ascii) : bool :=
  existsb (ascii_eqb c) (str "aeiouy").

(** The [for] loop of [countSyllables]: a vowel that does not follow a
    vowel starts a syllable. *)
Fixpoint vowelGroups (previousWasVowel : bool) (syllables : nat)
    (w : jsstring) : nat :=
  match w with
  | [] => syllables
  | c :: w' =>
      vowelGroups (isVowel c)
        (if isVowel c && negb previousWasVowel then S syllables
         else syllables)
        w'
  end.

(** [word.endsWith('e')] *)
Definition endsWith_e (w : jsstring) : bool :=
  match rev w with
  | c :: _ => ascii_eqb c "e"%char
  | [] => false
  end.

(** [countSyllables(word)] *)
Definition countSyllables (word0 : jsstring) : nat :=
  let word := toLowerCase word0 in
  if length word <=? 3 then 1
  else
    let syllables := vowelGroups false 0 word in
    let syllables :=
      if endsWith_e word && (1 <? syllables) then syllables - 1
      else syllables in
    Nat.max 1 syllables.

Inductive readability_level : Type :=
| VeryEasy | Easy | FairlyEasy | Standard
| FairlyDifficult | Difficult | VeryDifficult.

Definition level_name (l : readability_level) : jsstring :=
  match l with
  | VeryEasy => str "Very Easy"
  | Easy => str "Easy"
  | FairlyEasy => str "Fairly Easy"
  | Standard => str "Standard"
  | FairlyDifficult => str "Fairly Difficult"
  | Difficult => str "Difficult"
  | VeryDifficult => str "Very Difficult"
  end.

Record readability : Type := {
  readability_score : float;
  level : readability_level;
  avgWordsPerSentence : float;
  avgSyllablesPerWord : float
}.

(** [a >= b] on numbers. *)
Definition geq (a b : float) : bool := (b <=? a)%float.

(** The [if]/[else if] cascade over [fleschScore]. *)
Definition levelOf (fleschScore : float) : readability_level :=
  if geq fleschScore 90%float then VeryEasy
  else if geq fleschScore 80%float then Easy
  else if geq fleschScore 70%float then FairlyEasy
  else if geq fleschScore 60%float then Standard
  else if geq fleschScore 50%float then FairlyDifficult
  else if geq fleschScore 30%float then Difficult
  else VeryDifficult.

(** [text.split(/\s+/).filter(word => word.length > 0)] *)
Definition wordsOf (text : jsstring) : list jsstring :=
  filter (fun w => 0 <? length w) (split is_space text).

(** [words.reduce((acc, word) => acc + this.countSyllables(word), 0)] *)
Definition syllablesOf (words : list jsstring) : nat :=
  fold_left (fun acc w => acc + countSyllables w) words 0.

(** The Flesch Reading Ease expression of [calculateReadability]. *)
Definition fleschScoreOf (avgWords avgSyllables : float) : float :=
  (206.835 - (1.015 * avgWords) - (84.6 * avgSyllables))%float.

(** [calculateReadability(text)].  With a string argument nothing in its
    [try] block throws, so the handler's default object is not
    returned. *)
Definition calculateReadability (env : Collaborators) (text : jsstring)
    : readability :=
  let sentences := tokenize env text in
  let words := wordsOf text in
  let syllables := syllablesOf words in
  let avgWords :=
    (float_of_nat (length words) / float_of_nat (length sentences))%float in
  let avgSyllables :=
    (float_of_nat syllables / float_of_nat (length words))%float in
  let fleschScore := fleschScoreOf avgWords avgSyllables in
  {| readability_score := Math_round fleschScore;
     level := levelOf fleschScore;
     avgWordsPerSentence := Math_round avgWords;
     avgSyllablesPerWord :=
       (Math_round (avgSyllables * 100) / 100)%float |}.

Definition englishWords : list jsstring :=
  map str ["the"; "and"; "or"; "but"; "in"; "on"; "at"; "to"; "for"; "of";
           "with"; "by"; "is"; "are"; "was"; "were"; "be"; "been"; "have";
           "has"; "had"; "do"; "does"; "did"; "will"; "would"; "could";
           "should"; "may"; "might"; "must"; "can"; "this"; "that";
           "these"; "those"]%string.

(** [DocumentProcessor.detectLanguage(text)] *)
Definition detectLanguage (text : jsstring) : jsstring :=
  let words := split is_space (toLowerCase text) in
  let englishCount :=
    length (filter (fun w => existsb (jsstring_eqb w) englishWords) words) in
  if (float_of_nat (length words) * 0.1 <? float_of_nat englishCount)%float
  then str "en" else str "unknown".

(* ===================================================================== *)
(** * documentProcessor.js: the orchestrator *)
(* ===================================================================== *)

Record document_metadata : Type := {
  wordCount : nat;
  chunkCount : nat;
  language : jsstring;
  subject : jsstring;
  document_keywords : list keyword;
  document_summary : jsstring;
  document_readability : readability;
  processingTime : jsstring;
  document_processingMethod : method
}.

(** What [processDocument] resolves to. *)
Record processed_document : Type := {
  extractedText : jsstring;
  processedChunks : list processed_chunk;
  document_metadata_of : document_metadata
}.

Definition defaultMaxKeywords : nat := 10.
Definition defaultMaxSentences : nat := 3.

(** The inner [try] of the loop body and its handler: the three local
    variables [embedding], [keywords] and [summary] after it.  A variable
    assigned before the block threw keeps its value in the handler, which
    reassigns [keywords] and [summary] only. *)
Definition analyzeChunk (env : Collaborators) (c : chunk)
    : M (option vector * list keyword * jsstring) :=
  let free (embedding : option vector) :=
    ret (embedding,
         extractKeywords env (chunk_content c) defaultMaxKeywords,
         generateSummary env (chunk_content c) defaultMaxSentences) in
  r1 <- attempt (generateEmbeddings env (chunk_content c) 0) ;;
  match r1 with
  | Throw _ => free None
  | Ok values =>
      r2 <- attempt
              (extractKeywordsWithGemini env (chunk_content c)
                 defaultMaxKeywords) ;;
      match r2 with
      | Throw _ => free (Some values)
      | Ok kws =>
          r3 <- attempt
                  (generateSummaryWithGemini env (chunk_content c)
                     defaultMaxSentences) ;;
          match r3 with
          | Throw _ => free (Some values)
          | Ok sm => ret (Some values, kws, sm)
          end
      end
  end.

(** The object pushed onto [processedChunks]. *)
Definition processedChunkOf (i : nat) (c : chunk)
    (locals : option vector * list keyword * jsstring) : processed_chunk :=
  let '(emb, kws, sm) := locals in
  {| content := chunk_content c;
     embedding := emb;
     keywords := kws;
     summary := sm;
     metadata :=
       {| chunkIndex := i;
          start := chunk_start c;
          end_ := chunk_end c;
          length_ := chunk_length c;
          sentences := chunk_sentences c;
          processingMethod :=
            match emb with Some _ => Gemini | None => Free end |} |}.

(** The [for] loop over the chunks, from index [i] on; the outer [try] of
    its body drops the chunk on an exception and goes on. *)
Fixpoint processChunks (env : Collaborators) (i : nat) (todo : list chunk)
    (done : list processed_chunk) : M (list processed_chunk) :=
  match todo with
  | [] => ret done
  | c :: todo' =>
      done' <- tryCatch
                 (locals <- analyzeChunk env c ;;
                  ret (done ++ [processedChunkOf i c locals]))
                 (fun _ => ret done) ;;
      processChunks env (S i) todo' done'
  end.

Definition isGemini (m : method) : bool :=
  match m with Gemini => true | Free => false end.

(** [new Date().toISOString()] *)
Definition now (env : Collaborators) : M jsstring :=
  fun w => (Ok (isoTime env (tick w)), w).

Definition noTextInDocument : exn :=
  Error (str "No text content found in document").

(** [processDocument(documentId, filePath, fileType)]; the handler of its
    outermost [try] rethrows the error it caught. *)
Definition processDocument (env : Collaborators)
    (documentId filePath fileType : jsstring) : M processed_document :=
  tryCatch
    (text <- liftOutcome (extractText env filePath fileType) ;;
     if length (trim text) =? 0 then throw noTextInDocument
     else
       let cs := chunkText env text defaultChunkSize defaultOverlap in
       done <- processChunks env 0 cs [] ;;
       subj <- tryCatch (extractSubjectWithGemini env text)
                 (fun _ => ret (extractSubject env text)) ;;
       kws <- tryCatch (extractKeywordsWithGemini env text 20)
                (fun _ => ret (extractKeywords env text 20)) ;;
       sm <- tryCatch (generateSummaryWithGemini env text 5)
               (fun _ => ret (generateSummary env text 5)) ;;
       time <- now env ;;
       ret {| extractedText := text;
              processedChunks := done;
              document_metadata_of :=
                {| wordCount := length (split is_space text);
                   chunkCount := length done;
                   language := detectLanguage text;
                   subject := subj;
                   document_keywords := kws;
                   document_summary := sm;
                   document_readability := calculateReadability env text;
                   processingTime := time;
                   document_processingMethod :=
                     if existsb (fun c => isGemini (processingMethod (metadata c)))
                          done
                     then Gemini else Free |} |})
    (fun error => throw error).

(* ===================================================================== *)
(** * vectorService.js *)
(* ===================================================================== *)

(** The fallback [Map], in insertion order, from a document id to the
    records stored for it. *)
Definition storage := list (jsstring * list stored_chunk).

(** The state of the [VectorService] singleton that the modelled methods
    read: the fallback flag, whether a client object exists, and the
    fallback map. *)
Record VectorService : Type := {
  useFallback : bool;
  hasClient : bool;
  fallbackStorage : storage
}.

(** [map.has(key)], [map.get(key)], [map.set(key, value)] and
    [map.delete(key)]. *)
Definition mapHas (m : storage) (key : jsstring) : bool :=
  existsb (fun kv => jsstring_eqb (fst kv) key) m.

Fixpoint mapGet (m : storage) (key : jsstring) : option (list stored_chunk) :=
  match m with
  | [] => None
  | (k, v) :: m' => if jsstring_eqb k key then Some v else mapGet m' key
  end.

Fixpoint mapSet (m : storage) (key : jsstring) (value : list stored_chunk)
    : storage :=
  match m with
  | [] => [(key, value)]
  | (k, v) :: m' =>
      if jsstring_eqb k key then (k, value) :: m'
      else (k, v) :: mapSet m' key value
  end.

Definition mapDelete (m : storage) (key : jsstring) : storage :=
  filter (fun kv => negb (jsstring_eqb (fst kv) key)) m.

(** [chunks.map((chunk, index) => ...)] of [storeChunksFallback]. *)
Fixpoint newChunksFrom (documentId : jsstring) (index : nat)
    (cs : list processed_chunk) : list stored_chunk :=
  match cs with
  | [] => []
  | c :: cs' =>
      {| stored_content := content c;
         stored_embedding := embedding c;
         document_id := documentId;
         chunk_index := index;
         stored_metadata := metadata c |}
      :: newChunksFrom documentId (S index) cs'
  end.

(** [storeChunksFallback(documentId, chunks)] *)
Definition storeChunksFallback (vs : VectorService) (documentId : jsstring)
    (cs : list processed_chunk) : VectorService :=
  let m0 := fallbackStorage vs in
  let m1 := if mapHas m0 documentId then m0 else mapSet m0 documentId [] in
  let existingChunks :=
    match mapGet m1 documentId with Some l => l | None => [] end in
  {| useFallback := useFallback vs;
     hasClient := hasClient vs;
     fallbackStorage :=
       mapSet m1 documentId
         (existingChunks ++ newChunksFrom documentId 0 cs) |}.

(** The loop of [cosineSimilarity] over indices below [vecA.length]. *)
Fixpoint cosineSums (vecA vecB : vector) (acc : float * float * float)
    : float * float * float :=
  match vecA, vecB with
  | a :: vecA', b :: vecB' =>
      let '(dotProduct, normA, normB) := acc in
      cosineSums vecA' vecB'
        ((dotProduct + a * b)%float, (normA + a * a)%float,
         (normB + b * b)%float)
  | _, _ => acc
  end.

(** [cosineSimilarity(vecA, vecB)] on two arrays of numbers. *)
Definition cosineSimilarity (vecA vecB : vector) : float :=
  if negb (length vecA =? length vecB) then 0%float
  else
    let '(dotProduct, normA, normB) :=
      cosineSums vecA vecB (0%float, 0%float, 0%float) in
    (dotProduct / (sqrt normA * sqrt normB))%float.

(** The object pushed onto [results]. *)
Definition hitOf (c : stored_chunk) (similarity : float) : search_result :=
  {| hit_content := stored_content c;
     score := similarity;
     hit_documentId := document_id c;
     hit_chunkIndex := chunkIndex (stored_metadata c);
     hit_document_id := document_id c;
     hit_chunk_index := chunk_index c;
     hit_metadata := stored_metadata c |}.

(** The inner loop of [searchChunksFallback] over one document's records;
    reading [.length] of a [null] embedding throws. *)
Fixpoint scoreChunks (queryEmbedding : vector) (cs : list stored_chunk)
    (results : list search_result) : outcome (list search_result) :=
  match cs with
  | [] => Ok results
  | c :: cs' =>
      match stored_embedding c with
      | None => Throw TypeError
      | Some v =>
          scoreChunks queryEmbedding cs'
            (results ++ [hitOf c (cosineSimilarity queryEmbedding v)])
      end
  end.

(** A document id is truthy when it is a non-empty string; [null] and
    the empty string are not. *)
Definition truthy (documentId : option jsstring) : bool :=
  match documentId with
  | Some (_ :: _) => true
  | _ => false
  end.

(** [documentId && docId !== documentId] *)
Definition skipped (documentId : option jsstring) (docId : jsstring) : bool :=
  match documentId with
  | Some d => truthy documentId && negb (jsstring_eqb docId d)
  | None => false
  end.

(** The outer loop of [searchChunksFallback] over the entries of the
    map. *)
Fixpoint scoreDocuments (queryEmbedding : vector)
    (documentId : option jsstring) (m : storage)
    (results : list search_result) : outcome (list search_result) :=
  match m with
  | [] => Ok results
  | (docId, cs) :: m' =>
      if skipped documentId docId
      then scoreDocuments queryEmbedding documentId m' results
      else obind (scoreChunks queryEmbedding cs results)
             (scoreDocuments queryEmbedding documentId m')
  end.

(** [results.sort((a, b) => b.score - a.score)]: a stable sort, by
    insertion from the right.  [x] moves behind [y] only when the
    comparator is positive on them.  When no difference of scores is
    NaN the comparator is consistent and the stable order is the only
    one a sort can give.  With a NaN score the comparator is not
    consistent, the order is then left to the engine, and for three or
    more records the arrangement given here need not be the engine's:
    what is proved of a search with NaN scores is either about two
    records or does not depend on the arrangement. *)
Fixpoint insertByScore (x : search_result) (l : list search_result)
    : list search_result :=
  match l with
  | [] => [x]
  | y :: l' =>
      if (0 <? score y - score x)%float then y :: insertByScore x l'
      else x :: l
  end.

Definition sortByScore (l : list search_result) : list search_result :=
  fold_right insertByScore [] l.

(** [searchChunksFallback(query, documentId, limit)] *)
Definition searchChunksFallback (env : Collaborators) (vs : VectorService)
    (query : jsstring) (documentId : option jsstring) (limit : nat)
    : M (list search_result) :=
  queryEmbedding <- generateEmbeddings env query 0 ;;
  results <- liftOutcome
               (scoreDocuments queryEmbedding documentId
                  (fallbackStorage vs) []) ;;
  ret (firstn limit (sortByScore results)).

Definition searchFailed : exn := Error (str "Failed to search similar chunks").

(** [searchSimilarChunks(query, documentId, limit)].  In fallback mode the
    promise of [searchChunksFallback] is returned without being awaited,
    so its rejection passes by the [catch]; on the client's path every
    error is replaced. *)
Definition searchSimilarChunks (env : Collaborators) (vs : VectorService)
    (query : jsstring) (documentId : option jsstring) (limit : nat)
    : M (list search_result) :=
  if useFallback vs then searchChunksFallback env vs query documentId limit
  else
    tryCatch
      (queryEmbedding <- generateEmbeddings env query 0 ;;
       if hasClient vs
       then liftOutcome
              (milvusSearch env queryEmbedding
                 (if truthy documentId then documentId else None) limit)
       else throw TypeError)
      (fun _ => throw searchFailed).

Definition deleteFailed : exn :=
  Error (str "Failed to delete document chunks").

(** [deleteDocumentChunks(documentId)]: the service afterwards, or the
    error thrown. *)
Definition deleteDocumentChunks (env : Collaborators) (vs : VectorService)
    (documentId : jsstring) : outcome VectorService :=
  rethrowAs
    (if useFallback vs then
       Ok {| useFallback := useFallback vs;
             hasClient := hasClient vs;
             fallbackStorage := mapDelete (fallbackStorage vs) documentId |}
     else if hasClient vs then
       obind (milvusDelete env documentId) (fun _ => Ok vs)
     else Throw TypeError)
    (fun _ => deleteFailed).

(** [getCollectionStats()] in fallback mode: [totalChunks] and
    [documents]. *)
Definition fallbackStats (vs : VectorService) : nat * nat :=
  (fold_left (fun sum kv => sum + length (snd kv)) (fallbackStorage vs) 0,
   length (fallbackStorage vs)).

(* ===================================================================== *)
(** * vectorService.js: connecting and storing *)
(* ===================================================================== *)

(** The service as its constructor leaves it. *)
Definition initialService : VectorService :=
  {| useFallback := false; hasClient := false; fallbackStorage := [] |}.

(** How far a call of [connect()] gets: the SDK could not be required,
    the client's constructor throws, [client.connect()] rejects, or the
    client connects. *)
Inductive connection : Type :=
| NoSdk | ConstructorThrows | ConnectRejects | Connected.

(** The [try] block of [connect()]: whether [this.client] is set
    afterwards, and how the block ends.  The client object is assigned
    before it connects, so it stays when connecting fails;
    [ensureCollection] catches its own errors. *)
Definition tryConnect (c : connection) (vs : VectorService)
    : bool * outcome unit :=
  match c with
  | NoSdk => (hasClient vs, Throw (Error (str "Milvus SDK not available")))
  | ConstructorThrows => (hasClient vs, Throw (Error (str "constructor")))
  | ConnectRejects => (true, Throw (Error (str "connect")))
  | Connected => (true, Ok tt)
  end.

(** [connect()]: the service afterwards, and its [connected] flag.  The
    handler turns the fallback on and replaces the map by a new, empty
    one. *)
Definition connect (c : connection) (vs : VectorService)
    : VectorService * bool :=
  match snd (tryConnect c vs) with
  | Ok _ =>
      ({| useFallback := useFallback vs;
          hasClient := fst (tryConnect c vs);
          fallbackStorage := fallbackStorage vs |}, true)
  | Throw _ =>
      ({| useFallback := true;
          hasClient := fst (tryConnect c vs);
          fallbackStorage := [] |}, true)
  end.

Definition storeFailed : exn := Error (str "Failed to store document chunks").

(** [storeDocumentChunks(documentId, chunks)]; [insert] is the outcome of
    [client.insert(...)].  The handler stores in the fallback map when
    the fallback is on and replaces the error otherwise. *)
Definition storeDocumentChunks (insert : outcome unit) (vs : VectorService)
    (documentId : jsstring) (cs : list processed_chunk)
    : outcome VectorService :=
  match
    (if useFallback vs || negb (hasClient vs)
     then Ok (storeChunksFallback vs documentId cs)
     else obind insert (fun _ => Ok vs))
  with
  | Ok vs' => Ok vs'
  | Throw _ =>
      if useFallback vs then Ok (storeChunksFallback vs documentId cs)
      else Throw storeFailed
  end.

(** The calls a process makes on the service, each with the outcomes of
    the client calls it leads to. *)
Inductive operation : Type :=
| Connect (c : connection)
| Store (documentId : jsstring) (cs : list processed_chunk)
    (insert : outcome unit)
| Delete (documentId : jsstring).

(** The service after one call; a call that throws leaves it as it
    was. *)
Definition perform (env : Collaborators) (vs : VectorService)
    (op : operation) : VectorService :=
  match op with
  | Connect c => fst (connect c vs)
  | Store d cs insert =>
      match storeDocumentChunks insert vs d cs with
      | Ok vs' => vs'
      | Throw _ => vs
      end
  | Delete d =>
      match deleteDocumentChunks env vs d with
      | Ok vs' => vs'
      | Throw _ => vs
      end
  end.

Definition performAll (env : Collaborators) (vs : VectorService)
    (ops : list operation) : VectorService :=
  fold_left (perform env) ops vs.

(* ===================================================================== *)
(** * aiService.js: splitting a document into word chunks *)
(* ===================================================================== *)

(** [s.replace(/[...]+/g, ' ')]: every maximal run of characters of the
    class [p] becomes one blank. *)
Fixpoint replaceRuns (p : ascii -> bool) (inRun : bool) (s : jsstring)
    : jsstring :=
  match s with
  | [] => []
  | c :: s' =>
      if p c then
        if inRun then replaceRuns p true s'
        else " "%char :: replaceRuns p true s'
      else c :: replaceRuns p false s'
  end.

Definition is_newline (c : ascii) : bool := ascii_eqb c (ascii_of_nat 10).
Definition is_tab (c : ascii) : bool := ascii_eqb c (ascii_of_nat 9).

(** [s.split(sep)] for a one-character separator. *)
Fixpoint splitOn (sep : ascii) (s : jsstring) : list jsstring :=
  match s with
  | [] => [[]]
  | c :: s' =>
      if ascii_eqb c sep then [] :: splitOn sep s'
      else
        match splitOn sep s' with
        | w :: ws => (c :: w) :: ws
        | [] => [[c]]
        end
  end.

(** [cleanedContent]: the three [replace] calls and the [trim]. *)
Definition cleanContent (content : jsstring) : jsstring :=
  trim (replaceRuns is_tab false
          (replaceRuns is_newline false
             (replaceRuns is_space false content))).

(** The [for] loop of [splitDocumentIntoChunks], with [rest] the words
    from index [i] on: [words.slice(i, i + chunkSize).join(' ')] is
    pushed when its trim is not empty.  [fuel] bounds the number of
    iterations; the loop of the source does not end when [chunkSize]
    is 0. *)
Fixpoint wordChunks (fuel chunkSize : nat) (rest : list jsstring)
    : list jsstring :=
  match fuel with
  | 0 => []
  | S fuel' =>
      match rest with
      | [] => []
      | _ :: _ =>
          let chunk := join (str " ") (firstn chunkSize rest) in
          (if 0 <? length (trim chunk) then [chunk] else [])
          ++ wordChunks fuel' chunkSize (skipn chunkSize rest)
      end
  end.

(** [splitDocumentIntoChunks(content, chunkSize)], for a positive
    [chunkSize]: one iteration per [chunkSize] words, so as many
    iterations as there are words are enough. *)
Definition splitDocumentIntoChunks (content : jsstring) (chunkSize : nat)
    : list jsstring :=
  let words := splitOn " "%char (cleanContent content) in
  wordChunks (length words) chunkSize words.

(* ===================================================================== *)
(** * Vocabulary of the specification *)
(* ===================================================================== *)

(** ** Chunk coverage *)

(** The offsets of consecutive chunks do not go backwards. *)
Fixpoint advancing (cs : list chunk) : bool :=
  match cs with
  | a :: (b :: _) as cs' =>
      (chunk_start a <=? chunk_start b) && (chunk_end a <=? chunk_end b)
      && advancing cs'
  | _ => true
  end.

(** The text the chunks stand for according to their offsets: of each
    chunk, what lies past the end of the previous one. *)
Fixpoint dropOverlaps (previousEnd : nat) (cs : list chunk) : jsstring :=
  match cs with
  | [] => []
  | c :: cs' =>
      skipn (previousEnd - chunk_start c) (chunk_content c)
      ++ dropOverlaps (chunk_end c) cs'
  end.

(** The chunks cover [text] exactly. *)
Definition coversExactly (text : jsstring) (cs : list chunk) : Prop :=
  dropOverlaps 0 cs = text /\ advancing cs = true.

(** The buffers behind the chunks.  A buffer is a value [currentChunk]
    had when it was closed, or has at the end of the loop; with it goes
    the length of the overlap text it was seeded with. *)
Definition buffer := (jsstring * nat)%type.

Record buffering : Type := {
  closed : list buffer;
  open_ : jsstring;
  seed : nat
}.

Definition bufferStep (chunkSize overlap : nat) (g : buffering)
    (sentence : jsstring) : buffering :=
  if (chunkSize <? length (open_ g) + length sentence)
     && (0 <? length (open_ g))
  then
    let overlapText := getOverlapText (open_ g) overlap in
    {| closed := closed g ++ [(open_ g, seed g)];
       open_ := overlapText ++ sentence;
       seed := length overlapText |}
  else
    {| closed := closed g; open_ := open_ g ++ sentence; seed := seed g |}.

Definition bufferInit : buffering :=
  {| closed := []; open_ := []; seed := 0 |}.

Definition chunkBuffers (env : Collaborators) (text : jsstring)
    (chunkSize overlap : nat) : list buffer :=
  let g := fold_left (bufferStep chunkSize overlap) (tokenize env text)
             bufferInit in
  closed g ++ [(open_ g, seed g)].

(** The buffers that become chunks: all but a blank last one. *)
Definition emitted (bs : list buffer) : list buffer :=
  match rev bs with
  | [] => []
  | lastBuffer :: _ =>
      if 0 <? length (trim (fst lastBuffer)) then bs else removelast bs
  end.

(** Every buffer after the first starts with the overlap text of the
    buffer before it, and its seed is the length of that text. *)
Fixpoint seeded (overlap : nat) (previous : option jsstring)
    (bs : list buffer) : Prop :=
  match bs with
  | [] => True
  | b :: bs' =>
      match previous with
      | None => snd b = 0
      | Some p =>
          firstn (snd b) (fst b) = getOverlapText p overlap
          /\ snd b = length (getOverlapText p overlap)
      end
      /\ seeded overlap (Some (fst b)) bs'
  end.

(** A buffer without its seed. *)
Definition unseeded (b : buffer) : jsstring := skipn (snd b) (fst b).

(** A chunk whose recorded span has its recorded length: the end lies
    [length] after the start, so that [end - start = length] without any
    truncation of the difference. *)
Definition spanOk (c : chunk) : Prop :=
  chunk_end c = chunk_start c + chunk_length c.

(** The chunker and the buffers run in step. *)
Record inStep (st : chunker) (g : buffering) : Prop := {
  step_open : currentChunk st = open_ g;
  step_content : map chunk_content (chunks st)
                 = map (fun b => trim (fst b)) (closed g);
  step_length : map chunk_length (chunks st)
                = map (fun b => length (fst b)) (closed g)
}.

(** What the buffers hold: the sentences read so far, in order. *)
Definition holds (g : buffering) (read : list jsstring) : Prop :=
  concat (map unseeded (closed g)) ++ skipn (seed g) (open_ g)
  = concat read
  /\ seed g <= length (open_ g).

(** The seeds are the overlap texts. *)
Definition seededState (overlap : nat) (g : buffering) : Prop :=
  seeded overlap None (closed g ++ [(open_ g, seed g)]).

(** ** Key rotation *)

(** The answer the next [embedContent] request gets in world [w]. *)
Definition nextEmbedAnswer (env : Collaborators) (text : jsstring)
    (w : World) : http (option vector) :=
  postEmbedContent env (tick w) (getCurrentApiKey w) text.

(** The answer carries a vector. *)
Definition embedded {A} (r : http (option A)) : bool :=
  match r with
  | Response (Some _) => true
  | _ => false
  end.

(** The answer is the rate-limit signal. *)
Definition is429 {A} (r : http A) : bool :=
  match r with
  | Rejected (Some 429) => true
  | _ => false
  end.

(** The key indices of the requests made between two worlds. *)
Definition keysTried (w w' : World) : list nat :=
  map snd (skipn (length (requests w)) (requests w')).

(** The keys [k] consecutive attempts go through, starting from the
    current one and wrapping around. *)
Definition rotation (w : World) (k : nat) : list nat :=
  map (fun j => (currentKeyIndex w + j) mod length (geminiApiKeys w))
      (seq 0 k).

(** The behaviour of [generateEmbeddings] under rate limiting, in world
    [w]: a 429 on an attempt that is not the last one allowed moves the
    pointer one key on, wrapping, and the call goes on as a call with
    one more retry; a failure that is not a 429 ends the call after this
    one request, the pointer unmoved; and a whole call tries at most as
    many keys as there are, no key twice.  The last part is the work of
    the test [retryCount < keys.length - 1] alone: however deep the
    calls may nest, a call entered with [retryCount] tries at most
    [keys.length - retryCount] keys (one, when that is less), no key
    twice. *)
Definition rotatesKeys (env : Collaborators) (text : jsstring) (w : World)
    : Prop :=
  (forall retryCount,
     is429 (nextEmbedAnswer env text w) = true ->
     retryCount < length (geminiApiKeys w) - 1 ->
     generateEmbeddings env text retryCount w
     = generateEmbeddings env text (retryCount + 1)
         (switchToNextKey (sent EmbedContent w))
     /\ currentKeyIndex (switchToNextKey (sent EmbedContent w))
        = (currentKeyIndex w + 1) mod length (geminiApiKeys w))
  /\ (forall retryCount,
        embedded (nextEmbedAnswer env text w) = false ->
        is429 (nextEmbedAnswer env text w) = false ->
        generateEmbeddings env text retryCount w
        = (Throw embeddingsFailed, sent EmbedContent w))
  /\ (exists k,
        1 <= k <= length (geminiApiKeys w)
        /\ keysTried w (snd (generateEmbeddings env text 0 w)) = rotation w k
        /\ NoDup (rotation w k))
  /\ (forall depth retryCount,
        exists k,
          1 <= k <= Nat.max 1 (length (geminiApiKeys w) - retryCount)
          /\ keysTried w
               (snd (generateEmbeddingsFrom (S depth) env text retryCount w))
             = rotation w k
          /\ NoDup (rotation w k)).

(** No [embedContent] request is ever answered with a vector. *)
Definition providerDown (env : Collaborators) : Prop :=
  forall t key text, embedded (postEmbedContent env t key text) = false.

(** A computation that returns in every world. *)
Definition returns {A} (m : M A) : Prop :=
  forall w, exists a w', m w = (Ok a, w').

(** ** Degraded processing *)

(** The analysis of a chunk without the provider: no vector, and the
    free keyword and summary methods. *)
Definition freeLocals (env : Collaborators) (c : chunk)
    : option vector * list keyword * jsstring :=
  (None,
   extractKeywords env (chunk_content c) defaultMaxKeywords,
   generateSummary env (chunk_content c) defaultMaxSentences).

(** The processed chunks of a run without the provider, for the chunks
    [cs] numbered from [i]. *)
Fixpoint degradedChunks (env : Collaborators) (i : nat) (cs : list chunk)
    : list processed_chunk :=
  match cs with
  | [] => []
  | c :: cs' =>
      processedChunkOf i c (freeLocals env c) :: degradedChunks env (S i) cs'
  end.

(** A processed chunk without a vector, flagged as such. *)
Definition degraded (c : processed_chunk) : Prop :=
  embedding c = None /\ processingMethod (metadata c) = Free.

(** ** Search *)

(** The scores do not go up along the list. *)
Fixpoint nonIncreasing (l : list search_result) : bool :=
  match l with
  | a :: (b :: _) as l' => (score b <=? score a)%float && nonIncreasing l'
  | _ => true
  end.

(** Every record sits under the id it carries, as
    [storeChunksFallback] stores it. *)
Definition filedById (m : storage) : Prop :=
  Forall (fun kv => Forall (fun c => document_id c = fst kv) (snd kv)) m.

(** All the records the map holds for [documentId]. *)
Definition recordsFor (m : storage) (documentId : jsstring)
    : list stored_chunk :=
  concat (map snd (filter (fun kv => jsstring_eqb (fst kv) documentId) m)).

(** What a search gives once the store holds nothing for the id it is
    restricted to: no hit when the query can be embedded, the embedding
    error otherwise. *)
Definition noHits (env : Collaborators) (query : jsstring) : M (list search_result) :=
  fun w =>
    match generateEmbeddings env query 0 w with
    | (Ok _, w') => (Ok [], w')
    | (Throw e, w') => (Throw e, w')
    end.

(** The two halves of the deletion property as the specification words
    them, at one store and id: after the delete no search restricted to
    the id returns a hit; and the delete changes nothing when no record
    is held for the id. *)
Definition searchEmptyAfterDelete (env : Collaborators) (vs : VectorService)
    (documentId : jsstring) : Prop :=
  forall vs' query limit w hits w',
    deleteDocumentChunks env vs documentId = Ok vs' ->
    searchSimilarChunks env vs' query (Some documentId) limit w
    = (Ok hits, w') ->
    hits = [].

Definition deleteIsNoOp (env : Collaborators) (vs : VectorService)
    (documentId : jsstring) : Prop :=
  recordsFor (fallbackStorage vs) documentId = [] ->
  deleteDocumentChunks env vs documentId = Ok vs.

(** ** Readability *)

(** The seven bands of the Flesch score, by their thresholds. *)
Definition inBand (x : float) (l : readability_level) : bool :=
  match l with
  | VeryEasy => geq x 90%float
  | Easy => geq x 80%float && negb (geq x 90%float)
  | FairlyEasy => geq x 70%float && negb (geq x 80%float)
  | Standard => geq x 60%float && negb (geq x 70%float)
  | FairlyDifficult => geq x 50%float && negb (geq x 60%float)
  | Difficult => geq x 30%float && negb (geq x 50%float)
  | VeryDifficult => negb (geq x 30%float)
  end.

(** The Flesch value of a text: the formula on its words per sentence
    and syllables per word. *)
Definition fleschOf (env : Collaborators) (text : jsstring) : float :=
  fleschScoreOf
    (float_of_nat (length (wordsOf text))
     / float_of_nat (length (tokenize env text)))%float
    (float_of_nat (syllablesOf (wordsOf text))
     / float_of_nat (length (wordsOf text)))%float.

(** The returned score is the Flesch value and the returned level is the
    band of the returned score. *)
Definition scoreAndBandAgree (env : Collaborators) (text : jsstring) : Prop :=
  readability_score (calculateReadability env text) = fleschOf env text
  /\ inBand (readability_score (calculateReadability env text))
            (level (calculateReadability env text)) = true.

(** ** Sample inputs *)

(** A process in which the tokenizer answers [sentences] and a text file
    reads as [fileText], with the embedding and text endpoints answering
    as given and every other service failing. *)
Definition sampleEnv (sentences : list jsstring) (fileText : outcome jsstring)
    (embed : nat -> option jsstring -> jsstring -> http (option vector))
    (generate : nat -> option jsstring -> jsstring -> http candidates)
    : Collaborators :=
  {| tokenize := fun _ => sentences;
     pdfText := fun _ => Throw (Error (str "ENOENT"));
     readFileUtf8 := fun _ => fileText;
     docxText := fun _ => Throw (Error (str "ENOENT"));
     sharpToFile := fun _ _ => Throw (Error (str "ENOENT"));
     recognize := fun _ => Throw (Error (str "ENOENT"));
     keywordCounts := fun _ _ => Ok [];
     parseKeywordArray := fun _ => None;
     postEmbedContent := embed;
     postGenerateContent := generate;
     isoTime := fun _ => str "2025-01-01T00:00:00.000Z";
     milvusSearch := fun _ _ _ => Throw (Error (str "unreachable"));
     milvusDelete := fun _ => Throw (Error (str "unreachable")) |}.

(** Every request is answered with HTTP 429. *)
Definition alwaysRateLimited {A} : nat -> option jsstring -> jsstring -> http A :=
  fun _ _ _ => Rejected (Some 429).

(** A process with the given tokenizer answer and no service reachable. *)
Definition offlineEnv (sentences : list jsstring) : Collaborators :=
  sampleEnv sentences (Throw (Error (str "ENOENT")))
    alwaysRateLimited alwaysRateLimited.

Definition catText : jsstring := str "The cat sat on the mat. It ran.".

Definition catSentences : list jsstring :=
  [str "The cat sat on the mat."; str "It ran."].

(** One sentence of thirty-two words of one syllable each. *)
Definition plainText : jsstring :=
  str "the cat and the dog sat on the mat and the rat ran to the hut but the cat did not run as it was too hot for the cat to nap.".

(** Two keys, the first one current, nothing sent yet. *)
Definition twoKeys : World :=
  {| geminiApiKeys := [str "key-1"; str "key-2"];
     currentKeyIndex := 0;
     tick := 0;
     requests := [] |}.

(** A provider that embeds every text as the vector (1, 0). *)
Definition unitEmbedding : nat -> option jsstring -> jsstring -> http (option vector) :=
  fun _ _ _ => Response (Some [1%float; 0%float]).

Definition sampleMetadata : chunk_metadata :=
  {| chunkIndex := 0; start := 0; end_ := 4; length_ := 4; sentences := 1;
     processingMethod := Gemini |}.

(** A fallback store with one document of two records, the first of
    which has an all-zero vector. *)
Definition zeroVectorStore : VectorService :=
  storeChunksFallback
    {| useFallback := true; hasClient := false; fallbackStorage := [] |}
    (str "doc-1")
    [ {| content := str "zero"; embedding := Some [0%float; 0%float];
         keywords := []; summary := []; metadata := sampleMetadata |};
      {| content := str "unit"; embedding := Some [1%float; 0%float];
         keywords := []; summary := []; metadata := sampleMetadata |} ].

(** A processed chunk with the vector (1, 0). *)
Definition unitChunk : processed_chunk :=
  {| content := str "more"; embedding := Some [1%float; 0%float];
     keywords := []; summary := []; metadata := sampleMetadata |}.

(** The sample store after a call of [storeChunksFallback] with no
    chunk for a second document: the map has an entry for it, holding no
    record. *)
Definition emptyEntryStore : VectorService :=
  storeChunksFallback zeroVectorStore (str "doc-2") [].

(** A process whose embedding requests are all answered with the vector
    (1, 0). *)
Definition answeringEnv : Collaborators :=
  sampleEnv [] (Throw TypeError) unitEmbedding alwaysRateLimited.

(** A provider that answers the first request with HTTP 429 and every
    later one with the vector (1, 0). *)
Definition limitedOnce : nat -> option jsstring -> jsstring -> http (option vector) :=
  fun t _ _ =>
    if t =? 0 then Rejected (Some 429)
    else Response (Some [1%float; 0%float]).

(** A process that reads the file as [catText] and reaches no provider. *)
Definition catEnv : Collaborators :=
  sampleEnv catSentences (Ok catText) alwaysRateLimited alwaysRateLimited.

(** ** Further vocabulary *)

(** The labels [extractSubject] can return. *)
Definition subjectLabels : list jsstring :=
  map str ["General"; "Mathematics"; "Science"; "History"; "Literature";
           "Technology"; "Business"]%string.

(** No keyword of the subject table occurs in the text. *)
Definition noSubjectKeyword (text : jsstring) : Prop :=
  forall entry kw,
    In entry subjectKeywords -> In kw (snd entry) ->
    includes kw (toLowerCase text) = false.

(** What every chunk records: a span that starts at 0. *)
Definition fromZero (c : chunk) : Prop :=
  chunk_start c = 0 /\ chunk_end c = chunk_length c
  /\ length (chunk_content c) <= chunk_length c.

(** The chunks closed so far, plus one for a non-empty buffer. *)
Definition pending (st : chunker) : nat :=
  length (chunks st) + (if 0 <? length (currentChunk st) then 1 else 0).

(** The most requests one call of [generateEmbeddings] or
    [generateText] makes: one per key, and one when there is no key. *)
Definition callBudget (w : World) : nat := S (length (geminiApiKeys w) - 1).

(** A computation that leaves the list of keys alone, keeps the key
    pointer within the list, and sends no more requests than [calls]
    provider calls may. *)
Definition spends {A} (calls : nat) (m : M A) : Prop :=
  forall w,
    geminiApiKeys (snd (m w)) = geminiApiKeys w
    /\ length (requests (snd (m w)))
       <= length (requests w) + calls * callBudget w
    /\ (currentKeyIndex w < length (geminiApiKeys w) ->
        currentKeyIndex (snd (m w)) < length (geminiApiKeys w)).

(** Every [embedContent] request is answered with HTTP 429. *)
Definition alwaysLimited (env : Collaborators) : Prop :=
  forall t key text, is429 (postEmbedContent env t key text) = true.

(** Every [embedContent] request is answered with a vector. *)
Definition providerUp (env : Collaborators) : Prop :=
  forall t key text, embedded (postEmbedContent env t key text) = true.

(** The answer carries a text. *)
Definition answered (r : http candidates) : bool :=
  match r with
  | Response (FirstPart (Some _)) => true
  | _ => false
  end.

(** No [generateContent] request is ever answered with a text. *)
Definition textless (env : Collaborators) : Prop :=
  forall t key prompt, answered (postGenerateContent env t key prompt) = false.

(** The processed chunks built from the chunks [cs], numbered from [i],
    and the results [ls] of their analyses. *)
Fixpoint processedFrom (i : nat) (cs : list chunk)
    (ls : list (option vector * list keyword * jsstring))
    : list processed_chunk :=
  match cs, ls with
  | c :: cs', l :: ls' => processedChunkOf i c l :: processedFrom (S i) cs' ls'
  | _, _ => []
  end.

(** The method label of a processed chunk says whether it has a
    vector. *)
Definition labelled (c : processed_chunk) : Prop :=
  processingMethod (metadata c)
  = match embedding c with Some _ => Gemini | None => Free end.

(** The number of chunks of the file's text, 0 when it cannot be
    extracted. *)
Definition chunkCountOf (env : Collaborators) (filePath fileType : jsstring)
    : nat :=
  match extractText env filePath fileType with
  | Ok text => length (chunkText env text defaultChunkSize defaultOverlap)
  | Throw _ => 0
  end.

(** The local variables [embedding], [keywords] and [summary] of the
    loop body of [processDocument]. *)
Definition locals := (option vector * list keyword * jsstring)%type.

(** The records held for a document id: those of its entry, none when
    it has no entry. *)
Definition recordsOf (m : storage) (documentId : jsstring)
    : list stored_chunk :=
  match mapGet m documentId with
  | Some l => l
  | None => []
  end.

(** The hits of the records [cs] for the query vector [q], in order. *)
Definition hitsOf (q : vector) (cs : list stored_chunk) : list search_result :=
  map (fun c =>
         hitOf c (cosineSimilarity q
                    (match stored_embedding c with
                     | Some v => v
                     | None => []
                     end)))
      cs.

(** A well-formed fallback map: one entry per id, every record under the
    id it carries. *)
Definition wellFormed (m : storage) : Prop :=
  NoDup (map fst m) /\ filedById m.

(** A string whose white space is blanks only. *)
Definition plain (s : jsstring) : Prop :=
  Forall (fun c => is_space c = true -> c = " "%char) s.

(** No two blanks in a row. *)
Fixpoint noDouble (s : jsstring) : Prop :=
  match s with
  | a :: (b :: _) as s' =>
      ~ (a = " "%char /\ b = " "%char) /\ noDouble s'
  | _ => True
  end.

(** The string does not end with a blank. *)
Fixpoint endsSolid (s : jsstring) : Prop :=
  match s with
  | [] => True
  | [c] => c <> " "%char
  | _ :: s' => endsSolid s'
  end.

(** The string does not start with a blank. *)
Definition startsSolid (s : jsstring) : Prop :=
  match s with
  | [] => True
  | c :: _ => c <> " "%char
  end.

(** A word: not empty and without white space. *)
Definition solid (w : jsstring) : Prop :=
  w <> [] /\ Forall (fun c => is_space c = false) w.

(** The pieces of [chunk] between blanks are words, and there are at
    least one and at most [n] of them. *)
Definition wordsWithin (n : nat) (chunk : jsstring) : Prop :=
  Forall solid (splitOn " "%char chunk)
  /\ 1 <= length (splitOn " "%char chunk) <= n.

(* ===================================================================== *)
(** * Properties *)
(* ===================================================================== *)

Section Chunker.

Variables (chunkSize overlap : nat).

Let step := chunkStep chunkSize overlap.
Let bstep := bufferStep chunkSize overlap.

Lemma closeChunk_span cur s : spanOk (closeChunk cur s).
Proof. unfold spanOk, closeChunk; simpl. lia. Qed.

Lemma chunkStep_span st sentence :
  Forall spanOk (chunks st) -> Forall spanOk (chunks (step st sentence)).
Proof.
  intros H. unfold step, chunkStep.
  destruct (_ && _); simpl; auto.
  apply Forall_app. split; auto.
  constructor; auto using closeChunk_span.
Qed.

Lemma chunkLoop_span sentences : forall st,
  Forall spanOk (chunks st) ->
  Forall spanOk (chunks (chunkLoop chunkSize overlap sentences st)).
Proof.
  induction sentences as [|s ss IH]; intros st H; simpl; auto.
  apply IH. now apply chunkStep_span.
Qed.

Lemma chunkFinish_span st :
  Forall spanOk (chunks st) -> Forall spanOk (chunkFinish st).
Proof.
  intros H. unfold chunkFinish. destruct (_ <? _); auto.
  apply Forall_app. split; auto.
  constructor; auto using closeChunk_span.
Qed.

Lemma inStep_step st g sentence :
  inStep st g -> inStep (step st sentence) (bstep g sentence).
Proof.
  intros [Ho Hc Hl]. unfold step, bstep, chunkStep, bufferStep.
  rewrite Ho. destruct (_ && _); constructor; simpl; auto.
  - rewrite !map_app, Hc. reflexivity.
  - rewrite !map_app, Hl. reflexivity.
Qed.

Lemma inStep_loop sentences : forall st g,
  inStep st g ->
  inStep (fold_left step sentences st) (fold_left bstep sentences g).
Proof.
  induction sentences as [|s ss IH]; intros st g H; simpl; auto.
  apply IH. now apply inStep_step.
Qed.

Lemma holds_step g read sentence :
  holds g read -> holds (bstep g sentence) (read ++ [sentence]).
Proof.
  intros [Hc Hs]. unfold bstep, bufferStep, holds.
  rewrite concat_app; simpl. rewrite app_nil_r, <- Hc.
  destruct (_ && _); simpl.
  - rewrite map_app, concat_app; simpl. rewrite app_nil_r.
    unfold unseeded at 2; simpl.
    rewrite skipn_app, skipn_all, Nat.sub_diag; simpl.
    split; [reflexivity | rewrite length_app; lia].
  - rewrite skipn_app.
    replace (seed g - length (open_ g)) with 0 by lia. simpl.
    rewrite app_assoc.
    split; [reflexivity | rewrite length_app; lia].
Qed.

Lemma holds_loop sentences : forall g read,
  holds g read ->
  holds (fold_left bstep sentences g) (read ++ sentences).
Proof.
  induction sentences as [|s ss IH]; intros g read H; simpl.
  - now rewrite app_nil_r.
  - replace (read ++ s :: ss) with ((read ++ [s]) ++ ss)
      by (rewrite <- app_assoc; reflexivity).
    apply IH. now apply holds_step.
Qed.

Lemma seeded_snoc previous bs b b' :
  seeded overlap previous (bs ++ [b]) ->
  firstn (snd b') (fst b') = getOverlapText (fst b) overlap ->
  snd b' = length (getOverlapText (fst b) overlap) ->
  seeded overlap previous ((bs ++ [b]) ++ [b']).
Proof.
  revert previous. induction bs as [|x bs IH]; intros previous H H1 H2.
  - simpl in *. destruct H as [Hp _]. repeat split; auto.
  - simpl in *. destruct H as [Hp Hr]. split; auto.
Qed.

Lemma seeded_last previous bs b open' :
  seeded overlap previous (bs ++ [b]) ->
  firstn (snd b) open' = firstn (snd b) (fst b) ->
  seeded overlap previous (bs ++ [(open', snd b)]).
Proof.
  revert previous. induction bs as [|x bs IH]; intros previous H H1.
  - simpl in *. destruct H as [Hp _]. split; auto.
    destruct previous; auto. now rewrite H1.
  - simpl in *. destruct H as [Hp Hr]. split; auto.
Qed.

Lemma seededState_step g sentence :
  seed g <= length (open_ g) ->
  seededState overlap g -> seededState overlap (bstep g sentence).
Proof.
  intros Hs H. unfold seededState, bstep, bufferStep in *.
  destruct (_ && _); simpl.
  - apply seeded_snoc; simpl; auto.
    rewrite firstn_app, Nat.sub_diag, firstn_all; simpl.
    now rewrite app_nil_r.
  - apply (seeded_last _ _ (open_ g, seed g)); simpl; auto.
    rewrite firstn_app.
    replace (seed g - length (open_ g)) with 0 by lia.
    simpl. now rewrite app_nil_r.
Qed.

Lemma seededState_loop sentences : forall g read,
  holds g read -> seededState overlap g ->
  seededState overlap (fold_left bstep sentences g).
Proof.
  induction sentences as [|s ss IH]; intros g read H Hs; simpl; auto.
  apply (IH _ (read ++ [s])).
  - now apply holds_step.
  - apply seededState_step; auto. apply H.
Qed.

End Chunker.

(** C10.  For every text and every chunk that [chunkText] returns,
    [end - start = length]: the end is the start plus the length, so the
    start does not lie after the end and the difference is the length. *)
Theorem chunkText_span env text chunkSize overlap :
  Forall (fun c => chunk_end c = chunk_start c + chunk_length c
                   /\ chunk_start c <= chunk_end c
                   /\ chunk_end c - chunk_start c = chunk_length c)
         (chunkText env text chunkSize overlap).
Proof.
  assert (H : Forall spanOk (chunkText env text chunkSize overlap)).
  { unfold chunkText.
    apply chunkFinish_span, chunkLoop_span. constructor. }
  eapply Forall_impl; [|exact H].
  unfold spanOk. intros c Hc. lia.
Qed.

Lemma emitted_snoc (bs : list buffer) (b : buffer) :
  emitted (bs ++ [b])
  = if 0 <? length (trim (fst b)) then bs ++ [b] else bs.
Proof.
  unfold emitted. rewrite rev_app_distr; simpl.
  now rewrite removelast_last.
Qed.

(** C2, as the code has it.  The chunks are the buffers trimmed, a blank
    last buffer left out; every buffer after the first begins with the
    overlap text of the one before it; and the buffers without these
    seeds, in order, make up the tokenizer's sentences joined end to end. *)
Theorem chunkText_buffers env text chunkSize overlap :
  concat (map unseeded (chunkBuffers env text chunkSize overlap))
  = concat (tokenize env text)
  /\ seeded overlap None (chunkBuffers env text chunkSize overlap)
  /\ map chunk_content (chunkText env text chunkSize overlap)
     = map (fun b => trim (fst b))
           (emitted (chunkBuffers env text chunkSize overlap))
  /\ map chunk_length (chunkText env text chunkSize overlap)
     = map (fun b => length (fst b))
           (emitted (chunkBuffers env text chunkSize overlap)).
Proof.
  unfold chunkText, chunkBuffers, chunkLoop.
  set (ss := tokenize env text).
  assert (Hh : holds bufferInit []) by (split; simpl; auto).
  assert (Hs : seededState overlap bufferInit) by (split; simpl; auto).
  assert (Hi : inStep chunkInit bufferInit) by (constructor; reflexivity).
  pose proof (holds_loop chunkSize overlap ss Hh) as [Hc Hle].
  pose proof (seededState_loop chunkSize overlap ss Hh Hs) as Hsd.
  pose proof (inStep_loop chunkSize overlap ss Hi) as [Ho Hct Hlen].
  set (g := fold_left (bufferStep chunkSize overlap) ss bufferInit) in *.
  set (st := fold_left (chunkStep chunkSize overlap) ss chunkInit) in *.
  simpl in Hc. repeat split.
  - rewrite map_app, concat_app; simpl. now rewrite app_nil_r.
  - exact Hsd.
  - rewrite emitted_snoc. unfold chunkFinish. rewrite Ho.
    cbn [fst]. destruct (0 <? length (trim (open_ g))); auto.
    rewrite !map_app, Hct. reflexivity.
  - rewrite emitted_snoc. unfold chunkFinish. rewrite Ho.
    cbn [fst]. destruct (0 <? length (trim (open_ g))); auto.
    rewrite !map_app, Hlen. reflexivity.
Qed.

(** C2, as stated, fails: for the text "The cat sat on the mat. It ran.",
    tokenized into its two sentences, with [chunkSize = 25] and
    [overlap = 5], the two chunks are recorded at offsets 0-23 and 0-12,
    which neither advance nor cover the text, and the second chunk's
    content has lost the blank its buffer " mat.It ran." began with. *)
Lemma chunkText_not_covering :
  chunkText (offlineEnv catSentences) catText 25 5
  = [ {| chunk_content := str "The cat sat on the mat.";
         chunk_start := 0; chunk_end := 23; chunk_length := 23;
         chunk_sentences := 1 |};
      {| chunk_content := str "mat.It ran.";
         chunk_start := 0; chunk_end := 12; chunk_length := 12;
         chunk_sentences := 2 |} ]
  /\ ~ coversExactly catText
        (chunkText (offlineEnv catSentences) catText 25 5)
  /\ advancing (chunkText (offlineEnv catSentences) catText 25 5) = false.
Proof.
  split; [vm_compute; reflexivity | split].
  - intros [H _]. vm_compute in H. discriminate H.
  - vm_compute. reflexivity.
Qed.

(* --------------------------------------------------------------------- *)
(** ** Key rotation in [generateEmbeddings] *)

Section Rotation.

Variable env : Collaborators.
Variable text : jsstring.

Lemma keys_sent ep w : geminiApiKeys (sent ep w) = geminiApiKeys w.
Proof. reflexivity. Qed.

Lemma keys_switch w : geminiApiKeys (switchToNextKey w) = geminiApiKeys w.
Proof. reflexivity. Qed.

(** One unfolding of the retry loop. *)
Lemma generateEmbeddingsFrom_step fuel retryCount w :
  generateEmbeddingsFrom (S fuel) env text retryCount w
  = match nextEmbedAnswer env text w with
    | Response (Some values) => (Ok values, sent EmbedContent w)
    | r =>
        if is429 r && moreKeys w retryCount
        then generateEmbeddingsFrom fuel env text (retryCount + 1)
               (switchToNextKey (sent EmbedContent w))
        else (Throw embeddingsFailed, sent EmbedContent w)
    end.
Proof.
  unfold nextEmbedAnswer. cbn [generateEmbeddingsFrom].
  unfold tryCatch, bind, axiosPostEmbed, fromHttp.
  destruct (postEmbedContent env (tick w) (getCurrentApiKey w) text)
    as [[values|]|status]; reflexivity.
Qed.

(** The fuel [generateEmbeddings] starts with is enough: more makes no
    difference. *)
Lemma generateEmbeddings_fuel fuel : forall retryCount w,
  length (geminiApiKeys w) - 1 - retryCount < fuel ->
  generateEmbeddingsFrom fuel env text retryCount w
  = generateEmbeddings env text retryCount w.
Proof.
  unfold generateEmbeddings.
  induction fuel as [|fuel IH]; intros retryCount w Hf; [lia|].
  rewrite !generateEmbeddingsFrom_step.
  destruct (nextEmbedAnswer env text w) as [[values|]|status];
    try reflexivity.
  destruct (is429 (Rejected status) && moreKeys w retryCount) eqn:E;
    [|reflexivity].
  apply andb_true_iff in E as [_ E]. unfold moreKeys in E.
  apply Nat.ltb_lt in E.
  rewrite IH by (rewrite keys_switch, keys_sent; lia).
  rewrite keys_switch, keys_sent.
  replace (length (geminiApiKeys w) - 1 - retryCount)
    with (S (length (geminiApiKeys w) - 1 - (retryCount + 1))) by lia.
  reflexivity.
Qed.

End Rotation.

Section RotationFacts.

Variable env : Collaborators.
Variable text : jsstring.

Lemma generateEmbeddings_retry retryCount w :
  is429 (nextEmbedAnswer env text w) = true ->
  retryCount < length (geminiApiKeys w) - 1 ->
  generateEmbeddings env text retryCount w
  = generateEmbeddings env text (retryCount + 1)
      (switchToNextKey (sent EmbedContent w)).
Proof.
  intros H429 Hr. unfold generateEmbeddings at 1.
  rewrite generateEmbeddingsFrom_step.
  destruct (nextEmbedAnswer env text w) as [d|status]; [discriminate|].
  rewrite H429. unfold moreKeys.
  apply Nat.ltb_lt in Hr. rewrite Hr. cbn [andb].
  apply generateEmbeddings_fuel.
  apply Nat.ltb_lt in Hr. rewrite keys_switch, keys_sent. lia.
Qed.

Lemma generateEmbeddings_no_retry retryCount w :
  embedded (nextEmbedAnswer env text w) = false ->
  is429 (nextEmbedAnswer env text w) = false ->
  generateEmbeddings env text retryCount w
  = (Throw embeddingsFailed, sent EmbedContent w).
Proof.
  intros He H429. unfold generateEmbeddings.
  rewrite generateEmbeddingsFrom_step.
  destruct (nextEmbedAnswer env text w) as [[values|]|status];
    [discriminate | reflexivity | now rewrite H429].
Qed.

Lemma rotation_succ w k :
  currentKeyIndex w < length (geminiApiKeys w) ->
  rotation w (S k)
  = currentKeyIndex w
    :: rotation (switchToNextKey (sent EmbedContent w)) k.
Proof.
  intros Hi. unfold rotation. cbn [seq map].
  rewrite Nat.add_0_r, Nat.mod_small by assumption. f_equal.
  rewrite <- seq_shift, map_map. apply map_ext. intros j.
  cbn [switchToNextKey sent currentKeyIndex geminiApiKeys].
  rewrite Nat.Div0.add_mod_idemp_l. f_equal. lia.
Qed.

(** The requests a call makes go through the keys in rotation. *)
Lemma generateEmbeddingsFrom_requests fuel : forall retryCount w,
  currentKeyIndex w < length (geminiApiKeys w) ->
  exists k,
    1 <= k <= S fuel
    /\ requests (snd (generateEmbeddingsFrom (S fuel) env text retryCount w))
       = requests w ++ map (pair EmbedContent) (rotation w k).
Proof.
  induction fuel as [|fuel IH]; intros retryCount w Hi.
  - exists 1. split; [lia|].
    rewrite generateEmbeddingsFrom_step, rotation_succ by assumption.
    destruct (nextEmbedAnswer env text w) as [[values|]|status];
      try reflexivity.
    destruct (is429 (Rejected status) && moreKeys w retryCount);
      reflexivity.
  - rewrite generateEmbeddingsFrom_step.
    assert (H1 : exists k, 1 <= k <= S (S fuel) /\
              requests (sent EmbedContent w)
              = requests w ++ map (pair EmbedContent) (rotation w k)).
    { exists 1. split; [lia|]. now rewrite rotation_succ. }
    destruct (nextEmbedAnswer env text w) as [[values|]|status];
      try exact H1.
    destruct (is429 (Rejected status) && moreKeys w retryCount);
      [|exact H1].
    set (w2 := switchToNextKey (sent EmbedContent w)).
    assert (Hi2 : currentKeyIndex w2 < length (geminiApiKeys w2)).
    { unfold w2. rewrite keys_switch, keys_sent.
      cbn [switchToNextKey sent currentKeyIndex geminiApiKeys].
      apply Nat.mod_upper_bound. lia. }
    destruct (IH (retryCount + 1) w2 Hi2) as (k & Hk & Hreq).
    exists (S k). split; [lia|].
    rewrite Hreq, rotation_succ by assumption.
    unfold w2 at 1. cbn [switchToNextKey sent requests map].
    rewrite <- app_assoc. reflexivity.
Qed.

(** The requests of a call, whatever depth of nesting is allowed: the
    test [retryCount < keys.length - 1] bounds their number. *)
Lemma generateEmbeddingsFrom_guarded fuel : forall retryCount w,
  currentKeyIndex w < length (geminiApiKeys w) ->
  exists k,
    k <= Nat.max 1 (length (geminiApiKeys w) - retryCount)
    /\ (0 < fuel -> 1 <= k)
    /\ requests (snd (generateEmbeddingsFrom fuel env text retryCount w))
       = requests w ++ map (pair EmbedContent) (rotation w k).
Proof.
  induction fuel as [|fuel IH]; intros retryCount w Hi.
  - exists 0. split; [lia|]. split; [lia|].
    cbn. now rewrite app_nil_r.
  - rewrite generateEmbeddingsFrom_step.
    assert (H1 : exists k,
              k <= Nat.max 1 (length (geminiApiKeys w) - retryCount)
              /\ (0 < S fuel -> 1 <= k)
              /\ requests (sent EmbedContent w)
                 = requests w ++ map (pair EmbedContent) (rotation w k)).
    { exists 1. split; [lia|]. split; [lia|]. now rewrite rotation_succ. }
    destruct (nextEmbedAnswer env text w) as [[values|]|status];
      try exact H1.
    destruct (is429 (Rejected status) && moreKeys w retryCount) eqn:E;
      [|exact H1].
    apply andb_true_iff in E as [_ E]. unfold moreKeys in E.
    apply Nat.ltb_lt in E.
    set (w2 := switchToNextKey (sent EmbedContent w)).
    assert (Hi2 : currentKeyIndex w2 < length (geminiApiKeys w2)).
    { unfold w2. rewrite keys_switch, keys_sent.
      cbn [switchToNextKey sent currentKeyIndex geminiApiKeys].
      apply Nat.mod_upper_bound. lia. }
    destruct (IH (retryCount + 1) w2 Hi2) as (k & Hk & _ & Hreq).
    assert (Hn : length (geminiApiKeys w2) = length (geminiApiKeys w))
      by (unfold w2; now rewrite keys_switch, keys_sent).
    rewrite Hn in Hk.
    exists (S k). split; [lia|]. split; [lia|].
    rewrite Hreq, rotation_succ by assumption.
    unfold w2 at 1. cbn [switchToNextKey sent requests map].
    rewrite <- app_assoc. reflexivity.
Qed.

Lemma mod_shift_inj n a i j :
  i < n -> j < n -> (a + i) mod n = (a + j) mod n -> i = j.
Proof.
  intros Hi Hj H.
  pose proof (Nat.div_mod_eq (a + i) n) as Ei.
  pose proof (Nat.div_mod_eq (a + j) n) as Ej.
  rewrite H in Ei.
  assert (Hq : (a + i) / n = (a + j) / n) by nia.
  rewrite Hq in Ei. lia.
Qed.

Lemma rotation_NoDup w k :
  k <= length (geminiApiKeys w) -> NoDup (rotation w k).
Proof.
  intros Hk. unfold rotation.
  apply NoDup_map_NoDup_ForallPairs; [|apply seq_NoDup].
  intros i j Hi Hj H. apply in_seq in Hi, Hj.
  apply mod_shift_inj
    with (n := length (geminiApiKeys w)) (a := currentKeyIndex w);
    [lia | lia | exact H].
Qed.


End RotationFacts.

(* --------------------------------------------------------------------- *)
(** ** Trimming *)

Lemma dropWhile_idem {A} (p : A -> bool) l :
  dropWhile p (dropWhile p l) = dropWhile p l.
Proof.
  induction l as [|x l IH]; simpl; auto.
  destruct (p x) eqn:E; auto. simpl. now rewrite E.
Qed.

Lemma dropWhile_suffix {A} (p : A -> bool) l :
  exists pre, l = pre ++ dropWhile p l.
Proof.
  induction l as [|x l [pre IH]]; simpl.
  - now exists [].
  - destruct (p x).
    + exists (x :: pre). simpl. now f_equal.
    + now exists [].
Qed.

Lemma dropWhile_head {A} (p : A -> bool) l x l' :
  dropWhile p l = x :: l' -> p x = false.
Proof.
  induction l as [|y l IH]; simpl; [discriminate|].
  destruct (p y) eqn:E; auto. intros H. now inversion H; subst.
Qed.

Lemma dropWhile_fixed {A} (p : A -> bool) x l :
  p x = false -> dropWhile p (x :: l) = x :: l.
Proof. intros H. simpl. now rewrite H. Qed.

(** [trim] is idempotent. *)
Lemma trim_trim s : trim (trim s) = trim s.
Proof.
  unfold trim.
  set (a := dropWhile is_space s).
  set (b := dropWhile is_space (rev a)).
  assert (Hb : dropWhile is_space b = b) by apply dropWhile_idem.
  assert (Ha : dropWhile is_space (rev b) = rev b).
  { destruct (dropWhile_suffix is_space (rev a)) as [pre Hpre].
    fold b in Hpre.
    assert (Ea : a = rev b ++ rev pre).
    { rewrite <- (rev_involutive a), Hpre, rev_app_distr. reflexivity. }
    destruct (rev b) as [|x r] eqn:Er; [reflexivity|].
    apply dropWhile_fixed.
    apply (dropWhile_head is_space s (l' := r ++ rev pre)).
    fold a. rewrite Ea. reflexivity. }
  rewrite Ha, rev_involutive, Hb. reflexivity.
Qed.

(* --------------------------------------------------------------------- *)
(** ** Extraction *)

Lemma nonEmptyTrimmed_ok text message t :
  nonEmptyTrimmed text message = Ok t -> (length (trim t) =? 0) = false.
Proof.
  unfold nonEmptyTrimmed. destruct text as [raw|]; [|discriminate].
  destruct (length (trim raw) =? 0) eqn:E; [discriminate|].
  intros H. inversion H; subst. now rewrite trim_trim.
Qed.

Lemma rethrowAs_ok {A} (o : outcome A) h a :
  rethrowAs o h = Ok a -> o = Ok a.
Proof. destruct o; simpl; congruence. Qed.

Lemma obind_ok {A B} (o : outcome A) (k : A -> outcome B) b :
  obind o k = Ok b -> exists a, o = Ok a /\ k a = Ok b.
Proof. destruct o as [a|e]; simpl; [eauto | discriminate]. Qed.

(** A text that [extractText] returns is not blank. *)
Lemma extractText_not_blank env filePath fileType text :
  extractText env filePath fileType = Ok text ->
  (length (trim text) =? 0) = false.
Proof.
  unfold extractText. intros H. apply rethrowAs_ok in H.
  repeat match type of H with
  | (if ?c then _ else _) = _ => destruct c
  end;
  try discriminate;
  unfold extractFromPDF, extractFromTXT, extractFromDOCX, extractFromImage
    in H;
  apply rethrowAs_ok in H; apply obind_ok in H as (raw & _ & H);
  eapply nonEmptyTrimmed_ok; eassumption.
Qed.

(* --------------------------------------------------------------------- *)
(** ** The orchestrator *)

Lemma returns_ret {A} (a : A) : returns (ret a).
Proof. intros w. now exists a, w. Qed.

(** A [try] whose handler returns a value always returns. *)
Lemma returns_tryCatch {A} (m : M A) (h : exn -> A) :
  returns (tryCatch m (fun e => ret (h e))).
Proof.
  intros w. unfold tryCatch, ret.
  destruct (m w) as [[a|e] w']; eauto.
Qed.

Lemma tryCatch_rethrow {A} (m : M A) w :
  tryCatch m (fun error => throw error) w = m w.
Proof. unfold tryCatch, throw. now destruct (m w) as [[a|e] w']. Qed.

Section Orchestrator.

Variable env : Collaborators.

Lemma extractKeywordsWithGemini_returns text n :
  returns (extractKeywordsWithGemini env text n).
Proof. apply returns_tryCatch with (h := fun _ => extractKeywords env text n). Qed.

Lemma generateSummaryWithGemini_returns text n :
  returns (generateSummaryWithGemini env text n).
Proof. apply returns_tryCatch with (h := fun _ => generateSummary env text n). Qed.

Lemma extractSubjectWithGemini_returns text :
  returns (extractSubjectWithGemini env text).
Proof. apply returns_tryCatch with (h := fun _ => extractSubject env text). Qed.

(** The analysis of one chunk returns, whatever the provider does. *)
Lemma analyzeChunk_returns c : returns (analyzeChunk env c).
Proof.
  intros w. unfold analyzeChunk, bind, attempt, ret.
  destruct (generateEmbeddings env (chunk_content c) 0 w) as [[values|e] w1];
    [|eauto].
  destruct (extractKeywordsWithGemini_returns (chunk_content c)
              defaultMaxKeywords w1) as (kws & w2 & E2).
  rewrite E2.
  destruct (generateSummaryWithGemini_returns (chunk_content c)
              defaultMaxSentences w2) as (sm & w3 & E3).
  rewrite E3. eauto.
Qed.

(** The loop keeps what was processed and adds one processed chunk per
    chunk. *)
Lemma processChunks_returns todo : forall i done w,
  exists added w',
    processChunks env i todo done w = (Ok (done ++ added), w')
    /\ length added = length todo.
Proof.
  induction todo as [|c todo IH]; intros i done w.
  - exists [], w. simpl. unfold ret. now rewrite app_nil_r.
  - cbn [processChunks]. unfold bind at 1. unfold tryCatch, bind at 1.
    destruct (analyzeChunk_returns c w) as (locals & w1 & E1).
    rewrite E1. unfold ret at 1.
    destruct (IH (S i) (done ++ [processedChunkOf i c locals]) w1)
      as (added & w2 & E2 & Hl).
    exists (processedChunkOf i c locals :: added), w2.
    rewrite E2, <- app_assoc. simpl. auto.
Qed.

(** With the provider down every call of [generateEmbeddings] throws. *)
Lemma generateEmbeddingsFrom_down text fuel :
  providerDown env ->
  forall retryCount w,
    fst (generateEmbeddingsFrom fuel env text retryCount w)
    = Throw embeddingsFailed.
Proof.
  intros Hd. induction fuel as [|fuel IH]; intros retryCount w;
    [reflexivity|].
  rewrite generateEmbeddingsFrom_step. unfold nextEmbedAnswer.
  pose proof (Hd (tick w) (getCurrentApiKey w) text) as He.
  destruct (postEmbedContent env (tick w) (getCurrentApiKey w) text)
    as [[values|]|status]; [discriminate | reflexivity |].
  destruct (is429 (Rejected status) && moreKeys w retryCount);
    [apply IH | reflexivity].
Qed.

Lemma analyzeChunk_down c w :
  providerDown env ->
  fst (analyzeChunk env c w) = Ok (freeLocals env c).
Proof.
  intros Hd. unfold analyzeChunk, bind, attempt.
  pose proof (generateEmbeddingsFrom_down (chunk_content c)
     (S (length (geminiApiKeys w) - 1 - 0)) Hd 0 w) as E.
  unfold generateEmbeddings.
  destruct (generateEmbeddingsFrom _ env (chunk_content c) 0 w)
    as [[values|e] w1]; [discriminate|reflexivity].
Qed.

Lemma processChunks_down todo :
  providerDown env ->
  forall i done w,
    fst (processChunks env i todo done w)
    = Ok (done ++ degradedChunks env i todo).
Proof.
  intros Hd. induction todo as [|c todo IH]; intros i done w.
  - simpl. now rewrite app_nil_r.
  - cbn [processChunks degradedChunks]. unfold bind at 1.
    unfold tryCatch, bind at 1.
    pose proof (analyzeChunk_down c w Hd) as E1.
    destruct (analyzeChunk env c w) as [[locals|e] w1];
      simpl in E1; [|discriminate].
    inversion E1; subst locals. unfold ret at 1.
    rewrite IH, <- app_assoc. reflexivity.
Qed.

Lemma degradedChunks_degraded cs : forall i,
  Forall degraded (degradedChunks env i cs).
Proof.
  induction cs as [|c cs IH]; intros i; simpl; constructor; auto.
  split; reflexivity.
Qed.

Lemma degradedChunks_content cs : forall i,
  map content (degradedChunks env i cs) = map chunk_content cs.
Proof.
  induction cs as [|c cs IH]; intros i; simpl; [auto | now rewrite IH].
Qed.

Lemma degraded_not_gemini cs :
  Forall degraded cs ->
  existsb (fun c => isGemini (processingMethod (metadata c))) cs = false.
Proof.
  induction 1 as [|c cs [_ Hm] _ IH]; simpl; auto.
  now rewrite Hm, IH.
Qed.

(** Past extraction and the blank test, [processDocument] returns, with
    the chunks the loop produced. *)
Lemma processDocument_past_extraction documentId filePath fileType text w :
  extractText env filePath fileType = Ok text ->
  (length (trim text) =? 0) = false ->
  exists doc w' w1,
    processDocument env documentId filePath fileType w = (Ok doc, w')
    /\ processChunks env 0
         (chunkText env text defaultChunkSize defaultOverlap) [] w
       = (Ok (processedChunks doc), w1)
    /\ extractedText doc = text
    /\ document_processingMethod (document_metadata_of doc)
       = (if existsb (fun c => isGemini (processingMethod (metadata c)))
               (processedChunks doc)
          then Gemini else Free).
Proof.
  intros Hx Hb. unfold processDocument.
  rewrite tryCatch_rethrow. unfold bind at 1, liftOutcome.
  rewrite Hx, Hb.
  destruct (processChunks_returns
              (chunkText env text defaultChunkSize defaultOverlap) 0 [] w)
    as (added & w1 & E1 & _).
  simpl in E1. unfold bind at 1. rewrite E1.
  destruct (returns_tryCatch (extractSubjectWithGemini env text)
              (fun _ => extractSubject env text) w1) as (subj & w2 & E2).
  unfold bind at 1. rewrite E2.
  destruct (returns_tryCatch (extractKeywordsWithGemini env text 20)
              (fun _ => extractKeywords env text 20) w2) as (kws & w3 & E3).
  unfold bind at 1. rewrite E3.
  destruct (returns_tryCatch (generateSummaryWithGemini env text 5)
              (fun _ => generateSummary env text 5) w3) as (sm & w4 & E4).
  unfold bind at 1. rewrite E4.
  unfold bind, now, ret.
  eexists _, w4, w1. repeat split.
Qed.

End Orchestrator.

(** C3.  When extraction succeeds and no embedding request is ever
    answered with a vector, [processDocument] returns a document that
    holds every chunk of the text, in order, each without an embedding
    and with [processingMethod] 'free', as is the document's own
    [processingMethod]. *)
Theorem processDocument_degrades env documentId filePath fileType text w :
  providerDown env ->
  extractText env filePath fileType = Ok text ->
  exists doc w',
    processDocument env documentId filePath fileType w = (Ok doc, w')
    /\ processedChunks doc
       = degradedChunks env 0
           (chunkText env text defaultChunkSize defaultOverlap)
    /\ map content (processedChunks doc)
       = map chunk_content
           (chunkText env text defaultChunkSize defaultOverlap)
    /\ Forall degraded (processedChunks doc)
    /\ document_processingMethod (document_metadata_of doc) = Free.
Proof.
  intros Hd Hx.
  destruct (@processDocument_past_extraction env documentId filePath
              fileType text w Hx (extractText_not_blank env _ _ Hx))
    as (doc & w' & w1 & Hp & Hc & _ & Hm).
  pose proof (processChunks_down
                (chunkText env text defaultChunkSize defaultOverlap)
                Hd 0 [] w) as Hdown.
  rewrite Hc in Hdown. simpl in Hdown. injection Hdown as Hdone.
  exists doc, w'. split; [exact Hp|]. split; [exact Hdone|].
  rewrite Hm, Hdone.
  split; [apply degradedChunks_content|].
  split; [apply degradedChunks_degraded|].
  rewrite degraded_not_gemini; auto using degradedChunks_degraded.
Qed.

(** C4.  [processDocument] throws exactly when [extractText] throws or
    the extracted text is blank: nothing that happens to the chunks or in
    the analyzers leaves it as an exception. *)
Theorem processDocument_throws_iff env documentId filePath fileType w :
  (exists e w',
     processDocument env documentId filePath fileType w = (Throw e, w'))
  <->
  (exists e, extractText env filePath fileType = Throw e)
  \/ (exists text, extractText env filePath fileType = Ok text
                   /\ length (trim text) = 0).
Proof.
  split.
  - intros (e & w' & H).
    destruct (extractText env filePath fileType) as [text|e0] eqn:Hx;
      [|left; eauto].
    right. exists text. split; [reflexivity|].
    destruct (length (trim text) =? 0) eqn:Hb;
      [now apply Nat.eqb_eq in Hb|].
    destruct (@processDocument_past_extraction env documentId filePath
                fileType text w Hx Hb)
      as (doc & w2 & w1 & Hp & _).
    rewrite Hp in H. discriminate.
  - unfold processDocument. rewrite tryCatch_rethrow.
    unfold bind at 1, liftOutcome.
    intros [[e Hx] | (text & Hx & Hb)]; rewrite Hx.
    + eauto.
    + apply Nat.eqb_eq in Hb. rewrite Hb. unfold throw. eauto.
Qed.

(** The two ways out by exception, on a file that cannot be read and on
    one that holds only blanks. *)
Example processDocument_unreadable :
  fst (processDocument (offlineEnv []) (str "doc-1") (str "notes.txt")
         (str "txt") twoKeys)
  = Throw (Error (str "Failed to extract text from txt file")).
Proof. vm_compute. reflexivity. Qed.

Example processDocument_blank :
  fst (processDocument
         (sampleEnv [] (Ok (str "   ")) alwaysRateLimited alwaysRateLimited)
         (str "doc-1") (str "notes.txt") (str "txt") twoKeys)
  = Throw (Error (str "Failed to extract text from txt file")).
Proof. vm_compute. reflexivity. Qed.

(* --------------------------------------------------------------------- *)
(** ** Unsupported file types *)

Lemma jsstring_eqb_eq a : forall b, jsstring_eqb a b = true <-> a = b.
Proof.
  induction a as [|x a IH]; intros [|y b]; simpl;
    try (split; [discriminate | congruence]); [tauto|].
  rewrite andb_true_iff, IH. unfold ascii_eqb. rewrite Ascii.eqb_eq.
  split; [intros [-> ->]; reflexivity | intros H; inversion H; auto].
Qed.

Lemma jsstring_eqb_refl a : jsstring_eqb a a = true.
Proof. now apply jsstring_eqb_eq. Qed.

(** C9, as the code has it.  A file type without a case in
    [extractText] makes it throw the error that also wraps a parser
    failure, "Failed to extract text from ... file" with the file type
    in it; the "Unsupported file type" error of the [default] branch is
    thrown inside the [try] and replaced like any other. *)
Theorem extractText_unsupported env filePath fileType :
  supportedFileType fileType = false ->
  extractText env filePath fileType = Throw (extractionFailed fileType)
  /\ extractText env filePath fileType
     <> Throw (unsupportedFileType fileType)
  /\ (forall e, pdfText env filePath = Throw e ->
        extractText env filePath (str "pdf")
        = Throw (extractionFailed (str "pdf"))).
Proof.
  intros Hs. unfold supportedFileType in Hs.
  repeat (apply orb_false_iff in Hs as [Hs ?]).
  assert (E : extractText env filePath fileType
              = Throw (extractionFailed fileType)).
  { unfold extractText.
    repeat match goal with
    | H : jsstring_eqb fileType _ = false |- _ => rewrite H; clear H
    end.
    reflexivity. }
  split; [exact E|]. split.
  - rewrite E. unfold extractionFailed, unsupportedFileType.
    intros Hsame. inversion Hsame.
  - intros e He. unfold extractText, extractFromPDF.
    cbn [jsstring_eqb str list_ascii_of_string ascii_eqb Ascii.eqb
         Bool.eqb andb].
    rewrite He. reflexivity.
Qed.

(** C9, as stated, fails: for the file type "xlsx" the error that leaves
    [extractText] is not the unsupported-type error but the one a failing
    PDF parser leads to, with the other file type in its message. *)
Lemma extractText_xlsx_not_distinct :
  extractText catEnv (str "sheet.xlsx") (str "xlsx")
  <> Throw (unsupportedFileType (str "xlsx"))
  /\ extractText catEnv (str "sheet.xlsx") (str "xlsx")
     = Throw (extractionFailed (str "xlsx"))
  /\ extractText catEnv (str "sheet.xlsx") (str "pdf")
     = Throw (extractionFailed (str "pdf")).
Proof.
  split; [|split]; [|reflexivity|reflexivity].
  intros H. vm_compute in H. discriminate H.
Qed.

(* --------------------------------------------------------------------- *)
(** ** Cosine similarity *)

(** Vectors of different lengths have similarity 0. *)
Lemma cosineSimilarity_mismatch vecA vecB :
  length vecA <> length vecB -> cosineSimilarity vecA vecB = 0%float.
Proof.
  intros H. unfold cosineSimilarity.
  apply Nat.eqb_neq in H. now rewrite H.
Qed.

(** C1, on the code.  For the all-zero vector (0, 0) and the vector
    (1, 2), of the same length, [cosineSimilarity] divides zero by zero:
    the result is NaN, not 0. *)
Theorem cosineSimilarity_zero_vector :
  is_nan (cosineSimilarity [0%float; 0%float] [1%float; 2%float]) = true
  /\ cosineSimilarity [0%float; 0%float] [1%float; 2%float] <> 0%float.
Proof.
  split; [vm_compute; reflexivity|].
  intros H.
  assert (E : is_nan (cosineSimilarity [0%float; 0%float]
                        [1%float; 2%float]) = is_nan 0%float)
    by (rewrite H; reflexivity).
  vm_compute in E. discriminate E.
Qed.

(* --------------------------------------------------------------------- *)
(** ** The fallback store *)

Section FallbackSearch.

Variable env : Collaborators.

Lemma Forall_firstn_keep {A} (P : A -> Prop) n : forall l,
  Forall P l -> Forall P (firstn n l).
Proof.
  induction n as [|n IH]; intros l H; simpl; [constructor|].
  destruct H; constructor; auto.
Qed.

Lemma insertByScore_Forall (P : search_result -> Prop) x l :
  P x -> Forall P l -> Forall P (insertByScore x l).
Proof.
  intros Hx. induction 1 as [|y l Hy Hl IH]; simpl.
  - constructor; auto.
  - destruct (_ <? _)%float; constructor; auto.
Qed.

Lemma sortByScore_Forall (P : search_result -> Prop) l :
  Forall P l -> Forall P (sortByScore l).
Proof.
  induction 1; simpl; [constructor | now apply insertByScore_Forall].
Qed.

Lemma scoreChunks_Forall (P : search_result -> Prop) q cs :
  (forall c s, In c cs -> P (hitOf c s)) ->
  forall results out,
    Forall P results ->
    scoreChunks q cs results = Ok out -> Forall P out.
Proof.
  induction cs as [|c cs IH]; intros Hc results out Hr H; simpl in H.
  - now inversion H; subst.
  - destruct (stored_embedding c); [|discriminate].
    apply IH in H; auto.
    + intros c' s Hin. apply Hc. now right.
    + apply Forall_app. split; auto. constructor; auto.
      apply Hc. now left.
Qed.

(** A search restricted to a document id scores that document's records
    only. *)
Lemma scoreDocuments_scoped q d m :
  d <> [] -> filedById m ->
  forall results out,
    Forall (fun h => hit_documentId h = d) results ->
    scoreDocuments q (Some d) m results = Ok out ->
    Forall (fun h => hit_documentId h = d) out.
Proof.
  intros Hd. induction 1 as [|[k cs] m Hk Hm IH]; intros results out Hr H;
    simpl in H.
  - now inversion H; subst.
  - unfold skipped, truthy in H. destruct d as [|c0 d0]; [congruence|].
    cbn [andb] in H.
    destruct (jsstring_eqb k (c0 :: d0)) eqn:E; cbn [negb] in H.
    + apply jsstring_eqb_eq in E. subst k.
      apply obind_ok in H as (mid & H1 & H2).
      apply (IH mid); auto.
      eapply scoreChunks_Forall; [|exact Hr|exact H1].
      intros c s Hin. simpl in Hk. rewrite Forall_forall in Hk.
      simpl. now apply Hk.
    + now apply (IH results).
Qed.

(** What holds of every fallback search that returns: at most [limit]
    hits, all of the document asked for. *)
Lemma searchChunksFallback_limited_scoped vs query d limit w hits w' :
  d <> [] -> filedById (fallbackStorage vs) ->
  searchChunksFallback env vs query (Some d) limit w = (Ok hits, w') ->
  length hits <= limit /\ Forall (fun h => hit_documentId h = d) hits.
Proof.
  intros Hd Hf. unfold searchChunksFallback, bind, liftOutcome, ret.
  destruct (generateEmbeddings env query 0 w) as [[q|e] w1];
    [|discriminate].
  destruct (scoreDocuments q (Some d) (fallbackStorage vs) []) as [out|e]
    eqn:E; [|discriminate].
  intros H. inversion H; subst. split; [apply firstn_le_length|].
  apply Forall_firstn_keep, sortByScore_Forall.
  eapply scoreDocuments_scoped; eauto.
Qed.

(** Once the entry of [d] is deleted, a search restricted to [d] scores
    nothing. *)
Lemma scoreDocuments_deleted q d m :
  d <> [] ->
  forall results,
    scoreDocuments q (Some d) (mapDelete m d) results = Ok results.
Proof.
  intros Hd. induction m as [|[k cs] m IH]; intros results; simpl; auto.
  destruct (jsstring_eqb k d) eqn:E; simpl; auto.
  unfold skipped, truthy. destruct d as [|c0 d0]; [congruence|].
  rewrite E. simpl. apply IH.
Qed.

Lemma mapDelete_absent m d : mapHas m d = false -> mapDelete m d = m.
Proof.
  unfold mapHas, mapDelete. induction m as [|[k cs] m IH]; simpl; auto.
  intros H. apply orb_false_iff in H as [Hk H].
  rewrite Hk. simpl. now rewrite IH.
Qed.

Lemma recordsFor_deleted m d : recordsFor (mapDelete m d) d = [].
Proof.
  unfold recordsFor, mapDelete. induction m as [|[k cs] m IH]; simpl; auto.
  destruct (jsstring_eqb k d) eqn:E; simpl; auto. now rewrite E.
Qed.

(** Deleting an id that has no record changes no search. *)
Lemma scoreDocuments_without_empty q docId d m :
  recordsFor m d = [] ->
  forall results,
    scoreDocuments q docId (mapDelete m d) results
    = scoreDocuments q docId m results.
Proof.
  unfold recordsFor, mapDelete.
  induction m as [|[k cs] m IH]; intros Hn results; simpl; auto.
  simpl in Hn. destruct (jsstring_eqb k d) eqn:E; simpl in *.
  - apply app_eq_nil in Hn as [-> Hn]. rewrite IH by assumption.
    destruct (skipped docId k); reflexivity.
  - destruct (skipped docId k); [now apply IH|].
    destruct (scoreChunks q cs results); simpl; [now apply IH | reflexivity].
Qed.

End FallbackSearch.

(** [storeChunksFallback] and the deletion keep every record under the
    id it carries. *)
Lemma newChunksFrom_filed d cs : forall i,
  Forall (fun c => document_id c = d) (newChunksFrom d i cs).
Proof.
  induction cs as [|c cs IH]; intros i; simpl; constructor; auto.
Qed.

Lemma mapSet_filed m d v :
  filedById m -> Forall (fun c => document_id c = d) v ->
  filedById (mapSet m d v).
Proof.
  intros Hm Hv. induction Hm as [|[k cs] m Hk Hm IH]; simpl.
  - repeat constructor. exact Hv.
  - destruct (jsstring_eqb k d) eqn:E.
    + apply jsstring_eqb_eq in E. subst k. constructor; auto.
    + constructor; auto.
Qed.

Lemma mapGet_filed m d l :
  filedById m -> mapGet m d = Some l ->
  Forall (fun c => document_id c = d) l.
Proof.
  induction 1 as [|[k cs] m Hk Hm IH]; simpl; [discriminate|].
  destruct (jsstring_eqb k d) eqn:E; auto.
  apply jsstring_eqb_eq in E. subst k. intros H. now inversion H; subst.
Qed.

Lemma storeChunksFallback_filed vs d cs :
  filedById (fallbackStorage vs) ->
  filedById (fallbackStorage (storeChunksFallback vs d cs)).
Proof.
  intros Hm. unfold storeChunksFallback. cbn [fallbackStorage].
  set (m1 := if mapHas (fallbackStorage vs) d then fallbackStorage vs
             else mapSet (fallbackStorage vs) d []).
  assert (H1 : filedById m1).
  { unfold m1. destruct (mapHas _ _); auto.
    apply mapSet_filed; auto. }
  apply mapSet_filed; auto. apply Forall_app. split.
  - destruct (mapGet m1 d) eqn:E; [|constructor].
    eapply mapGet_filed; eauto.
  - apply newChunksFrom_filed.
Qed.

Lemma mapDelete_filed m d : filedById m -> filedById (mapDelete m d).
Proof.
  unfold mapDelete. induction 1 as [|kv m Hk Hm IH]; simpl;
    [constructor|].
  destruct (negb _); [constructor|]; auto.
Qed.

Lemma mapHas_mapDelete m d : mapHas (mapDelete m d) d = false.
Proof.
  unfold mapHas, mapDelete. induction m as [|[k cs] m IH]; simpl; auto.
  destruct (jsstring_eqb k d) eqn:E; simpl; auto. now rewrite E.
Qed.



(** A record stored without a vector, as [processDocument] produces
    them when the provider is down, makes every fallback search that
    reaches it throw. *)
Lemma scoreChunks_null_embedding q c cs results :
  stored_embedding c = None ->
  scoreChunks q (c :: cs) results = Throw TypeError.
Proof. intros H. simpl. now rewrite H. Qed.

(** C6, on the code.  In fallback mode, with a store that holds an
    all-zero vector and a vector the query matches, the search returns
    two hits whose scores are NaN and 1: they are not in non-increasing
    order, and no arrangement of them is.  The NaN is the one
    [cosineSimilarity] gives for an all-zero vector. *)
Theorem searchSimilarChunks_unordered :
  exists hits,
    fst (searchSimilarChunks
           (sampleEnv [] (Throw TypeError) unitEmbedding alwaysRateLimited)
           zeroVectorStore (str "query") (Some (str "doc-1")) 5 twoKeys)
    = Ok hits
    /\ map score hits = [nan; 1%float]
    /\ nonIncreasing hits = false
    /\ (forall l, Permutation l hits -> nonIncreasing l = false).
Proof.
  eexists. split; [vm_compute; reflexivity|].
  split; [reflexivity|]. split; [vm_compute; reflexivity|].
  intros l Hp. apply Permutation_sym, Permutation_length_2_inv in Hp.
  destruct Hp as [-> | ->]; vm_compute; reflexivity.
Qed.

(* --------------------------------------------------------------------- *)
(** ** Readability *)

(** A number that is at least a positive constant is at least any
    smaller positive constant. *)
Lemma SFleb_smaller m1 e1 m2 e2 x :
  (e2 < e1)%Z \/ (e2 = e1 /\ (m2 <= m1)%positive) ->
  SFleb (S754_finite false m1 e1) x = true ->
  SFleb (S754_finite false m2 e2) x = true.
Proof.
  intros Hc. unfold SFleb, SFcompare.
  destruct x as [s|s| |s m e]; auto.
  destruct s; auto.
  change (PosDef.Pos.compare_cont Eq m1 m) with (Pos.compare m1 m).
  change (PosDef.Pos.compare_cont Eq m2 m) with (Pos.compare m2 m).
  destruct (Z.compare_spec e1 e) as [He1|He1|He1];
    destruct (Z.compare_spec e2 e) as [He2|He2|He2];
    try reflexivity; try discriminate; try lia;
    destruct (Pos.compare_spec m1 m), (Pos.compare_spec m2 m);
    try reflexivity; try discriminate; lia.
Qed.

Lemma geq_smaller a b x m1 e1 m2 e2 :
  Prim2SF a = S754_finite false m1 e1 ->
  Prim2SF b = S754_finite false m2 e2 ->
  (e2 < e1)%Z \/ (e2 = e1 /\ (m2 <= m1)%positive) ->
  geq x a = true -> geq x b = true.
Proof.
  intros Ha Hb Hc. unfold geq. rewrite !leb_spec, Ha, Hb.
  now apply SFleb_smaller.
Qed.

Lemma geq_90_80 x : geq x 90%float = true -> geq x 80%float = true.
Proof.
  eapply geq_smaller; [vm_compute; reflexivity | vm_compute; reflexivity|].
  right. split; [reflexivity | lia].
Qed.

Lemma geq_80_70 x : geq x 80%float = true -> geq x 70%float = true.
Proof.
  eapply geq_smaller; [vm_compute; reflexivity | vm_compute; reflexivity|].
  right. split; [reflexivity | lia].
Qed.

Lemma geq_70_60 x : geq x 70%float = true -> geq x 60%float = true.
Proof.
  eapply geq_smaller; [vm_compute; reflexivity | vm_compute; reflexivity|].
  left. lia.
Qed.

Lemma geq_60_50 x : geq x 60%float = true -> geq x 50%float = true.
Proof.
  eapply geq_smaller; [vm_compute; reflexivity | vm_compute; reflexivity|].
  right. split; [reflexivity | lia].
Qed.

Lemma geq_50_30 x : geq x 50%float = true -> geq x 30%float = true.
Proof.
  eapply geq_smaller; [vm_compute; reflexivity | vm_compute; reflexivity|].
  left. lia.
Qed.

(** The cascade of [calculateReadability] picks the band the value lies
    in, and a value lies in one band only. *)
Lemma levelOf_band x l : levelOf x = l <-> inBand x l = true.
Proof.
  pose proof (@geq_90_80 x) as H98. pose proof (@geq_80_70 x) as H87.
  pose proof (@geq_70_60 x) as H76. pose proof (@geq_60_50 x) as H65.
  pose proof (@geq_50_30 x) as H53.
  unfold levelOf, inBand.
  destruct (geq x 90%float);
    [ specialize (H98 eq_refl) | clear H98 ];
  (destruct (geq x 80%float);
    [ specialize (H87 eq_refl) | clear H87 ]);
  (destruct (geq x 70%float);
    [ specialize (H76 eq_refl) | clear H76 ]);
  (destruct (geq x 60%float);
    [ specialize (H65 eq_refl) | clear H65 ]);
  (destruct (geq x 50%float);
    [ specialize (H53 eq_refl) | clear H53 ]);
  destruct (geq x 30%float); try discriminate;
  destruct l; cbn; split; intros H; try reflexivity; discriminate H.
Qed.

(** C8, as the code has it.  The returned score is the Flesch value
    rounded to the nearest integer, and the returned level is the band,
    among the seven, in which the Flesch value itself lies. *)
Theorem calculateReadability_bands env text :
  readability_score (calculateReadability env text)
  = Math_round (fleschOf env text)
  /\ forall l,
       level (calculateReadability env text) = l
       <-> inBand (fleschOf env text) l = true.
Proof.
  split; [reflexivity|]. intros l. apply levelOf_band.
Qed.

(** C8, as stated, fails: a sentence of thirty-two one-syllable words
    has the Flesch value 89.755; the returned score is 90 and the
    returned level is 'Easy', the band below the one of a score of 90. *)
Lemma calculateReadability_score_above_band :
  readability_score (calculateReadability (offlineEnv [plainText]) plainText)
  = 90%float
  /\ level (calculateReadability (offlineEnv [plainText]) plainText) = Easy
  /\ ~ scoreAndBandAgree (offlineEnv [plainText]) plainText.
Proof.
  split; [vm_compute; reflexivity|]. split; [vm_compute; reflexivity|].
  intros [_ H]. vm_compute in H. discriminate H.
Qed.

(* --------------------------------------------------------------------- *)
(** ** The properties on sample inputs *)


(** A text file of two sentences, processed while every request is
    rate-limited. *)
Lemma processDocument_degrades_sample :
  exists doc w',
    processDocument catEnv (str "doc-1") (str "notes.txt") (str "txt")
      twoKeys = (Ok doc, w')
    /\ processedChunks doc
       = degradedChunks catEnv 0
           (chunkText catEnv catText defaultChunkSize defaultOverlap)
    /\ map content (processedChunks doc)
       = map chunk_content
           (chunkText catEnv catText defaultChunkSize defaultOverlap)
    /\ Forall degraded (processedChunks doc)
    /\ document_processingMethod (document_metadata_of doc) = Free.
Proof.
  apply (@processDocument_degrades catEnv (str "doc-1") (str "notes.txt")
           (str "txt") catText twoKeys).
  - intros t key text. reflexivity.
  - vm_compute. reflexivity.
Defined.


(** A spreadsheet is not a supported type. *)
Lemma extractText_unsupported_sample :
  extractText catEnv (str "sheet.xlsx") (str "xlsx")
  = Throw (Error (str "Failed to extract text from xlsx file"))
  /\ extractText catEnv (str "sheet.xlsx") (str "xlsx")
     <> Throw (unsupportedFileType (str "xlsx"))
  /\ (forall e, pdfText catEnv (str "sheet.xlsx") = Throw e ->
        extractText catEnv (str "sheet.xlsx") (str "pdf")
        = Throw (extractionFailed (str "pdf"))).
Proof.
  apply (@extractText_unsupported catEnv (str "sheet.xlsx") (str "xlsx")).
  reflexivity.
Defined.

(* ===================================================================== *)
(** * Further properties of the modelled code *)
(* ===================================================================== *)

(* --------------------------------------------------------------------- *)
(** ** The chunker *)

Lemma length_dropWhile_le {A} (p : A -> bool) l :
  length (dropWhile p l) <= length l.
Proof.
  induction l as [|x l IH]; simpl; auto.
  destruct (p x); simpl; lia.
Qed.

Lemma length_trim_le s : length (trim s) <= length s.
Proof.
  unfold trim. rewrite length_rev.
  etransitivity; [apply length_dropWhile_le|].
  rewrite length_rev. apply length_dropWhile_le.
Qed.

Section ChunkerFacts.

Variables (chunkSize overlap : nat).

Lemma closeChunk_fromZero cur : fromZero (closeChunk cur 0).
Proof.
  unfold fromZero, closeChunk; simpl. auto using length_trim_le.
Qed.

Lemma chunkStep_fromZero st sentence :
  chunkStart st = 0 -> Forall fromZero (chunks st) ->
  chunkStart (chunkStep chunkSize overlap st sentence) = 0
  /\ Forall fromZero (chunks (chunkStep chunkSize overlap st sentence)).
Proof.
  intros H0 Hc. unfold chunkStep.
  destruct (_ && _); simpl; [|auto].
  rewrite H0. split.
  - rewrite length_app. lia.
  - apply Forall_app. split; auto.
    constructor; auto using closeChunk_fromZero.
Qed.

Lemma chunkLoop_fromZero sentences : forall st,
  chunkStart st = 0 -> Forall fromZero (chunks st) ->
  chunkStart (chunkLoop chunkSize overlap sentences st) = 0
  /\ Forall fromZero (chunks (chunkLoop chunkSize overlap sentences st)).
Proof.
  induction sentences as [|s ss IH]; intros st H0 Hc; simpl; auto.
  destruct (chunkStep_fromZero st s H0 Hc) as [H0' Hc'].
  now apply IH.
Qed.

Lemma chunkStep_pending st sentence :
  pending (chunkStep chunkSize overlap st sentence) <= S (pending st).
Proof.
  unfold pending, chunkStep.
  destruct (chunkSize <? _) ; simpl.
  - destruct (0 <? length (currentChunk st)) eqn:E; simpl.
    + rewrite length_app; simpl.
      destruct (0 <? length (_ ++ sentence)); lia.
    + destruct (0 <? length (_ ++ sentence)); lia.
  - destruct (0 <? length (currentChunk st)),
             (0 <? length (currentChunk st ++ sentence)); lia.
Qed.

Lemma chunkLoop_pending sentences : forall st,
  pending (chunkLoop chunkSize overlap sentences st)
  <= pending st + length sentences.
Proof.
  induction sentences as [|s ss IH]; intros st; simpl; [lia|].
  etransitivity; [apply IH|].
  pose proof (chunkStep_pending st s). lia.
Qed.

Lemma chunkFinish_pending st : length (chunkFinish st) <= pending st.
Proof.
  unfold chunkFinish, pending.
  destruct (0 <? length (trim (currentChunk st))) eqn:E;
    [|lia].
  apply Nat.ltb_lt in E. pose proof (length_trim_le (currentChunk st)).
  rewrite length_app; simpl.
  destruct (0 <? length (currentChunk st)) eqn:E2; [lia|].
  apply Nat.ltb_ge in E2. lia.
Qed.

(** While the sentences fit, nothing is closed. *)
Lemma chunkLoop_fits sentences : forall cur,
  length cur + length (concat sentences) <= chunkSize ->
  chunkLoop chunkSize overlap sentences
    {| chunks := []; currentChunk := cur; chunkStart := 0 |}
  = {| chunks := []; currentChunk := cur ++ concat sentences;
       chunkStart := 0 |}.
Proof.
  induction sentences as [|s ss IH]; intros cur H; simpl.
  - now rewrite app_nil_r.
  - simpl in H. rewrite length_app in H.
    unfold chunkStep at 1. cbn [currentChunk chunks chunkStart].
    replace (chunkSize <? length cur + length s) with false
      by (symmetry; apply Nat.ltb_ge; lia).
    cbn [andb]. rewrite IH by (rewrite length_app; lia).
    now rewrite <- app_assoc.
Qed.

End ChunkerFacts.

(** Every chunk of every text is recorded with [start = 0] and
    [end = length], and its content is no longer than [length]. *)
Theorem chunkText_offsets_from_zero env text chunkSize overlap :
  Forall (fun c => chunk_start c = 0 /\ chunk_end c = chunk_length c
                   /\ length (chunk_content c) <= chunk_length c)
         (chunkText env text chunkSize overlap).
Proof.
  unfold chunkText, chunkFinish.
  destruct (chunkLoop_fromZero chunkSize overlap (tokenize env text)
              chunkInit eq_refl (Forall_nil _)) as [H0 Hc].
  destruct (0 <? _); auto.
  apply Forall_app. split; auto. constructor; auto.
  rewrite H0. apply closeChunk_fromZero.
Qed.

(** There are never more chunks than sentences. *)
Theorem chunkText_at_most_one_per_sentence env text chunkSize overlap :
  length (chunkText env text chunkSize overlap)
  <= length (tokenize env text).
Proof.
  unfold chunkText.
  etransitivity; [apply chunkFinish_pending|].
  etransitivity; [apply chunkLoop_pending|]. simpl. lia.
Qed.

(** A text whose sentences fit together into [chunkSize] characters and
    are not all blank becomes exactly one chunk, of all the sentences. *)
Theorem chunkText_single_chunk env text chunkSize overlap :
  length (concat (tokenize env text)) <= chunkSize ->
  0 < length (trim (concat (tokenize env text))) ->
  chunkText env text chunkSize overlap
  = [closeChunk (concat (tokenize env text)) 0].
Proof.
  intros Hfit Hnb. unfold chunkText, chunkInit.
  rewrite chunkLoop_fits by (simpl; lia).
  unfold chunkFinish. cbn [currentChunk chunks chunkStart app].
  apply Nat.ltb_lt in Hnb. now rewrite Hnb.
Qed.

Lemma chunkText_single_chunk_sample :
  chunkText catEnv catText defaultChunkSize defaultOverlap
  = [closeChunk (concat (tokenize catEnv catText)) 0]
  /\ map chunk_sentences
       (chunkText catEnv catText defaultChunkSize defaultOverlap) = [2].
Proof.
  split.
  - apply (@chunkText_single_chunk catEnv catText defaultChunkSize
             defaultOverlap); vm_compute; lia.
  - vm_compute. reflexivity.
Defined.

(** The overlap text is a suffix of the text it is taken from and, for
    a positive [overlapSize], no longer than [overlapSize]. *)
Theorem getOverlapText_suffix text overlapSize :
  (exists before, text = before ++ getOverlapText text overlapSize)
  /\ (overlapSize = 0
      \/ length (getOverlapText text overlapSize) <= overlapSize).
Proof.
  unfold getOverlapText.
  destruct (length text <=? overlapSize) eqn:E.
  - apply Nat.leb_le in E. split; [now exists []|auto].
  - apply Nat.leb_gt in E. unfold slice_last.
    destruct (overlapSize =? 0) eqn:E0.
    + apply Nat.eqb_eq in E0. split; [|auto].
      destruct (indexOf " " text) as [i|]; [|now exists []].
      destruct (0 <? i); [|now exists []].
      exists (firstn (i + 1) text). now rewrite firstn_skipn.
    + set (tail := skipn (length text - overlapSize) text).
      assert (Ht : text = firstn (length text - overlapSize) text ++ tail)
        by (unfold tail; now rewrite firstn_skipn).
      assert (Hl : length tail = overlapSize)
        by (unfold tail; rewrite length_skipn; lia).
      destruct (indexOf " " tail) as [i|]; [|split; [eauto|right; lia]].
      destruct (0 <? i); [|split; [eauto|right; lia]].
      split.
      * exists (firstn (length text - overlapSize) text
                ++ firstn (i + 1) tail).
        rewrite <- app_assoc, firstn_skipn. exact Ht.
      * right. rewrite length_skipn. lia.
Qed.

(* --------------------------------------------------------------------- *)
(** ** Syllables and subjects *)

Lemma vowelGroups_bounds w : forall previous n,
  n <= vowelGroups previous n w <= n + length w.
Proof.
  induction w as [|c w IH]; intros previous n; simpl; [lia|].
  destruct (isVowel c && negb previous);
    match goal with
    | |- _ <= vowelGroups ?p ?m _ <= _ => specialize (IH p m)
    end; lia.
Qed.

(** The count is taken on the lower-cased word: it is at least one and
    at most the number of code units of the lower-cased word, and it is
    one whenever the lower-cased word has at most three code units. *)
Theorem countSyllables_bounds w :
  1 <= countSyllables w <= Nat.max 1 (length (toLowerCase w))
  /\ (length (toLowerCase w) <= 3 -> countSyllables w = 1).
Proof.
  unfold countSyllables.
  set (word := toLowerCase w).
  destruct (length word <=? 3) eqn:E.
  - apply Nat.leb_le in E. repeat split; lia.
  - apply Nat.leb_gt in E.
    pose proof (vowelGroups_bounds word false 0) as H.
    destruct (endsWith_e word && (1 <? vowelGroups false 0 word));
      repeat split; lia.
Qed.

Lemma lower_upper_char c : lower_char (upper_char c) = lower_char c.
Proof.
  destruct c as [[] [] [] [] [] [] [] []]; vm_compute; reflexivity.
Qed.

(** The count does not depend on the case of the letters a-z. *)
Theorem countSyllables_ignores_case w :
  countSyllables (map upper_char w) = countSyllables w.
Proof.
  unfold countSyllables, toLowerCase.
  rewrite map_map, (map_ext _ _ lower_upper_char). reflexivity.
Qed.

Section SubjectFacts.

Variable textLower : jsstring.

Let pick (best : jsstring * nat) (entry : jsstring * list jsstring) :=
  let score :=
    fold_left (fun acc kw => acc + (if includes kw textLower then 1 else 0))
              (snd entry) 0 in
  if snd best <? score then (capitalize (fst entry), score) else best.

Lemma pick_range table : forall best,
  In (fst (fold_left pick table best))
     (fst best :: map (fun e => capitalize (fst e)) table).
Proof.
  induction table as [|e table IH]; intros best; simpl; [auto|].
  specialize (IH (pick best e)).
  destruct IH as [H|H]; [|auto].
  rewrite <- H. unfold pick.
  destruct (snd best <? _); simpl; auto.
Qed.

Lemma count_absent kws : forall n,
  (forall kw, In kw kws -> includes kw textLower = false) ->
  fold_left (fun acc kw => acc + (if includes kw textLower then 1 else 0))
            kws n = n.
Proof.
  induction kws as [|kw kws IH]; intros n H; simpl; auto.
  rewrite (H kw) by now left.
  rewrite Nat.add_0_r. apply IH. intros kw' Hin. apply H. now right.
Qed.

Lemma pick_default table : forall best,
  (forall entry kw, In entry table -> In kw (snd entry) ->
     includes kw textLower = false) ->
  fold_left pick table best = best.
Proof.
  induction table as [|e table IH]; intros best H; simpl; auto.
  assert (E : pick best e = best).
  { unfold pick. rewrite count_absent.
    - now destruct (snd best <? 0) eqn:E; [apply Nat.ltb_lt in E; lia|].
    - intros kw Hin. apply (H e kw); [now left|assumption]. }
  rewrite E. apply IH. intros entry kw Hin. apply H. now right.
Qed.

End SubjectFacts.

(** [extractSubject] answers with 'General' or with the capitalized
    name of one of the six subjects of its table. *)
Theorem extractSubject_range env text :
  In (extractSubject env text) subjectLabels.
Proof.
  unfold extractSubject.
  exact (pick_range (toLowerCase text) subjectKeywords (str "General", 0)).
Qed.

(** A text in which no keyword of the table occurs is 'General'. *)
Theorem extractSubject_default env text :
  noSubjectKeyword text -> extractSubject env text = str "General".
Proof.
  intros H. unfold extractSubject.
  rewrite (pick_default (toLowerCase text) subjectKeywords); auto.
Qed.

Lemma extractSubject_default_sample :
  extractSubject catEnv (str "Zzz, zzz.") = str "General".
Proof.
  apply (@extractSubject_default catEnv (str "Zzz, zzz.")).
  intros entry kw He Hk.
  vm_compute in He.
  repeat (destruct He as [<- | He];
    [ vm_compute in Hk;
      repeat (destruct Hk as [<- | Hk]; [vm_compute; reflexivity|]);
      destruct Hk
    | ]).
  destruct He.
Defined.

(* --------------------------------------------------------------------- *)
(** ** What [extractText] and [processDocument] let through *)

Lemma nonEmptyTrimmed_trimmed text message t :
  nonEmptyTrimmed text message = Ok t -> trim t = t /\ t <> [].
Proof.
  unfold nonEmptyTrimmed. destruct text as [raw|]; [|discriminate].
  destruct (length (trim raw) =? 0) eqn:E; [discriminate|].
  intros H. inversion H; subst. split; [apply trim_trim|].
  intros Hn. rewrite Hn in E. discriminate.
Qed.

Lemma extractText_error env filePath fileType e :
  extractText env filePath fileType = Throw e ->
  e = extractionFailed fileType.
Proof.
  unfold extractText, rethrowAs.
  destruct (if jsstring_eqb fileType (str "pdf") then _ else _);
    [discriminate|]. intros H. now inversion H.
Qed.

(** A text that [extractText] returns is not empty and has no white
    space at either end. *)
Theorem extractText_trimmed env filePath fileType text :
  extractText env filePath fileType = Ok text ->
  trim text = text /\ text <> [].
Proof.
  unfold extractText. intros H. apply rethrowAs_ok in H.
  repeat match type of H with
  | (if ?c then _ else _) = _ => destruct c
  end;
  try discriminate;
  unfold extractFromPDF, extractFromTXT, extractFromDOCX, extractFromImage
    in H;
  apply rethrowAs_ok in H; apply obind_ok in H as (raw & _ & H);
  eapply nonEmptyTrimmed_trimmed; eassumption.
Qed.

Lemma extractText_trimmed_sample :
  trim catText = catText /\ catText <> [].
Proof.
  apply (@extractText_trimmed catEnv (str "notes.txt") (str "txt") catText).
  vm_compute. reflexivity.
Defined.

(** The only error that leaves [processDocument] is the one of
    [extractText], "Failed to extract text from ... file"; it leaves
    before any request is made, and the "No text content found in
    document" error is never thrown. *)
Theorem processDocument_only_error env documentId filePath fileType w e w' :
  processDocument env documentId filePath fileType w = (Throw e, w') ->
  e = extractionFailed fileType /\ w' = w /\ e <> noTextInDocument.
Proof.
  intros H.
  assert (He : e = extractionFailed fileType /\ w' = w).
  { destruct (extractText env filePath fileType) as [text|e0] eqn:Hx.
    - destruct (@processDocument_past_extraction env documentId filePath
                  fileType text w Hx (extractText_not_blank env _ _ Hx))
        as (doc & w2 & w1 & Hp & _).
      rewrite Hp in H. discriminate.
    - apply extractText_error in Hx as He0.
      unfold processDocument in H. rewrite tryCatch_rethrow in H.
      unfold bind, liftOutcome in H. rewrite Hx in H.
      inversion H; subst. auto. }
  destruct He as [-> ->]. repeat split.
  unfold extractionFailed, noTextInDocument. intros Hsame.
  inversion Hsame.
Qed.

Lemma processDocument_only_error_sample :
  extractionFailed (str "txt") = extractionFailed (str "txt")
  /\ twoKeys = twoKeys
  /\ extractionFailed (str "txt") <> noTextInDocument.
Proof.
  apply (@processDocument_only_error (offlineEnv []) (str "doc-1")
           (str "notes.txt") (str "txt") twoKeys
           (extractionFailed (str "txt")) twoKeys).
  vm_compute. reflexivity.
Defined.

(* --------------------------------------------------------------------- *)
(** ** Requests and the key pointer *)

Lemma spends_ret {A} (a : A) : spends 0 (ret a).
Proof. intros w; simpl. repeat split; auto; lia. Qed.

Lemma spends_throw {A} e : spends 0 (@throw A e).
Proof. intros w; simpl. repeat split; auto; lia. Qed.

Lemma spends_liftOutcome {A} (o : outcome A) : spends 0 (liftOutcome o).
Proof. intros w; simpl. repeat split; auto; lia. Qed.

Lemma spends_more {A} a b (m : M A) : a <= b -> spends a m -> spends b m.
Proof.
  intros Hab H w. destruct (H w) as (Hk & Hr & Hi).
  repeat split; auto. unfold callBudget in *. nia.
Qed.

Lemma spends_bind {A B} a b (m : M A) (k : A -> M B) :
  spends a m -> (forall x, spends b (k x)) -> spends (a + b) (bind m k).
Proof.
  intros Hm Hk w. unfold bind.
  destruct (Hm w) as (Hk1 & Hr1 & Hi1).
  destruct (m w) as [[x|e] w1]; simpl in *.
  - destruct (Hk x w1) as (Hk2 & Hr2 & Hi2).
    unfold callBudget in *. rewrite Hk1 in *.
    repeat split; [congruence | nia | auto].
  - unfold callBudget in *. repeat split; auto. nia.
Qed.

Lemma spends_tryCatch {A} a b (m : M A) (h : exn -> M A) :
  spends a m -> (forall e, spends b (h e)) -> spends (a + b) (tryCatch m h).
Proof.
  intros Hm Hh w. unfold tryCatch.
  destruct (Hm w) as (Hk1 & Hr1 & Hi1).
  destruct (m w) as [[x|e] w1]; simpl in *.
  - unfold callBudget in *. repeat split; auto. nia.
  - destruct (Hh e w1) as (Hk2 & Hr2 & Hi2).
    unfold callBudget in *. rewrite Hk1 in *.
    repeat split; [congruence | nia | auto].
Qed.

Lemma spends_attempt {A} a (m : M A) : spends a m -> spends a (attempt m).
Proof.
  intros Hm w. unfold attempt. specialize (Hm w).
  destruct (m w) as [r w1]. exact Hm.
Qed.

Section Spending.

Variable env : Collaborators.

(** One unfolding of the retry loop of [generateText]. *)
Lemma generateTextFrom_step fuel prompt retryCount w :
  generateTextFrom (S fuel) env prompt retryCount w
  = match postGenerateContent env (tick w) (getCurrentApiKey w) prompt with
    | Response (FirstPart text) => (Ok text, sent GenerateContent w)
    | r =>
        if is429 r && moreKeys w retryCount
        then generateTextFrom fuel env prompt (retryCount + 1)
               (switchToNextKey (sent GenerateContent w))
        else (Throw textFailed, sent GenerateContent w)
    end.
Proof.
  cbn [generateTextFrom].
  unfold tryCatch, bind, axiosPostGenerate, fromHttp.
  destruct (postGenerateContent env (tick w) (getCurrentApiKey w) prompt)
    as [[text| | |]|status]; reflexivity.
Qed.

Lemma switch_in_range w :
  currentKeyIndex w < length (geminiApiKeys w) ->
  currentKeyIndex (switchToNextKey w) < length (geminiApiKeys w).
Proof.
  intros H. cbn [switchToNextKey currentKeyIndex].
  apply Nat.mod_upper_bound. lia.
Qed.

Lemma generateEmbeddingsFrom_spends text fuel : forall retryCount w,
  geminiApiKeys (snd (generateEmbeddingsFrom fuel env text retryCount w))
  = geminiApiKeys w
  /\ length (requests (snd (generateEmbeddingsFrom fuel env text
                              retryCount w)))
     <= length (requests w) + fuel
  /\ (currentKeyIndex w < length (geminiApiKeys w) ->
      currentKeyIndex (snd (generateEmbeddingsFrom fuel env text
                              retryCount w))
      < length (geminiApiKeys w)).
Proof.
  induction fuel as [|fuel IH]; intros retryCount w.
  - simpl. repeat split; auto; lia.
  - rewrite generateEmbeddingsFrom_step.
    assert (H1 : geminiApiKeys (sent EmbedContent w) = geminiApiKeys w
                 /\ length (requests (sent EmbedContent w))
                    <= length (requests w) + S fuel
                 /\ (currentKeyIndex w < length (geminiApiKeys w) ->
                     currentKeyIndex (sent EmbedContent w)
                     < length (geminiApiKeys w))).
    { cbn [sent geminiApiKeys requests currentKeyIndex].
      rewrite length_app; simpl. repeat split; auto; lia. }
    destruct (nextEmbedAnswer env text w) as [[values|]|status];
      try exact H1.
    destruct (is429 (Rejected status) && moreKeys w retryCount);
      [|exact H1].
    destruct (IH (retryCount + 1) (switchToNextKey (sent EmbedContent w)))
      as (Hk & Hr & Hi).
    cbn [switchToNextKey sent geminiApiKeys requests] in Hk, Hr.
    rewrite length_app in Hr; simpl in Hr.
    repeat split; [exact Hk | lia |].
    intros Hin. apply Hi. apply (switch_in_range (sent EmbedContent w)).
    exact Hin.
Qed.

Lemma generateTextFrom_spends prompt fuel : forall retryCount w,
  geminiApiKeys (snd (generateTextFrom fuel env prompt retryCount w))
  = geminiApiKeys w
  /\ length (requests (snd (generateTextFrom fuel env prompt
                              retryCount w)))
     <= length (requests w) + fuel
  /\ (currentKeyIndex w < length (geminiApiKeys w) ->
      currentKeyIndex (snd (generateTextFrom fuel env prompt retryCount w))
      < length (geminiApiKeys w)).
Proof.
  induction fuel as [|fuel IH]; intros retryCount w.
  - simpl. repeat split; auto; lia.
  - rewrite generateTextFrom_step.
    assert (H1 : geminiApiKeys (sent GenerateContent w) = geminiApiKeys w
                 /\ length (requests (sent GenerateContent w))
                    <= length (requests w) + S fuel
                 /\ (currentKeyIndex w < length (geminiApiKeys w) ->
                     currentKeyIndex (sent GenerateContent w)
                     < length (geminiApiKeys w))).
    { cbn [sent geminiApiKeys requests currentKeyIndex].
      rewrite length_app; simpl. repeat split; auto; lia. }
    destruct (postGenerateContent env (tick w) (getCurrentApiKey w) prompt)
      as [[text| | |]|status]; try exact H1.
    destruct (is429 (Rejected status) && moreKeys w retryCount);
      [|exact H1].
    destruct (IH (retryCount + 1)
                (switchToNextKey (sent GenerateContent w)))
      as (Hk & Hr & Hi).
    cbn [switchToNextKey sent geminiApiKeys requests] in Hk, Hr.
    rewrite length_app in Hr; simpl in Hr.
    repeat split; [exact Hk | lia |].
    intros Hin. apply Hi. apply (switch_in_range (sent GenerateContent w)).
    exact Hin.
Qed.

Lemma generateEmbeddings_spends text : spends 1 (generateEmbeddings env text 0).
Proof.
  intros w. unfold generateEmbeddings.
  destruct (generateEmbeddingsFrom_spends text
              (S (length (geminiApiKeys w) - 1 - 0)) 0 w) as (Hk & Hr & Hi).
  repeat split; auto. unfold callBudget. lia.
Qed.

Lemma generateText_spends prompt : spends 1 (generateText env prompt 0).
Proof.
  intros w. unfold generateText.
  destruct (generateTextFrom_spends prompt
              (S (length (geminiApiKeys w) - 1 - 0)) 0 w) as (Hk & Hr & Hi).
  repeat split; auto. unfold callBudget. lia.
Qed.

Lemma extractKeywordsWithGemini_spends text n :
  spends 1 (extractKeywordsWithGemini env text n).
Proof.
  unfold extractKeywordsWithGemini.
  apply (spends_tryCatch (a := 1) (b := 0)); [|intros; apply spends_ret].
  apply (spends_bind (a := 1) (b := 0)); [apply generateText_spends|].
  intros [json|]; [|apply spends_ret].
  destruct (parseKeywordArray env json); apply spends_ret.
Qed.

Lemma generateSummaryWithGemini_spends text n :
  spends 1 (generateSummaryWithGemini env text n).
Proof.
  unfold generateSummaryWithGemini.
  apply (spends_tryCatch (a := 1) (b := 0)); [|intros; apply spends_ret].
  apply (spends_bind (a := 1) (b := 0)); [apply generateText_spends|].
  intros [sm|]; [apply spends_ret | apply spends_throw].
Qed.

Lemma extractSubjectWithGemini_spends text :
  spends 1 (extractSubjectWithGemini env text).
Proof.
  unfold extractSubjectWithGemini.
  apply (spends_tryCatch (a := 1) (b := 0)); [|intros; apply spends_ret].
  apply (spends_bind (a := 1) (b := 0)); [apply generateText_spends|].
  intros [sm|]; [apply spends_ret | apply spends_throw].
Qed.

Lemma analyzeChunk_spends c : spends 3 (analyzeChunk env c).
Proof.
  unfold analyzeChunk.
  apply (spends_bind (a := 1) (b := 2)).
  { apply spends_attempt, generateEmbeddings_spends. }
  intros [values|e]; [|apply (spends_more (a := 0)); [lia|apply spends_ret]].
  apply (spends_bind (a := 1) (b := 1)).
  { apply spends_attempt, extractKeywordsWithGemini_spends. }
  intros [kws|e]; [|apply (spends_more (a := 0)); [lia|apply spends_ret]].
  apply (spends_bind (a := 1) (b := 0)).
  { apply spends_attempt, generateSummaryWithGemini_spends. }
  intros [sm|e]; apply spends_ret.
Qed.

Lemma processChunks_spends todo : forall i done,
  spends (3 * length todo) (processChunks env i todo done).
Proof.
  induction todo as [|c todo IH]; intros i done.
  - apply spends_ret.
  - cbn [processChunks length].
    replace (3 * S (length todo)) with (3 + 3 * length todo) by lia.
    apply spends_bind; [|intros; apply IH].
    apply (spends_tryCatch (a := 3) (b := 0)); [|intros; apply spends_ret].
    apply (spends_bind (a := 3) (b := 0)); [apply analyzeChunk_spends|].
    intros; apply spends_ret.
Qed.

End Spending.


(* --------------------------------------------------------------------- *)
(** ** When every key is rate-limited *)

Section Exhaustion.

Variable env : Collaborators.
Variable text : jsstring.
Hypothesis limited : alwaysLimited env.

Lemma generateEmbeddings_exhausts k : forall retryCount w,
  currentKeyIndex w < length (geminiApiKeys w) ->
  length (geminiApiKeys w) - 1 - retryCount = k ->
  fst (generateEmbeddings env text retryCount w) = Throw embeddingsFailed
  /\ requests (snd (generateEmbeddings env text retryCount w))
     = requests w ++ map (pair EmbedContent) (rotation w (S k))
  /\ currentKeyIndex (snd (generateEmbeddings env text retryCount w))
     = (currentKeyIndex w + k) mod length (geminiApiKeys w).
Proof.
  induction k as [|k IH]; intros retryCount w Hi Hk.
  - unfold generateEmbeddings. rewrite generateEmbeddingsFrom_step.
    pose proof (limited (tick w) (getCurrentApiKey w) text) as H429.
    fold (nextEmbedAnswer env text w) in H429.
    destruct (nextEmbedAnswer env text w) as [d|status]; [discriminate|].
    rewrite H429. unfold moreKeys.
    replace (retryCount <? length (geminiApiKeys w) - 1) with false
      by (symmetry; apply Nat.ltb_ge; lia).
    cbn [andb fst snd sent requests currentKeyIndex].
    rewrite rotation_succ by assumption.
    rewrite Nat.add_0_r, Nat.mod_small by assumption. auto.
  - rewrite generateEmbeddings_retry
      by (try apply limited; unfold nextEmbedAnswer; try apply limited; lia).
    set (w2 := switchToNextKey (sent EmbedContent w)).
    assert (Hi2 : currentKeyIndex w2 < length (geminiApiKeys w2))
      by (apply (switch_in_range (sent EmbedContent w)); exact Hi).
    destruct (IH (retryCount + 1) w2 Hi2) as (Hf & Hr & Hp).
    { unfold w2. rewrite keys_switch, keys_sent. lia. }
    split; [exact Hf|]. split.
    + rewrite Hr, (@rotation_succ w (S k)) by assumption.
      unfold w2 at 1. cbn [switchToNextKey sent requests map].
      rewrite <- app_assoc. reflexivity.
    + rewrite Hp. unfold w2.
      cbn [switchToNextKey sent currentKeyIndex geminiApiKeys].
      rewrite Nat.Div0.add_mod_idemp_l. f_equal. lia.
Qed.

End Exhaustion.



(* --------------------------------------------------------------------- *)
(** ** The analyzers without the text provider *)

Section Textless.

Variable env : Collaborators.
Hypothesis down : textless env.

Lemma generateTextFrom_textless prompt fuel : forall retryCount w,
  fst (generateTextFrom fuel env prompt retryCount w) = Ok None
  \/ fst (generateTextFrom fuel env prompt retryCount w) = Throw textFailed.
Proof.
  induction fuel as [|fuel IH]; intros retryCount w; [now right|].
  rewrite generateTextFrom_step.
  pose proof (down (tick w) (getCurrentApiKey w) prompt) as Ha.
  destruct (postGenerateContent env (tick w) (getCurrentApiKey w) prompt)
    as [[[t|]| | |]|status]; try discriminate; auto.
  destruct (is429 (Rejected status) && moreKeys w retryCount); auto.
Qed.

Lemma generateText_textless prompt w :
  fst (generateText env prompt 0 w) = Ok None
  \/ fst (generateText env prompt 0 w) = Throw textFailed.
Proof. apply generateTextFrom_textless. Qed.

End Textless.

(** When no [generateContent] request is answered with a text, the three
    provider-backed analyzers return what the free methods compute. *)
Theorem analyzers_fall_back env text n w :
  textless env ->
  fst (extractSubjectWithGemini env text w) = Ok (extractSubject env text)
  /\ fst (extractKeywordsWithGemini env text n w)
     = Ok (extractKeywords env text n)
  /\ fst (generateSummaryWithGemini env text n w)
     = Ok (generateSummary env text n).
Proof.
  intros Hd.
  unfold extractSubjectWithGemini, extractKeywordsWithGemini,
    generateSummaryWithGemini, tryCatch, bind.
  repeat split;
    match goal with
    | |- context [generateText env ?p 0 w] =>
        destruct (@generateText_textless env Hd p w) as [H|H];
        destruct (generateText env p 0 w) as [[[t|]|e] w1];
        simpl in H; try discriminate; reflexivity
    end.
Qed.

Lemma analyzers_fall_back_sample :
  fst (extractSubjectWithGemini catEnv catText twoKeys)
  = Ok (str "General")
  /\ fst (extractKeywordsWithGemini catEnv catText 10 twoKeys)
     = Ok (extractKeywords catEnv catText 10)
  /\ fst (generateSummaryWithGemini catEnv catText 10 twoKeys)
     = Ok catText.
Proof.
  apply (@analyzers_fall_back catEnv catText 10 twoKeys).
  intros t key prompt. reflexivity.
Defined.

(* --------------------------------------------------------------------- *)
(** ** One processed chunk per chunk *)

Section ChunkForChunk.

Variable env : Collaborators.

(** The loop builds one processed chunk from each chunk and the result
    of its analysis. *)
Lemma processChunks_built (P : locals -> Prop) :
  (forall c w l w', analyzeChunk env c w = (Ok l, w') -> P l) ->
  forall todo i done w,
  exists ls w',
    processChunks env i todo done w
    = (Ok (done ++ processedFrom i todo ls), w')
    /\ length ls = length todo /\ Forall P ls.
Proof.
  intros HP. induction todo as [|c todo IH]; intros i done w.
  - exists [], w. simpl. unfold ret. now rewrite app_nil_r.
  - cbn [processChunks]. unfold bind at 1. unfold tryCatch, bind at 1.
    destruct (analyzeChunk_returns env c w) as (l & w1 & E1).
    rewrite E1. unfold ret at 1.
    destruct (IH (S i) (done ++ [processedChunkOf i c l]) w1)
      as (ls & w2 & E2 & Hl & Hf).
    exists (l :: ls), w2.
    rewrite E2, <- app_assoc. simpl. repeat split; auto.
    constructor; auto. eapply HP; eauto.
Qed.

Lemma processedFrom_content cs : forall i ls,
  length ls = length cs ->
  map content (processedFrom i cs ls) = map chunk_content cs.
Proof.
  induction cs as [|c cs IH]; intros i [|[[emb kws] sm] ls] H;
    simpl in *; try discriminate; auto.
  rewrite IH by lia. reflexivity.
Qed.

Lemma processedFrom_index cs : forall i ls,
  length ls = length cs ->
  map (fun p => chunkIndex (metadata p)) (processedFrom i cs ls)
  = seq i (length cs).
Proof.
  induction cs as [|c cs IH]; intros i [|[[emb kws] sm] ls] H;
    simpl in *; try discriminate; auto.
  rewrite IH by lia. reflexivity.
Qed.

Lemma processedFrom_span cs : forall i ls,
  length ls = length cs ->
  map (fun p => (start (metadata p), end_ (metadata p),
                 length_ (metadata p), sentences (metadata p)))
      (processedFrom i cs ls)
  = map (fun c => (chunk_start c, chunk_end c, chunk_length c,
                   chunk_sentences c)) cs.
Proof.
  induction cs as [|c cs IH]; intros i [|[[emb kws] sm] ls] H;
    simpl in *; try discriminate; auto.
  rewrite IH by lia. reflexivity.
Qed.

Lemma processedFrom_labelled cs : forall i ls,
  Forall labelled (processedFrom i cs ls).
Proof.
  induction cs as [|c cs IH]; intros i [|[[emb kws] sm] ls];
    simpl; constructor; auto.
  unfold labelled; simpl. reflexivity.
Qed.

Lemma processedFrom_embedded cs : forall i ls,
  Forall (fun l : locals => fst (fst l) <> None) ls ->
  Forall (fun p => embedding p <> None
                   /\ processingMethod (metadata p) = Gemini)
         (processedFrom i cs ls).
Proof.
  induction cs as [|c cs IH]; intros i ls H; [constructor|].
  destruct H as [|[[emb kws] sm] ls Hl Hls]; simpl; constructor; auto.
  simpl in Hl. destruct emb; [split; [discriminate|reflexivity]|].
  now elim Hl.
Qed.

(** The document [processDocument] builds once extraction is past. *)
Lemma processDocument_document documentId filePath fileType text w :
  extractText env filePath fileType = Ok text ->
  exists done w1 subj kws sm time w',
    processChunks env 0
      (chunkText env text defaultChunkSize defaultOverlap) [] w
    = (Ok done, w1)
    /\ processDocument env documentId filePath fileType w
       = (Ok {| extractedText := text;
                processedChunks := done;
                document_metadata_of :=
                  {| wordCount := length (split is_space text);
                     chunkCount := length done;
                     language := detectLanguage text;
                     subject := subj;
                     document_keywords := kws;
                     document_summary := sm;
                     document_readability := calculateReadability env text;
                     processingTime := time;
                     document_processingMethod :=
                       if existsb
                            (fun c => isGemini (processingMethod (metadata c)))
                            done
                       then Gemini else Free |} |}, w').
Proof.
  intros Hx. pose proof (extractText_not_blank env _ _ Hx) as Hb.
  unfold processDocument.
  rewrite tryCatch_rethrow. unfold bind at 1, liftOutcome.
  rewrite Hx, Hb.
  destruct (processChunks_returns env
              (chunkText env text defaultChunkSize defaultOverlap) 0 [] w)
    as (added & w1 & E1 & _).
  simpl in E1. unfold bind at 1. rewrite E1.
  destruct (returns_tryCatch (extractSubjectWithGemini env text)
              (fun _ => extractSubject env text) w1) as (subj & w2 & E2).
  unfold bind at 1. rewrite E2.
  destruct (returns_tryCatch (extractKeywordsWithGemini env text 20)
              (fun _ => extractKeywords env text 20) w2) as (kws & w3 & E3).
  unfold bind at 1. rewrite E3.
  destruct (returns_tryCatch (generateSummaryWithGemini env text 5)
              (fun _ => generateSummary env text 5) w3) as (sm & w4 & E4).
  unfold bind at 1. rewrite E4.
  unfold bind, now, ret.
  exists added, w1, subj, kws, sm, (isoTime env (tick w4)), w4.
  split; reflexivity.
Qed.

(** With the provider up, an analysis comes back with a vector. *)
Lemma analyzeChunk_up c w l w' :
  providerUp env ->
  analyzeChunk env c w = (Ok l, w') -> fst (fst l) <> None.
Proof.
  intros Hu. unfold analyzeChunk, bind, attempt, generateEmbeddings.
  rewrite generateEmbeddingsFrom_step.
  pose proof (Hu (tick w) (getCurrentApiKey w) (chunk_content c)) as He.
  unfold nextEmbedAnswer.
  destruct (postEmbedContent env (tick w) (getCurrentApiKey w)
              (chunk_content c)) as [[values|]|status];
    try discriminate.
  destruct (extractKeywordsWithGemini_returns env (chunk_content c)
              defaultMaxKeywords (sent EmbedContent w))
    as (kws & w2 & E2).
  rewrite E2.
  destruct (generateSummaryWithGemini_returns env (chunk_content c)
              defaultMaxSentences w2) as (sm & w3 & E3).
  rewrite E3. unfold ret. intros H. inversion H; subst. discriminate.
Qed.

End ChunkForChunk.

(** Whatever the providers do, once the text is extracted
    [processDocument] returns one processed chunk for each chunk of the
    text, in order: with the chunk's content and span, its position as
    [chunkIndex], and the method 'gemini' exactly when it has a vector;
    [chunkCount] is the number of chunks. *)
Theorem processDocument_chunk_for_chunk env documentId filePath fileType
    text w :
  extractText env filePath fileType = Ok text ->
  exists doc w',
    processDocument env documentId filePath fileType w = (Ok doc, w')
    /\ extractedText doc = text
    /\ map content (processedChunks doc)
       = map chunk_content
           (chunkText env text defaultChunkSize defaultOverlap)
    /\ map (fun p => chunkIndex (metadata p)) (processedChunks doc)
       = seq 0 (length (chunkText env text defaultChunkSize defaultOverlap))
    /\ map (fun p => (start (metadata p), end_ (metadata p),
                      length_ (metadata p), sentences (metadata p)))
           (processedChunks doc)
       = map (fun c => (chunk_start c, chunk_end c, chunk_length c,
                        chunk_sentences c))
             (chunkText env text defaultChunkSize defaultOverlap)
    /\ Forall labelled (processedChunks doc)
    /\ chunkCount (document_metadata_of doc)
       = length (chunkText env text defaultChunkSize defaultOverlap).
Proof.
  intros Hx.
  destruct (@processDocument_document env documentId filePath fileType
              text w Hx)
    as (done & w1 & subj & kws & sm & time & w' & Hc & Hp).
  destruct (@processChunks_built env (fun _ => True) (fun _ _ _ _ _ => I)
              (chunkText env text defaultChunkSize defaultOverlap) 0 [] w)
    as (ls & w2 & Hb & Hl & _).
  rewrite Hc in Hb. simpl in Hb. injection Hb as Hdone _.
  eexists _, w'. split; [exact Hp|].
  cbn [extractedText processedChunks document_metadata_of chunkCount].
  rewrite Hdone.
  split; [reflexivity|].
  split; [now apply processedFrom_content|].
  split; [now apply processedFrom_index|].
  split; [now apply processedFrom_span|].
  split; [apply processedFrom_labelled|].
  rewrite <- (length_map content), processedFrom_content by assumption.
  apply length_map.
Qed.

Lemma processDocument_chunk_for_chunk_sample :
  exists doc w',
    processDocument catEnv (str "doc-1") (str "notes.txt") (str "txt")
      twoKeys = (Ok doc, w')
    /\ extractedText doc = catText
    /\ map content (processedChunks doc)
       = map chunk_content
           (chunkText catEnv catText defaultChunkSize defaultOverlap)
    /\ map (fun p => chunkIndex (metadata p)) (processedChunks doc)
       = seq 0 (length (chunkText catEnv catText defaultChunkSize
                          defaultOverlap))
    /\ map (fun p => (start (metadata p), end_ (metadata p),
                      length_ (metadata p), sentences (metadata p)))
           (processedChunks doc)
       = map (fun c => (chunk_start c, chunk_end c, chunk_length c,
                        chunk_sentences c))
             (chunkText catEnv catText defaultChunkSize defaultOverlap)
    /\ Forall labelled (processedChunks doc)
    /\ chunkCount (document_metadata_of doc)
       = length (chunkText catEnv catText defaultChunkSize defaultOverlap).
Proof.
  apply (@processDocument_chunk_for_chunk catEnv (str "doc-1")
           (str "notes.txt") (str "txt") catText twoKeys).
  vm_compute. reflexivity.
Defined.

(** With a provider that answers every embedding request with a vector,
    every processed chunk has a vector and the method 'gemini', and so
    has the document unless it has no chunk. *)
Theorem processDocument_embeds env documentId filePath fileType text w :
  providerUp env ->
  extractText env filePath fileType = Ok text ->
  exists doc w',
    processDocument env documentId filePath fileType w = (Ok doc, w')
    /\ Forall (fun p => embedding p <> None
                        /\ processingMethod (metadata p) = Gemini)
              (processedChunks doc)
    /\ document_processingMethod (document_metadata_of doc)
       = match processedChunks doc with [] => Free | _ :: _ => Gemini end.
Proof.
  intros Hu Hx.
  destruct (@processDocument_document env documentId filePath fileType
              text w Hx)
    as (done & w1 & subj & kws & sm & time & w' & Hc & Hp).
  destruct (@processChunks_built env (fun l => fst (fst l) <> None)
              (fun c w0 l w0' => @analyzeChunk_up env c w0 l w0' Hu)
              (chunkText env text defaultChunkSize defaultOverlap) 0 [] w)
    as (ls & w2 & Hb & Hl & Hf).
  rewrite Hc in Hb. simpl in Hb. injection Hb as Hdone _.
  eexists _, w'. split; [exact Hp|].
  cbn [processedChunks document_metadata_of document_processingMethod].
  assert (Ha : Forall (fun p => embedding p <> None
                               /\ processingMethod (metadata p) = Gemini)
                 done)
    by (rewrite Hdone; now apply processedFrom_embedded).
  split; [exact Ha|].
  destruct Ha as [|p done' [_ Hm] _]; [reflexivity|].
  simpl. now rewrite Hm.
Qed.

Lemma processDocument_embeds_sample :
  exists doc w',
    processDocument
      (sampleEnv catSentences (Ok catText) unitEmbedding alwaysRateLimited)
      (str "doc-1") (str "notes.txt") (str "txt") twoKeys = (Ok doc, w')
    /\ Forall (fun p => embedding p <> None
                        /\ processingMethod (metadata p) = Gemini)
              (processedChunks doc)
    /\ document_processingMethod (document_metadata_of doc)
       = match processedChunks doc with [] => Free | _ :: _ => Gemini end.
Proof.
  apply (@processDocument_embeds
           (sampleEnv catSentences (Ok catText) unitEmbedding
              alwaysRateLimited)
           (str "doc-1") (str "notes.txt") (str "txt") catText twoKeys).
  - intros t key text. reflexivity.
  - vm_compute. reflexivity.
Defined.

(* --------------------------------------------------------------------- *)
(** ** The fallback map *)

Lemma jsstring_eqb_neq a b : a <> b -> jsstring_eqb a b = false.
Proof.
  intros H. destruct (jsstring_eqb a b) eqn:E; auto.
  apply jsstring_eqb_eq in E. contradiction.
Qed.

Lemma mapGet_mapSet_same m d v : mapGet (mapSet m d v) d = Some v.
Proof.
  induction m as [|[k cs] m IH]; simpl.
  - now rewrite jsstring_eqb_refl.
  - destruct (jsstring_eqb k d) eqn:E; simpl; now rewrite E.
Qed.

Lemma mapGet_mapSet_other m d v d' :
  d' <> d -> mapGet (mapSet m d v) d' = mapGet m d'.
Proof.
  intros Hn. induction m as [|[k cs] m IH]; simpl.
  - rewrite jsstring_eqb_neq; auto.
  - destruct (jsstring_eqb k d) eqn:E; simpl.
    + apply jsstring_eqb_eq in E. subst k.
      rewrite jsstring_eqb_neq; auto.
    + now rewrite IH.
Qed.

Lemma mapHas_mapGet m d :
  mapHas m d = match mapGet m d with Some _ => true | None => false end.
Proof.
  unfold mapHas. induction m as [|[k cs] m IH]; simpl; auto.
  destruct (jsstring_eqb k d); simpl; auto.
Qed.

Lemma mapGet_mapDelete_same m d : mapGet (mapDelete m d) d = None.
Proof.
  unfold mapDelete. induction m as [|[k cs] m IH]; simpl; auto.
  destruct (jsstring_eqb k d) eqn:E; simpl; auto. now rewrite E.
Qed.

Lemma mapGet_mapDelete_other m d d' :
  d' <> d -> mapGet (mapDelete m d) d' = mapGet m d'.
Proof.
  intros Hn. unfold mapDelete.
  induction m as [|[k cs] m IH]; simpl; auto.
  destruct (jsstring_eqb k d) eqn:E; simpl.
  - apply jsstring_eqb_eq in E. subst k.
    rewrite jsstring_eqb_neq; auto.
  - now rewrite IH.
Qed.

Lemma keys_mapSet m d v :
  map fst (mapSet m d v)
  = if mapHas m d then map fst m else map fst m ++ [d].
Proof.
  unfold mapHas. induction m as [|[k cs] m IH]; simpl; auto.
  destruct (jsstring_eqb k d) eqn:E; simpl; auto.
  rewrite IH. now destruct (existsb _ m).
Qed.

Lemma mapHas_keys m d : mapHas m d = true <-> In d (map fst m).
Proof.
  unfold mapHas. rewrite existsb_exists, in_map_iff. split.
  - intros (kv & Hin & E). apply jsstring_eqb_eq in E. eauto.
  - intros (kv & E & Hin). exists kv. split; auto.
    now apply jsstring_eqb_eq.
Qed.

Lemma mapSet_NoDup m d v : NoDup (map fst m) -> NoDup (map fst (mapSet m d v)).
Proof.
  intros H. rewrite keys_mapSet.
  destruct (mapHas m d) eqn:E; auto.
  apply NoDup_app; [exact H | repeat constructor; auto |].
  intros k Hk [<-|[]]. apply mapHas_keys in Hk. congruence.
Qed.

Lemma mapDelete_NoDup m d : NoDup (map fst m) -> NoDup (map fst (mapDelete m d)).
Proof.
  unfold mapDelete. induction m as [|[k cs] m IH]; simpl; auto.
  intros H. inversion H as [|? ? Hk Hm]; subst.
  destruct (negb (jsstring_eqb k d)); simpl; auto.
  constructor; auto. intros Hin. apply Hk.
  rewrite in_map_iff in *. destruct Hin as (kv & E & Hin).
  apply filter_In in Hin as [Hin _]. eauto.
Qed.

Lemma storeChunksFallback_records vs d cs :
  recordsOf (fallbackStorage (storeChunksFallback vs d cs)) d
  = recordsOf (fallbackStorage vs) d ++ newChunksFrom d 0 cs.
Proof.
  unfold recordsOf, storeChunksFallback. cbn [fallbackStorage].
  rewrite mapGet_mapSet_same, mapHas_mapGet.
  destruct (mapGet (fallbackStorage vs) d) eqn:E.
  - now rewrite E.
  - now rewrite mapGet_mapSet_same.
Qed.

Lemma storeChunksFallback_other vs d cs d' :
  d' <> d ->
  mapGet (fallbackStorage (storeChunksFallback vs d cs)) d'
  = mapGet (fallbackStorage vs) d'.
Proof.
  intros Hn. unfold storeChunksFallback. cbn [fallbackStorage].
  rewrite mapGet_mapSet_other by assumption.
  destruct (mapHas (fallbackStorage vs) d); auto.
  now rewrite mapGet_mapSet_other.
Qed.

Lemma newChunksFrom_fields d cs : forall i,
  map stored_content (newChunksFrom d i cs) = map content cs
  /\ map stored_embedding (newChunksFrom d i cs) = map embedding cs
  /\ map chunk_index (newChunksFrom d i cs) = seq i (length cs).
Proof.
  induction cs as [|c cs IH]; intros i; simpl; auto.
  destruct (IH (S i)) as (H1 & H2 & H3). now rewrite H1, H2, H3.
Qed.

(** [storeChunksFallback] appends: the records of the document are the
    ones it had followed by one record per chunk, with the chunk's
    content and vector and numbered from 0 again; the records of every
    other document are left as they were. *)
Theorem storeChunksFallback_appends vs documentId cs :
  recordsOf (fallbackStorage (storeChunksFallback vs documentId cs))
    documentId
  = recordsOf (fallbackStorage vs) documentId
    ++ newChunksFrom documentId 0 cs
  /\ map stored_content (newChunksFrom documentId 0 cs) = map content cs
  /\ map stored_embedding (newChunksFrom documentId 0 cs) = map embedding cs
  /\ map chunk_index (newChunksFrom documentId 0 cs) = seq 0 (length cs)
  /\ forall other,
       other <> documentId ->
       mapGet (fallbackStorage (storeChunksFallback vs documentId cs)) other
       = mapGet (fallbackStorage vs) other.
Proof.
  split; [apply storeChunksFallback_records|].
  destruct (newChunksFrom_fields documentId cs 0) as (H1 & H2 & H3).
  repeat split; auto.
  intros other Hn. now apply storeChunksFallback_other.
Qed.

(** In fallback mode, storing the same chunks twice leaves every record
    twice, and deleting the document in between leaves the records of
    the second call only. *)
Theorem storeChunksFallback_twice env vs documentId cs :
  useFallback vs = true ->
  recordsOf
    (fallbackStorage
       (storeChunksFallback (storeChunksFallback vs documentId cs)
          documentId cs))
    documentId
  = recordsOf (fallbackStorage vs) documentId
    ++ newChunksFrom documentId 0 cs ++ newChunksFrom documentId 0 cs
  /\ exists deleted,
       deleteDocumentChunks env (storeChunksFallback vs documentId cs)
         documentId = Ok deleted
       /\ recordsOf
            (fallbackStorage (storeChunksFallback deleted documentId cs))
            documentId
          = newChunksFrom documentId 0 cs.
Proof.
  intros Hf. split.
  - rewrite !storeChunksFallback_records, <- app_assoc. reflexivity.
  - unfold deleteDocumentChunks.
    cbn [storeChunksFallback useFallback]. rewrite Hf. cbn [rethrowAs].
    eexists. split; [reflexivity|].
    rewrite storeChunksFallback_records. unfold recordsOf at 1.
    cbn [fallbackStorage]. now rewrite mapGet_mapDelete_same.
Qed.

Lemma storeChunksFallback_twice_sample :
  recordsOf
    (fallbackStorage
       (storeChunksFallback (storeChunksFallback zeroVectorStore
                               (str "doc-1") [unitChunk])
          (str "doc-1") [unitChunk]))
    (str "doc-1")
  = recordsOf (fallbackStorage zeroVectorStore) (str "doc-1")
    ++ newChunksFrom (str "doc-1") 0 [unitChunk]
    ++ newChunksFrom (str "doc-1") 0 [unitChunk]
  /\ exists deleted,
       deleteDocumentChunks catEnv
         (storeChunksFallback zeroVectorStore (str "doc-1") [unitChunk])
         (str "doc-1") = Ok deleted
       /\ recordsOf
            (fallbackStorage
               (storeChunksFallback deleted (str "doc-1") [unitChunk]))
            (str "doc-1")
          = newChunksFrom (str "doc-1") 0 [unitChunk].
Proof.
  apply (@storeChunksFallback_twice catEnv zeroVectorStore (str "doc-1")
           [unitChunk]).
  reflexivity.
Defined.

Lemma storeChunksFallback_NoDup vs d cs :
  NoDup (map fst (fallbackStorage vs)) ->
  NoDup (map fst (fallbackStorage (storeChunksFallback vs d cs))).
Proof.
  intros H. unfold storeChunksFallback. cbn [fallbackStorage].
  apply mapSet_NoDup. destruct (mapHas _ _); auto using mapSet_NoDup.
Qed.

Lemma storeChunksFallback_fallback vs d cs :
  useFallback (storeChunksFallback vs d cs) = useFallback vs.
Proof. reflexivity. Qed.

Lemma perform_wellFormed env vs op :
  wellFormed (fallbackStorage vs) ->
  wellFormed (fallbackStorage (perform env vs op)).
Proof.
  intros [Hn Hf].
  assert (Hs : forall d cs,
            wellFormed (fallbackStorage (storeChunksFallback vs d cs)))
    by (split; auto using storeChunksFallback_NoDup,
                          storeChunksFallback_filed).
  destruct op as [c|d cs insert|d]; cbn [perform].
  - unfold connect. destruct (snd (tryConnect c vs)); simpl.
    + now split.
    + split; constructor.
  - unfold storeDocumentChunks.
    destruct (useFallback vs || negb (hasClient vs)); [apply Hs|].
    destruct insert; simpl; [now split|].
    destruct (useFallback vs); [apply Hs | now split].
  - unfold deleteDocumentChunks.
    destruct (useFallback vs); simpl.
    + split; auto using mapDelete_NoDup, mapDelete_filed.
    + destruct (hasClient vs); simpl; [|now split].
      destruct (milvusDelete env d); simpl; now split.
Qed.

Lemma perform_fallback env vs op :
  useFallback vs = true -> useFallback (perform env vs op) = true.
Proof.
  intros Hf. destruct op as [c|d cs insert|d]; cbn [perform].
  - unfold connect. destruct (snd (tryConnect c vs)); simpl; auto.
  - unfold storeDocumentChunks. rewrite Hf. simpl. exact Hf.
  - unfold deleteDocumentChunks. rewrite Hf. simpl. reflexivity.
Qed.

(** Whatever calls are made on the service, from its construction on,
    the fallback map has one entry per document id and every record
    under the id it carries; and once the fallback is on it stays on. *)
Theorem service_invariants env ops :
  wellFormed (fallbackStorage (performAll env initialService ops))
  /\ forall more,
       useFallback (performAll env initialService ops) = true ->
       useFallback (performAll env initialService (ops ++ more)) = true.
Proof.
  split.
  - unfold performAll.
    assert (H : wellFormed (fallbackStorage initialService))
      by (split; constructor).
    revert H. generalize initialService.
    induction ops as [|op ops IH]; intros vs H; simpl; auto.
    apply IH. now apply perform_wellFormed.
  - intros more. unfold performAll. rewrite fold_left_app.
    generalize (fold_left (perform env) ops initialService).
    induction more as [|op more IH]; intros vs H; simpl; auto.
    apply IH. now apply perform_fallback.
Qed.

Lemma total_fold (m : storage) : forall a,
  fold_left (fun sum kv => sum + length (snd kv)) m a
  = a + list_sum (map (fun kv => length (snd kv)) m).
Proof.
  induction m as [|kv m IH]; intros a; simpl; [lia|].
  rewrite IH. lia.
Qed.

Lemma total_mapSet m d v :
  list_sum (map (fun kv => length (snd kv)) (mapSet m d v))
  + length (recordsOf m d)
  = list_sum (map (fun kv : jsstring * list stored_chunk =>
                     length (snd kv)) m)
    + length v.
Proof.
  unfold recordsOf. induction m as [|[k cs] m IH]; simpl; [lia|].
  destruct (jsstring_eqb k d); simpl; lia.
Qed.

Lemma length_mapSet m d v :
  length (mapSet m d v) = length m + (if mapHas m d then 0 else 1).
Proof.
  rewrite <- (length_map fst), keys_mapSet.
  destruct (mapHas m d); rewrite ?length_app, length_map; simpl; lia.
Qed.

Lemma total_mapDelete m d :
  list_sum (map (fun kv => length (snd kv)) (mapDelete m d))
  + length (recordsFor m d)
  = list_sum (map (fun kv : jsstring * list stored_chunk =>
                     length (snd kv)) m).
Proof.
  unfold recordsFor, mapDelete.
  induction m as [|[k cs] m IH]; simpl; auto.
  destruct (jsstring_eqb k d); simpl; rewrite ?length_app; lia.
Qed.


(* --------------------------------------------------------------------- *)
(** ** Searching the fallback store *)

Section SearchFacts.

Variable env : Collaborators.

Lemma scoreChunks_throws q cs : forall results e,
  scoreChunks q cs results = Throw e -> e = TypeError.
Proof.
  induction cs as [|c cs IH]; intros results e H; simpl in H;
    [discriminate|].
  destruct (stored_embedding c); [eauto | now inversion H].
Qed.

Lemma scoreChunks_null q cs c : forall results,
  In c cs -> stored_embedding c = None ->
  scoreChunks q cs results = Throw TypeError.
Proof.
  induction cs as [|c0 cs IH]; intros results Hin Hn; [destruct Hin|].
  simpl. destruct (stored_embedding c0) eqn:E; [|reflexivity].
  destruct Hin as [->|Hin]; [congruence | now apply IH].
Qed.

Lemma scoreDocuments_throws q documentId m : forall results e,
  scoreDocuments q documentId m results = Throw e -> e = TypeError.
Proof.
  induction m as [|[k cs] m IH]; intros results e H; simpl in H;
    [discriminate|].
  destruct (skipped documentId k); [eauto|].
  destruct (scoreChunks q cs results) as [mid|e0] eqn:E; simpl in H.
  - eauto.
  - inversion H; subst. eapply scoreChunks_throws; eauto.
Qed.

Lemma scoreDocuments_null q documentId m k cs c :
  In (k, cs) m -> skipped documentId k = false ->
  In c cs -> stored_embedding c = None ->
  forall results,
    scoreDocuments q documentId m results = Throw TypeError.
Proof.
  intros Hin Hs Hc Hn.
  induction m as [|[k0 cs0] m IH]; intros results; [destruct Hin|].
  simpl. destruct Hin as [E|Hin].
  - inversion E; subst. rewrite Hs.
    now rewrite (scoreChunks_null q cs c results Hc Hn).
  - destruct (skipped documentId k0); [now apply IH|].
    destruct (scoreChunks q cs0 results) as [mid|e0] eqn:E; simpl.
    + now apply IH.
    + f_equal. eapply scoreChunks_throws; eauto.
Qed.

Lemma generateEmbeddingsFrom_throws text fuel : forall retryCount w e,
  fst (generateEmbeddingsFrom fuel env text retryCount w) = Throw e ->
  e = embeddingsFailed.
Proof.
  induction fuel as [|fuel IH]; intros retryCount w e H.
  - simpl in H. now inversion H.
  - rewrite generateEmbeddingsFrom_step in H.
    destruct (nextEmbedAnswer env text w) as [[values|]|status];
      simpl in H; try discriminate; [now inversion H|].
    destruct (match status with Some 429 => true | _ => false end
              && moreKeys w retryCount); [eauto | now inversion H].
Qed.

Lemma mapGet_In m d l : mapGet m d = Some l -> In (d, l) m.
Proof.
  induction m as [|[k cs] m IH]; simpl; [discriminate|].
  destruct (jsstring_eqb k d) eqn:E; [|auto].
  apply jsstring_eqb_eq in E. subst k. intros H. inversion H. now left.
Qed.

Lemma newChunksFrom_null d cs p : forall i,
  In p cs -> embedding p = None ->
  exists c, In c (newChunksFrom d i cs) /\ stored_embedding c = None.
Proof.
  induction cs as [|p0 cs IH]; intros i Hin Hn; [destruct Hin|].
  destruct Hin as [->|Hin].
  - eexists. split; [now left|]. exact Hn.
  - destruct (IH (S i) Hin Hn) as (c & Hc & He).
    exists c. split; [now right | exact He].
Qed.

Lemma scoreChunks_all q cs : forall results,
  (forall c, In c cs -> stored_embedding c <> None) ->
  scoreChunks q cs results = Ok (results ++ hitsOf q cs).
Proof.
  induction cs as [|c cs IH]; intros results H; simpl.
  - now rewrite app_nil_r.
  - destruct (stored_embedding c) as [v|] eqn:E.
    + rewrite IH by (intros c' Hin; apply H; now right).
      unfold hitsOf. cbn [map]. rewrite <- app_assoc. reflexivity.
    + exfalso. apply (H c); [now left | exact E].
Qed.

Lemma scoreDocuments_restricted q d m :
  d <> [] ->
  (forall c, In c (recordsFor m d) -> stored_embedding c <> None) ->
  forall results,
    scoreDocuments q (Some d) m results
    = Ok (results ++ hitsOf q (recordsFor m d)).
Proof.
  intros Hd. unfold recordsFor.
  induction m as [|[k cs] m IH]; intros H results; simpl.
  - now rewrite app_nil_r.
  - unfold skipped, truthy. destruct d as [|c0 d0]; [congruence|].
    cbn [andb]. simpl in H.
    destruct (jsstring_eqb k (c0 :: d0)) eqn:E; cbn [negb]; simpl in H.
    + rewrite scoreChunks_all
        by (intros c Hin; apply H; apply in_or_app; now left).
      simpl. rewrite IH by (intros c Hin; apply H; apply in_or_app; now right).
      unfold hitsOf. rewrite map_app, <- app_assoc. reflexivity.
    + now apply IH.
Qed.

Lemma insertByScore_Permutation x l : Permutation (insertByScore x l) (x :: l).
Proof.
  induction l as [|y l IH]; simpl; auto.
  destruct (_ <? _)%float; auto.
  rewrite IH. apply perm_swap.
Qed.

Lemma sortByScore_Permutation l : Permutation (sortByScore l) l.
Proof.
  induction l as [|x l IH]; simpl; auto.
  rewrite insertByScore_Permutation. now constructor.
Qed.

Lemma In_firstn_In {A} n : forall (l : list A) x, In x (firstn n l) -> In x l.
Proof.
  intros l x H. rewrite <- (firstn_skipn n l). apply in_or_app. now left.
Qed.

End SearchFacts.

(** In fallback mode, once chunks are stored of which one has no vector
    (as [processDocument] leaves them when the provider fails), every
    search that is not restricted to another document and whose query is
    embedded throws a [TypeError]. *)
Theorem search_after_degraded_store env vs documentId cs p query searched
    limit w :
  useFallback vs = true ->
  In p cs -> embedding p = None ->
  skipped searched documentId = false ->
  is_ok (fst (generateEmbeddings env query 0 w)) = true ->
  fst (searchSimilarChunks env (storeChunksFallback vs documentId cs)
         query searched limit w)
  = Throw TypeError.
Proof.
  intros Hf Hin Hn Hs Hq.
  unfold searchSimilarChunks. rewrite storeChunksFallback_fallback, Hf.
  unfold searchChunksFallback, bind, liftOutcome.
  destruct (generateEmbeddings env query 0 w) as [[q|e] w1];
    [|discriminate].
  pose proof (storeChunksFallback_records vs documentId cs) as Hr.
  unfold recordsOf at 1 in Hr.
  destruct (mapGet (fallbackStorage (storeChunksFallback vs documentId cs))
              documentId) as [l|] eqn:Hg.
  - destruct (newChunksFrom_null documentId cs p 0 Hin Hn)
      as (c & Hc & He).
    rewrite (@scoreDocuments_null q searched _ documentId l c); auto.
    + now apply mapGet_In.
    + rewrite Hr. apply in_or_app. now right.
  - destruct (newChunksFrom_null documentId cs p 0 Hin Hn)
      as (c & Hc & He).
    symmetry in Hr. apply app_eq_nil in Hr as [_ Hr].
    rewrite Hr in Hc. destruct Hc.
Qed.

Lemma search_after_degraded_store_sample :
  fst (searchSimilarChunks
         (sampleEnv [] (Throw TypeError) unitEmbedding alwaysRateLimited)
         (storeChunksFallback zeroVectorStore (str "doc-2")
            [ {| content := str "bare"; embedding := None; keywords := [];
                 summary := []; metadata := sampleMetadata |} ])
         (str "query") (Some (str "doc-2")) 5 twoKeys)
  = Throw TypeError.
Proof.
  apply (@search_after_degraded_store
           (sampleEnv [] (Throw TypeError) unitEmbedding alwaysRateLimited)
           zeroVectorStore (str "doc-2")
           [ {| content := str "bare"; embedding := None; keywords := [];
                summary := []; metadata := sampleMetadata |} ]
           {| content := str "bare"; embedding := None; keywords := [];
              summary := []; metadata := sampleMetadata |}
           (str "query") (Some (str "doc-2")) 5 twoKeys).
  - reflexivity.
  - now left.
  - reflexivity.
  - reflexivity.
  - reflexivity.
Defined.

(** In fallback mode, a search restricted to a document all of whose
    records have a vector returns, once the query is embedded, the
    smaller of [limit] and the number of the document's records, and
    every hit is the hit of one of these records. *)
Theorem search_hit_count env vs query d limit w q w' :
  useFallback vs = true ->
  d <> [] ->
  (forall c, In c (recordsFor (fallbackStorage vs) d) ->
             stored_embedding c <> None) ->
  generateEmbeddings env query 0 w = (Ok q, w') ->
  exists hits,
    searchSimilarChunks env vs query (Some d) limit w = (Ok hits, w')
    /\ length hits
       = Nat.min limit (length (recordsFor (fallbackStorage vs) d))
    /\ forall h, In h hits ->
         In h (hitsOf q (recordsFor (fallbackStorage vs) d)).
Proof.
  intros Hf Hd Hall Hq.
  unfold searchSimilarChunks. rewrite Hf.
  unfold searchChunksFallback, bind, liftOutcome, ret. rewrite Hq.
  rewrite scoreDocuments_restricted by assumption. cbn [app].
  eexists. split; [reflexivity|]. split.
  - rewrite length_firstn.
    rewrite (Permutation_length (sortByScore_Permutation _)).
    unfold hitsOf. now rewrite length_map.
  - intros h Hin. apply In_firstn_In in Hin.
    eapply Permutation_in; [apply sortByScore_Permutation | exact Hin].
Qed.

Lemma search_hit_count_sample :
  exists hits,
    searchSimilarChunks
      (sampleEnv [] (Throw TypeError) unitEmbedding alwaysRateLimited)
      zeroVectorStore (str "query") (Some (str "doc-1")) 1 twoKeys
    = (Ok hits, sent EmbedContent twoKeys)
    /\ length hits
       = Nat.min 1
           (length (recordsFor (fallbackStorage zeroVectorStore)
                      (str "doc-1")))
    /\ forall h, In h hits ->
         In h (hitsOf [1%float; 0%float]
                 (recordsFor (fallbackStorage zeroVectorStore)
                    (str "doc-1"))).
Proof.
  apply (@search_hit_count
           (sampleEnv [] (Throw TypeError) unitEmbedding alwaysRateLimited)
           zeroVectorStore (str "query") (str "doc-1") 1 twoKeys
           [1%float; 0%float] (sent EmbedContent twoKeys)).
  - reflexivity.
  - discriminate.
  - intros c Hin. vm_compute in Hin.
    destruct Hin as [<-|[<-|[]]]; discriminate.
  - vm_compute. reflexivity.
Defined.

(** The errors of [searchSimilarChunks]: in fallback mode the error of
    the embedding call or a [TypeError] comes out as it is; otherwise
    every error comes out as "Failed to search similar chunks". *)
Theorem search_errors env vs query documentId limit w e :
  fst (searchSimilarChunks env vs query documentId limit w) = Throw e ->
  if useFallback vs then e = embeddingsFailed \/ e = TypeError
  else e = searchFailed.
Proof.
  unfold searchSimilarChunks. destruct (useFallback vs).
  - unfold searchChunksFallback, bind, liftOutcome, generateEmbeddings.
    pose proof (generateEmbeddingsFrom_throws env query
                  (S (length (geminiApiKeys w) - 1 - 0)) 0 w) as Hg.
    destruct (generateEmbeddingsFrom _ env query 0 w) as [[q|e0] w1].
    + destruct (scoreDocuments q documentId (fallbackStorage vs) [])
        as [out|e1] eqn:E; simpl; [discriminate|].
      intros H. inversion H; subst. right.
      eapply scoreDocuments_throws; eauto.
    + simpl. intros H. inversion H; subst. left. now apply Hg.
  - unfold tryCatch.
    destruct (bind _ _ w) as [[hits|e0] w1]; simpl; [discriminate|].
    intros H. now inversion H.
Qed.

Lemma search_errors_sample :
  if useFallback zeroVectorStore
  then embeddingsFailed = embeddingsFailed \/ embeddingsFailed = TypeError
  else embeddingsFailed = searchFailed.
Proof.
  apply (@search_errors catEnv zeroVectorStore (str "query")
           (Some (str "doc-1")) 5 twoKeys embeddingsFailed).
  vm_compute. reflexivity.
Defined.

(** A fallback search that returns, on a sample store. *)
Lemma searchChunksFallback_limited_scoped_sample :
  exists hits w',
    searchChunksFallback
      (sampleEnv [] (Throw TypeError) unitEmbedding alwaysRateLimited)
      zeroVectorStore (str "query") (Some (str "doc-1")) 1 twoKeys
    = (Ok hits, w')
    /\ length hits <= 1
    /\ Forall (fun h => hit_documentId h = str "doc-1") hits.
Proof.
  eexists. eexists. split; [vm_compute; reflexivity|].
  eapply (@searchChunksFallback_limited_scoped
            (sampleEnv [] (Throw TypeError) unitEmbedding alwaysRateLimited)
            zeroVectorStore (str "query") (str "doc-1") 1 twoKeys).
  - discriminate.
  - apply storeChunksFallback_filed. constructor.
  - vm_compute. reflexivity.
Defined.

(* --------------------------------------------------------------------- *)
(** ** Cosine similarity is symmetric *)

Lemma SFmul_comm prec emax x y : SFmul prec emax x y = SFmul prec emax y x.
Proof.
  destruct x as [sx|sx| |sx mx ex], y as [sy|sy| |sy my ey]; simpl;
    rewrite ?(xorb_comm sx sy); try reflexivity.
  now rewrite Pos.mul_comm, Z.add_comm.
Qed.

Lemma float_mul_comm (x y : float) : (x * y = y * x)%float.
Proof.
  apply Prim2SF_inj. rewrite !mul_spec. apply SFmul_comm.
Qed.

Lemma cosineSums_swap vecA : forall vecB d na nb,
  cosineSums vecB vecA (d, nb, na)
  = (let '(d', na', nb') := cosineSums vecA vecB (d, na, nb) in
     (d', nb', na')).
Proof.
  induction vecA as [|a vecA IH]; intros [|b vecB] d na nb; simpl; auto.
  rewrite (float_mul_comm b a). apply IH.
Qed.

(** [cosineSimilarity] gives the same number with its arguments
    exchanged. *)
Theorem cosineSimilarity_symmetric vecA vecB :
  cosineSimilarity vecA vecB = cosineSimilarity vecB vecA.
Proof.
  unfold cosineSimilarity. rewrite (Nat.eqb_sym (length vecB)).
  destruct (length vecA =? length vecB); simpl; [|reflexivity].
  rewrite (cosineSums_swap vecA vecB).
  destruct (cosineSums vecA vecB (0%float, 0%float, 0%float))
    as [[d na] nb].
  now rewrite (float_mul_comm (sqrt nb) (sqrt na)).
Qed.

(* --------------------------------------------------------------------- *)
(** ** Readability of a text without words *)

Lemma float_sub_nan (x : float) : (x - nan = nan)%float.
Proof.
  apply Prim2SF_inj. rewrite sub_spec.
  replace (Prim2SF nan) with S754_nan by (vm_compute; reflexivity).
  unfold SF64sub, SFsub. now destruct (Prim2SF x).
Qed.

(** For a text that holds no word (empty, or white space only) the
    division by the number of words gives NaN: the returned score is NaN
    and the returned level is 'Very Difficult', whatever the
    tokenizer returns. *)
Theorem calculateReadability_no_word env text :
  wordsOf text = [] ->
  is_nan (readability_score (calculateReadability env text)) = true
  /\ level (calculateReadability env text) = VeryDifficult
  /\ is_nan (avgSyllablesPerWord (calculateReadability env text)) = true.
Proof.
  intros Hw. unfold calculateReadability. rewrite Hw.
  cbn [readability_score level avgSyllablesPerWord length syllablesOf
       fold_left].
  unfold fleschScoreOf.
  replace (84.6 * (float_of_nat 0 / float_of_nat 0))%float with nan
    by (vm_compute; reflexivity).
  rewrite float_sub_nan.
  repeat split; vm_compute; reflexivity.
Qed.

Lemma calculateReadability_no_word_sample :
  is_nan (readability_score (calculateReadability catEnv (str "  ")))
  = true
  /\ level (calculateReadability catEnv (str "  ")) = VeryDifficult
  /\ is_nan (avgSyllablesPerWord (calculateReadability catEnv (str "  ")))
     = true.
Proof.
  apply (@calculateReadability_no_word catEnv (str "  ")).
  vm_compute. reflexivity.
Defined.

(* --------------------------------------------------------------------- *)
(** ** Splitting a document into word chunks *)

Lemma space_is_space : is_space " "%char = true.
Proof. reflexivity. Qed.

Lemma ascii_eqb_eq a b : ascii_eqb a b = true <-> a = b.
Proof. unfold ascii_eqb. apply Ascii.eqb_eq. Qed.

Lemma ascii_eqb_space c : ascii_eqb c " "%char = false <-> c <> " "%char.
Proof.
  split.
  - intros H E. subst c. discriminate H.
  - intros H. destruct (ascii_eqb c " ") eqn:E; auto.
    apply ascii_eqb_eq in E. contradiction.
Qed.

Lemma replaceRuns_plain s : forall inRun,
  plain (replaceRuns is_space inRun s).
Proof.
  unfold plain. induction s as [|c s IH]; intros inRun; simpl;
    [constructor|].
  destruct (is_space c) eqn:E.
  - destruct inRun; [apply IH|]. constructor; auto.
  - constructor; auto. congruence.
Qed.

Lemma replaceRuns_noDouble s : forall inRun,
  noDouble (replaceRuns is_space inRun s)
  /\ (inRun = true -> startsSolid (replaceRuns is_space inRun s)).
Proof.
  induction s as [|c s IH]; intros inRun; simpl; [auto|].
  destruct (is_space c) eqn:E.
  - destruct inRun; [apply IH|].
    destruct (IH true) as [Hn Hs]. specialize (Hs eq_refl).
    split; [|discriminate].
    destruct (replaceRuns is_space true s) as [|b r] eqn:Er; simpl; auto.
    split; auto. intros [_ Hb]. now apply Hs.
  - assert (Hc : c <> " "%char)
      by (intros ->; rewrite space_is_space in E; discriminate).
    destruct (IH false) as [Hn _]. split; [|intros _; exact Hc].
    destruct (replaceRuns is_space false s) as [|b r] eqn:Er; simpl; auto.
    split; auto. intros [Ha _]. contradiction.
Qed.

Lemma replaceRuns_none p s : forall inRun,
  Forall (fun c => p c = false) s -> replaceRuns p inRun s = s.
Proof.
  induction s as [|c s IH]; intros inRun H; simpl; auto.
  inversion H as [|? ? Hc Hs]; subst. rewrite Hc. now rewrite IH.
Qed.

Lemma plain_no_newline s :
  plain s -> Forall (fun c => is_newline c = false) s.
Proof.
  unfold plain. induction 1 as [|c s Hc Hs IH]; constructor; auto.
  destruct (is_newline c) eqn:E; auto.
  apply ascii_eqb_eq in E. subst c. discriminate (Hc eq_refl).
Qed.

Lemma plain_no_tab s : plain s -> Forall (fun c => is_tab c = false) s.
Proof.
  unfold plain. induction 1 as [|c s Hc Hs IH]; constructor; auto.
  destruct (is_tab c) eqn:E; auto.
  apply ascii_eqb_eq in E. subst c. discriminate (Hc eq_refl).
Qed.

Lemma noDouble_app a : forall b, noDouble (a ++ b) -> noDouble a /\ noDouble b.
Proof.
  induction a as [|x a IH]; intros b H; simpl in *; [auto|].
  destruct a as [|y a].
  - simpl in *. destruct b; [auto|]. destruct H; auto.
  - simpl in H. destruct H as [Hxy H]. destruct (IH b H) as [Ha Hb].
    repeat split; auto.
Qed.

Lemma trim_infix s : exists before after, s = before ++ trim s ++ after.
Proof.
  unfold trim.
  destruct (dropWhile_suffix is_space s) as [before Hb].
  destruct (dropWhile_suffix is_space (rev (dropWhile is_space s)))
    as [after Ha].
  exists before, (rev after).
  set (a := dropWhile is_space s) in *.
  set (x := dropWhile is_space (rev a)) in *.
  assert (E : a = rev x ++ rev after)
    by (rewrite <- (rev_involutive a), Ha, rev_app_distr; reflexivity).
  rewrite <- E. exact Hb.
Qed.

Lemma endsSolid_rev_head c r s : rev s = c :: r -> c <> " "%char -> endsSolid s.
Proof.
  intros Hr Hc.
  assert (Hs : s = rev r ++ [c])
    by (rewrite <- (rev_involutive s), Hr; reflexivity).
  rewrite Hs. clear Hr Hs. induction (rev r) as [|x l IH]; simpl; auto.
  destruct (l ++ [c]) eqn:E; [destruct l; discriminate|]. exact IH.
Qed.

(** The cleaned content: blanks are its only white space, it has no two
    blanks in a row and none at either end. *)
Lemma cleanContent_tight content :
  plain (cleanContent content) /\ noDouble (cleanContent content)
  /\ startsSolid (cleanContent content) /\ endsSolid (cleanContent content).
Proof.
  unfold cleanContent.
  pose proof (replaceRuns_plain content false) as Hp.
  destruct (replaceRuns_noDouble content false) as [Hn _].
  rewrite (replaceRuns_none is_newline) by now apply plain_no_newline.
  rewrite (replaceRuns_none is_tab) by now apply plain_no_tab.
  set (x := replaceRuns is_space false content) in *.
  destruct (trim_infix x) as (before & after & Hx).
  assert (Hpt : plain (trim x)).
  { unfold plain in *. rewrite Hx in Hp.
    apply Forall_app in Hp as [_ Hp]. now apply Forall_app in Hp as [Hp _]. }
  split; [exact Hpt|]. split.
  { rewrite Hx in Hn. apply noDouble_app in Hn as [_ Hn].
    now apply noDouble_app in Hn as [Hn _]. }
  split.
  - pose proof (trim_trim x) as Ht. unfold trim at 1 in Ht.
    destruct (trim x) as [|c r] eqn:E; simpl; auto.
    intros ->. simpl in Ht.
    assert (Hl : length (rev (dropWhile is_space (rev (dropWhile is_space r))))
                 = S (length r)) by (rewrite Ht; reflexivity).
    rewrite length_rev in Hl.
    pose proof (length_dropWhile_le is_space (rev (dropWhile is_space r))).
    pose proof (length_dropWhile_le is_space r).
    rewrite length_rev in *. lia.
  - unfold trim.
    destruct (dropWhile is_space (rev (dropWhile is_space x)))
      as [|c r] eqn:E; [simpl; auto|].
    apply (endsSolid_rev_head (c := c) (r := r)).
    + apply rev_involutive.
    + intros ->. apply dropWhile_head in E. discriminate.
Qed.

Lemma splitOn_pieces s :
  plain s -> noDouble s -> endsSolid s ->
  match splitOn " "%char s with
  | w :: ws =>
      Forall solid ws
      /\ Forall (fun c => is_space c = false) w
      /\ (w = [] -> s = [] \/ ~ startsSolid s)
  | [] => False
  end.
Proof.
  unfold plain. induction s as [|c s IH]; intros Hp Hn He; simpl.
  - repeat split; auto.
  - inversion Hp as [|? ? Hc Hps]; subst.
    assert (Hns : noDouble s) by (destruct s; simpl in *; tauto).
    assert (Hes : endsSolid s) by (destruct s; simpl in *; tauto).
    specialize (IH Hps Hns Hes).
    destruct (splitOn " " s) as [|w ws]; [contradiction|].
    destruct IH as (Hws & Hw & Hempty).
    destruct (ascii_eqb c " ") eqn:E.
    + apply ascii_eqb_eq in E. subst c.
      split; [|split; [constructor | intros _; right; simpl; tauto]].
      constructor; auto. split; auto.
      intros ->. destruct (Hempty eq_refl) as [-> | Hstart].
      * simpl in He. congruence.
      * destruct s as [|b r]; simpl in *; [tauto|].
        apply Hstart. intros ->. tauto.
    + apply ascii_eqb_space in E.
      split; [exact Hws|]. split; [|discriminate].
      constructor; auto.
      destruct (is_space c) eqn:Ec; auto. now elim E; apply Hc.
Qed.

(** The words of a non-empty cleaned content are all solid. *)
Lemma cleanContent_words content :
  cleanContent content <> [] ->
  Forall solid (splitOn " "%char (cleanContent content)).
Proof.
  intros Hne.
  destruct (cleanContent_tight content) as (Hp & Hn & Hs & He).
  pose proof (splitOn_pieces Hp Hn He) as H.
  destruct (splitOn " " (cleanContent content)) as [|w ws];
    [contradiction|].
  destruct H as (Hws & Hw & Hempty).
  constructor; auto. split; auto.
  intros ->. destruct (Hempty eq_refl); contradiction.
Qed.

Lemma splitOn_not_nil sep s : splitOn sep s <> [].
Proof.
  destruct s as [|c s]; simpl; [discriminate|].
  destruct (ascii_eqb c sep); [discriminate|].
  destruct (splitOn sep s); discriminate.
Qed.

Lemma join_cons sep x l :
  l <> [] -> join sep (x :: l) = x ++ sep ++ join sep l.
Proof. destruct l; [congruence | reflexivity]. Qed.

Lemma join_app sep a : forall b,
  a <> [] -> b <> [] ->
  join sep (a ++ b) = join sep a ++ sep ++ join sep b.
Proof.
  induction a as [|x a IH]; intros b Ha Hb; [congruence|].
  destruct a as [|y a].
  - simpl app. now rewrite join_cons.
  - change ((x :: y :: a) ++ b) with (x :: ((y :: a) ++ b)).
    rewrite join_cons by discriminate.
    rewrite IH by (auto; discriminate).
    rewrite (join_cons sep x (l := y :: a)) by discriminate.
    now rewrite <- !app_assoc.
Qed.

(** Joining what [split(' ')] gives back yields the string. *)
Lemma join_splitOn s : join (str " ") (splitOn " "%char s) = s.
Proof.
  induction s as [|c s IH]; [reflexivity|]. simpl splitOn.
  destruct (ascii_eqb c " ") eqn:E.
  - apply ascii_eqb_eq in E. subst c.
    rewrite join_cons by apply splitOn_not_nil. now rewrite IH.
  - pose proof (splitOn_not_nil " " s) as Hn.
    destruct (splitOn " " s) as [|w ws]; [congruence|].
    destruct ws as [|w2 ws].
    + simpl in *. now rewrite IH.
    + rewrite join_cons by discriminate.
      rewrite join_cons in IH by discriminate.
      rewrite <- IH. reflexivity.
Qed.

Lemma dropWhile_snoc_solid {A} (p : A -> bool) l c :
  p c = false -> dropWhile p (l ++ [c]) <> [].
Proof.
  intros Hc. induction l as [|x l IH]; simpl.
  - now rewrite Hc.
  - destruct (p x); [exact IH | discriminate].
Qed.

Lemma trim_solid_start c r : is_space c = false -> 0 < length (trim (c :: r)).
Proof.
  intros Hc. unfold trim. simpl dropWhile. rewrite Hc.
  rewrite length_rev. simpl rev.
  pose proof (dropWhile_snoc_solid is_space (rev r) c Hc) as H.
  destruct (dropWhile is_space (rev r ++ [c])); [congruence|simpl; lia].
Qed.

Lemma join_solid_start ws :
  ws <> [] -> Forall solid ws ->
  0 < length (trim (join (str " ") ws)).
Proof.
  intros Hne Hs. destruct Hs as [|w ws [Hw Hf] Hws]; [congruence|].
  destruct w as [|c w]; [congruence|].
  inversion Hf; subst.
  destruct ws; simpl; now apply trim_solid_start.
Qed.

Lemma wordChunks_joined chunkSize fuel : forall rest,
  0 < chunkSize -> length rest <= fuel -> Forall solid rest ->
  join (str " ") (wordChunks fuel chunkSize rest) = join (str " ") rest
  /\ (rest <> [] -> wordChunks fuel chunkSize rest <> []).
Proof.
  induction fuel as [|fuel IH]; intros rest Hk Hl Hs.
  - destruct rest; [split; [reflexivity|congruence] | simpl in Hl; lia].
  - destruct rest as [|w rest']; [split; [reflexivity|congruence]|].
    set (rest := w :: rest') in *.
    cbn [wordChunks]. unfold rest at 1.
    assert (Hfirst : firstn chunkSize rest <> [])
      by (destruct chunkSize; [lia | discriminate]).
    assert (Hnb : 0 < length (trim (join (str " ") (firstn chunkSize rest)))).
    { apply join_solid_start; auto.
      rewrite <- (firstn_skipn chunkSize rest) in Hs.
      now apply Forall_app in Hs as [Hs _]. }
    apply Nat.ltb_lt in Hnb. rewrite Hnb. cbn [app].
    assert (Hskip : Forall solid (skipn chunkSize rest)).
    { rewrite <- (firstn_skipn chunkSize rest) in Hs.
      now apply Forall_app in Hs as [_ Hs]. }
    assert (Hlen : length (skipn chunkSize rest) <= fuel).
    { rewrite length_skipn. lia. }
    destruct (IH (skipn chunkSize rest) Hk Hlen Hskip) as [Hj Hne].
    split; [|discriminate].
    pose proof (firstn_skipn chunkSize rest) as F.
    destruct (skipn chunkSize rest) as [|v tl] eqn:E.
    + assert (W : wordChunks fuel chunkSize [] = [])
        by (destruct fuel; reflexivity).
      rewrite W. rewrite app_nil_r in F. rewrite F. reflexivity.
    + rewrite join_cons by (apply Hne; discriminate).
      rewrite Hj.
      transitivity (join (str " ") (firstn chunkSize rest ++ v :: tl));
        [|now rewrite F].
      rewrite join_app by (auto; discriminate). reflexivity.
Qed.

(** For a positive [chunkSize], the chunks of [splitDocumentIntoChunks]
    joined by single blanks are the cleaned content: no word is lost,
    added or moved. *)
Theorem splitDocumentIntoChunks_joined content chunkSize :
  0 < chunkSize ->
  join (str " ") (splitDocumentIntoChunks content chunkSize)
  = cleanContent content.
Proof.
  intros Hk. unfold splitDocumentIntoChunks.
  destruct (cleanContent content) as [|c r] eqn:E.
  - simpl. destruct chunkSize; [lia|]. cbn [firstn].
    rewrite firstn_nil. reflexivity.
  - rewrite <- E.
    destruct (wordChunks_joined (chunkSize := chunkSize)
                (fuel := length (splitOn " " (cleanContent content)))
                (rest := splitOn " " (cleanContent content)))
      as [Hj _]; auto.
    + apply cleanContent_words. rewrite E. discriminate.
    + rewrite Hj. apply join_splitOn.
Qed.

Lemma splitDocumentIntoChunks_joined_sample :
  join (str " ") (splitDocumentIntoChunks (str "  a b   c d e ") 2)
  = str "a b c d e".
Proof.
  apply (@splitDocumentIntoChunks_joined (str "  a b   c d e ") 2).
  lia.
Defined.

Lemma replaceRuns_blank_run s :
  Forall (fun c => is_space c = true) s -> replaceRuns is_space true s = [].
Proof.
  induction 1 as [|c s Hc Hs IH]; simpl; [reflexivity|]. now rewrite Hc.
Qed.

Lemma cleanContent_blank content :
  Forall (fun c => is_space c = true) content -> cleanContent content = [].
Proof.
  intros H. unfold cleanContent. destruct H as [|c s Hc Hs]; [reflexivity|].
  simpl. rewrite Hc, (replaceRuns_blank_run Hs). reflexivity.
Qed.

Lemma splitDocumentIntoChunks_of_empty content chunkSize :
  0 < chunkSize -> cleanContent content = [] ->
  splitDocumentIntoChunks content chunkSize = [].
Proof.
  intros Hk E. unfold splitDocumentIntoChunks. rewrite E. simpl.
  destruct chunkSize; [lia|]. cbn [firstn]. rewrite firstn_nil. reflexivity.
Qed.

(** A content of white space only gives no chunk at all: the one empty
    word that [split] returns is dropped by the [chunk.trim()] test. *)
Theorem splitDocumentIntoChunks_blank content chunkSize :
  0 < chunkSize ->
  Forall (fun c => is_space c = true) content ->
  splitDocumentIntoChunks content chunkSize = [].
Proof.
  intros Hk H. apply splitDocumentIntoChunks_of_empty; auto.
  now apply cleanContent_blank.
Qed.

Lemma splitDocumentIntoChunks_blank_sample :
  splitDocumentIntoChunks [" "%char; ascii_of_nat 10; ascii_of_nat 9] 3 = [].
Proof.
  apply (@splitDocumentIntoChunks_blank
           [" "%char; ascii_of_nat 10; ascii_of_nat 9] 3).
  - lia.
  - repeat constructor.
Defined.

Lemma splitOn_solid w :
  Forall (fun c => is_space c = false) w -> splitOn " "%char w = [w].
Proof.
  induction 1 as [|c w Hc Hw IH]; [reflexivity|]. simpl.
  destruct (ascii_eqb c " ") eqn:E.
  - apply ascii_eqb_eq in E. subst c. rewrite space_is_space in Hc.
    discriminate.
  - now rewrite IH.
Qed.

Lemma splitOn_app_solid w s :
  Forall (fun c => is_space c = false) w ->
  splitOn " "%char (w ++ " "%char :: s) = w :: splitOn " "%char s.
Proof.
  induction 1 as [|c w Hc Hw IH]; [reflexivity|]. simpl.
  destruct (ascii_eqb c " ") eqn:E.
  - apply ascii_eqb_eq in E. subst c. rewrite space_is_space in Hc.
    discriminate.
  - now rewrite IH.
Qed.

(** Splitting at blanks what was joined with blanks gives the words back,
    when no word holds white space. *)
Lemma splitOn_join ws :
  ws <> [] -> Forall solid ws ->
  splitOn " "%char (join (str " ") ws) = ws.
Proof.
  induction ws as [|w ws IH]; intros Hne Hs; [congruence|].
  inversion Hs as [|? ? [_ Hw] Hws]; subst.
  destruct ws as [|w2 ws].
  - now apply splitOn_solid.
  - rewrite join_cons by discriminate.
    change (str " " ++ join (str " ") (w2 :: ws))
      with (" "%char :: join (str " ") (w2 :: ws)).
    rewrite splitOn_app_solid by exact Hw.
    now rewrite IH by (auto; discriminate).
Qed.

Lemma wordChunks_sized chunkSize fuel : forall rest,
  0 < chunkSize -> Forall solid rest ->
  Forall (fun chunk => wordsWithin chunkSize chunk)
         (wordChunks fuel chunkSize rest).
Proof.
  induction fuel as [|fuel IH]; intros rest Hk Hs; [constructor|].
  destruct rest as [|w rest']; [constructor|].
  set (rest := w :: rest') in *. cbn [wordChunks]. unfold rest at 1.
  rewrite <- (firstn_skipn chunkSize rest) in Hs.
  apply Forall_app in Hs as [Hfirst Hskip].
  apply Forall_app. split; [|now apply IH].
  destruct (0 <? _); constructor; [|constructor].
  assert (Hne : firstn chunkSize rest <> [])
    by (destruct chunkSize; [lia | discriminate]).
  unfold wordsWithin. rewrite splitOn_join by assumption.
  split; [exact Hfirst|]. split; [|rewrite length_firstn; lia].
  destruct (firstn chunkSize rest); [congruence | simpl; lia].
Qed.

(** For a positive [chunkSize], every chunk of [splitDocumentIntoChunks]
    is made of words in the proper sense, pieces that are not empty and
    hold no white space, and of at least one and at most [chunkSize] of
    them. *)
Theorem splitDocumentIntoChunks_sized content chunkSize :
  0 < chunkSize ->
  Forall (fun chunk => wordsWithin chunkSize chunk)
         (splitDocumentIntoChunks content chunkSize).
Proof.
  intros Hk. destruct (cleanContent content) as [|c r] eqn:E.
  - rewrite splitDocumentIntoChunks_of_empty by assumption. constructor.
  - unfold splitDocumentIntoChunks. apply wordChunks_sized; auto.
    apply cleanContent_words. rewrite E. discriminate.
Qed.

Lemma splitDocumentIntoChunks_sized_sample :
  Forall (fun chunk => wordsWithin 2 chunk)
         (splitDocumentIntoChunks (str "  a b   c d e ") 2).
Proof.
  apply (@splitDocumentIntoChunks_sized (str "  a b   c d e ") 2). lia.
Defined.
